(** * A shallow embedding of the knowledge-base ingestion and retrieval core

    The JavaScript sources embedded here are [src/chunk.js], [src/detect.js],
    [src/normalize.js], [src/embed.js], [src/retrieve.js], [lock.js] and
    [ingest.js].  Pure functions become Rocq functions; code that reads or
    writes the embedding cache, the network, the lock marker or the database
    threads an explicit state and returns either a value or the thrown
    error. *)

From Stdlib Require Import Strings.String Strings.Ascii NArith ZArith Lia.
From stdpp Require Import base list sorting gmap.

Open Scope list_scope.

(** ** JavaScript strings

    A JavaScript string is a sequence of UTF-16 code units.  The regular
    expressions of the sources carry no [u] flag, so they work on code units
    too. *)

Definition jschar := N.
Definition jsstring := list N.

(** ASCII literals. *)
Definition js (s : string) : jsstring :=
  map N_of_ascii (list_ascii_of_string s).

Fixpoint jsstring_eqb (a b : jsstring) : bool :=
  match a, b with
  | [], [] => true
  | x :: a', y :: b' => (x =? y)%N && jsstring_eqb a' b'
  | _, _ => false
  end.

(** [\s] of a regular expression and the characters removed by
    [String.prototype.trim]: WhiteSpace and LineTerminator. *)
Definition is_ws (c : jschar) : bool :=
  ((9 <=? c) && (c <=? 13) || (c =? 32) || (c =? 160) || (c =? 5760)
   || (8192 <=? c) && (c <=? 8202) || (c =? 8232) || (c =? 8233)
   || (c =? 8239) || (c =? 8287) || (c =? 12288) || (c =? 65279))%N.

(** The characters [.] of a regular expression does not match. *)
Definition is_line_terminator (c : jschar) : bool :=
  ((c =? 10) || (c =? 13) || (c =? 8232) || (c =? 8233))%N.

(** [\d]. *)
Definition is_digit (c : jschar) : bool := ((48 <=? c) && (c <=? 57))%N.

(** Canonicalisation of the [i] flag on the ASCII letters: a pattern letter
    matches exactly its two ASCII case variants. *)
Definition ascii_lower (c : jschar) : jschar :=
  if ((65 <=? c) && (c <=? 90))%N then (c + 32)%N else c.

Fixpoint trimStart (s : jsstring) : jsstring :=
  match s with
  | [] => []
  | c :: s' => if is_ws c then trimStart s' else s
  end.

Definition trimEnd (s : jsstring) : jsstring := rev (trimStart (rev s)).

Definition trim (s : jsstring) : jsstring := trimEnd (trimStart s).

(** [s.slice(start)], for any integer [start]. *)
Definition slice_from (start : Z) (s : jsstring) : jsstring :=
  let len := Z.of_nat (length s) in
  let from := if (start <? 0)%Z then Z.max (len + start) 0 else Z.min start len in
  drop (Z.to_nat from) s.

(** [s.slice(start, end)], for any integers. *)
Definition slice (start stop : Z) (s : jsstring) : jsstring :=
  let len := Z.of_nat (length s) in
  let from := if (start <? 0)%Z then Z.max (len + start) 0 else Z.min start len in
  let to := if (stop <? 0)%Z then Z.max (len + stop) 0 else Z.min stop len in
  take (Z.to_nat (to - from)) (drop (Z.to_nat from) s).

Definition is_empty {A} (l : list A) : bool :=
  match l with [] => true | _ => false end.

(** ** The chunker, [src/chunk.js] *)

Definition CHUNK_SIZE : nat := 800.
Definition OVERLAP : nat := 200.
Definition MIN_CHUNK : nat := 100.

(** [[.!?]] *)
Definition is_sentence_end (c : jschar) : bool :=
  ((c =? 46) || (c =? 33) || (c =? 63))%N.

Definition cons_head (c : jschar) (pieces : list jsstring) : list jsstring :=
  match pieces with
  | [] => [[c]]
  | p :: ps => (c :: p) :: ps
  end.

(** [text.split(SENTENCE_RE)] with [SENTENCE_RE = /(?<=[.!?])\s+/]: a
    separator is a maximal run of white space that follows one of [.!?].
    [skipping] says that the scan is inside a separator, [prev_end] that the
    previous character is one of [.!?]. The head of the result is the piece
    under construction. *)
Fixpoint split_scan (skipping prev_end : bool) (s : jsstring) : list jsstring :=
  match s with
  | [] => [[]]
  | c :: s' =>
      if skipping && is_ws c then split_scan true false s'
      else if prev_end && is_ws c then [] :: split_scan true false s'
      else cons_head c (split_scan false (is_sentence_end c) s')
  end.

Definition split_sentences (text : jsstring) : list jsstring :=
  split_scan false false text.

(** [s => s.trim().length > 0] *)
Definition non_blank (s : jsstring) : bool := negb (is_empty (trim s)).

(** One iteration of [for (const sentence of sentences)], on the pair of
    [chunks] and [current]. *)
Definition chunk_step (st : list jsstring * jsstring) (sentence : jsstring)
  : list jsstring * jsstring :=
  let '(chunks, current) := st in
  if (CHUNK_SIZE <? length current + length sentence) && (MIN_CHUNK <=? length current)
  then (chunks ++ [trim current], slice_from (- Z.of_nat OVERLAP) current ++ sentence)
  else (chunks, current ++ (if is_empty current then [] else js " ") ++ sentence).

(** [chunks[chunks.length - 1] += extra], for a non-empty [chunks]. *)
Fixpoint append_to_last (chunks : list jsstring) (extra : jsstring) : list jsstring :=
  match chunks with
  | [] => []
  | [c] => [c ++ extra]
  | c :: cs => c :: append_to_last cs extra
  end.

(** The code after the loop ("Handle last chunk"). *)
Definition chunk_finish (st : list jsstring * jsstring) : list jsstring :=
  let '(chunks, current) := st in
  if 0 <? length (trim current) then
    if (length (trim current) <? MIN_CHUNK) && (0 <? length chunks)
    then append_to_last chunks (js " " ++ trim current)
    else chunks ++ [trim current]
  else chunks.

Definition chunkText (text : jsstring) : list jsstring :=
  if is_empty text || (length text <? MIN_CHUNK)
  then (if is_empty text then [] else [text])
  else
    let sentences := List.filter non_blank (split_sentences text) in
    if length sentences =? 0 then [text]
    else chunk_finish (fold_left chunk_step sentences ([], [])).

(** *** What the chunker's output is made of (second definition, used to
    state how far the input can be recovered from the chunks)

    The unique text of a chunk is a group of consecutive sentences joined by
    single spaces.  The buffer of a group is its unique text, preceded (from
    the second group on) by the overlap: the last [OVERLAP] characters of
    the previous buffer.  The chunks are the trimmed buffers, the last
    buffer being handled by the rule of [chunk_finish]. *)

Fixpoint join_space (g : list jsstring) : jsstring :=
  match g with
  | [] => []
  | [s] => s
  | s :: g' => s ++ js " " ++ join_space g'
  end.

Definition overlap_of (buffer : jsstring) : jsstring :=
  slice_from (- Z.of_nat OVERLAP) buffer.

Fixpoint buffers_from (prev : jsstring) (uniques : list jsstring) : list jsstring :=
  match uniques with
  | [] => []
  | u :: us => let b := overlap_of prev ++ u in b :: buffers_from b us
  end.

Definition assemble_chunks (uniques : list jsstring) : list jsstring :=
  match rev (buffers_from [] uniques) with
  | [] => []
  | final :: earlier => chunk_finish (map trim (rev earlier), final)
  end.

Definition remove_ws (s : jsstring) : jsstring :=
  List.filter (fun c => negb (is_ws c)) s.

(** The reading of "unique text" that drops a fixed overlap prefix of
    [OVERLAP] characters from every chunk but the first. *)
Definition unique_texts (chunks : list jsstring) : list jsstring :=
  match chunks with
  | [] => []
  | c :: cs => c :: map (drop OVERLAP) cs
  end.

Definition repeat_str (n : nat) (s : string) : jsstring :=
  concat (replicate n (js s)).

(** The state of the loop of [chunkText] after some sentences: [gs] are the
    groups of the chunks already closed, [g] the group being accumulated in
    [current]. *)
Definition chunk_inv (gs : list (list jsstring)) (g : list jsstring)
    (st : list jsstring * jsstring) : Prop :=
  let bufs := buffers_from [] (map join_space gs) in
  st = (map trim bufs, overlap_of (List.last bufs []) ++ join_space g) /\
  (g = [] -> gs = []) /\
  Forall (fun s => s <> []) g.

(** ** Regular expressions without look-around or back-references

    [RegExp.prototype.test] only asks whether some match exists, so the
    patterns of [src/detect.js] and [src/normalize.js] are read as regular
    languages over code units and decided with derivatives. *)

Inductive regex : Type :=
  | Void : regex
  | Eps : regex
  | Chr : (jschar -> bool) -> regex
  | Seq : regex -> regex -> regex
  | Alt : regex -> regex -> regex
  | Star : regex -> regex.

(** [x?] and [x+] *)
Definition Opt (r : regex) : regex := Alt r Eps.
Definition Plus (r : regex) : regex := Seq r (Star r).

(** [.] matches everything but a line terminator; [\d]; any code unit. *)
Definition Dot : regex := Chr (fun c => negb (is_line_terminator c)).
Definition Digit : regex := Chr is_digit.
Definition AnyChar : regex := Chr (fun _ => true).

(** A literal under the [i] flag: each character matches with its ASCII case
    ignored.  The literals of the sources are written in lower case. *)
Fixpoint lit_chars (s : jsstring) : regex :=
  match s with
  | [] => Eps
  | x :: s' => Seq (Chr (fun c => (ascii_lower c =? x)%N)) (lit_chars s')
  end.

Definition lit_i (s : string) : regex := lit_chars (js s).

Fixpoint nullable (r : regex) : bool :=
  match r with
  | Void => false
  | Eps => true
  | Chr _ => false
  | Seq a b => nullable a && nullable b
  | Alt a b => nullable a || nullable b
  | Star _ => true
  end.

Fixpoint deriv (c : jschar) (r : regex) : regex :=
  match r with
  | Void => Void
  | Eps => Void
  | Chr p => if p c then Eps else Void
  | Seq a b =>
      if nullable a then Alt (Seq (deriv c a) b) (deriv c b)
      else Seq (deriv c a) b
  | Alt a b => Alt (deriv c a) (deriv c b)
  | Star a => Seq (deriv c a) (Star a)
  end.

(** The whole of [s] is a word of [r]. *)
Fixpoint matches (r : regex) (s : jsstring) : bool :=
  match s with
  | [] => nullable r
  | c :: s' => matches (deriv c r) s'
  end.

(** The words of a regular expression. *)
Inductive lang : regex -> jsstring -> Prop :=
  | lang_eps : lang Eps []
  | lang_chr p c : p c = true -> lang (Chr p) [c]
  | lang_seq a b s1 s2 : lang a s1 -> lang b s2 -> lang (Seq a b) (s1 ++ s2)
  | lang_alt_l a b s : lang a s -> lang (Alt a b) s
  | lang_alt_r a b s : lang b s -> lang (Alt a b) s
  | lang_star_nil a : lang (Star a) []
  | lang_star_app a s1 s2 : lang a s1 -> lang (Star a) s2 -> lang (Star a) (s1 ++ s2).

(** [re.test(s)] for a pattern [^r]: a match starts at the first character
    and may end anywhere. *)
Definition test_from_start (r : regex) (s : jsstring) : bool :=
  matches (Seq r (Star AnyChar)) s.

(** [re.test(s)] for a pattern [r$] (no [m] flag): a match may start
    anywhere and ends at the end of the input. *)
Definition test_to_end (r : regex) (s : jsstring) : bool :=
  matches (Seq (Star AnyChar) r) s.

(** ** The source type classifier, [src/detect.js] *)

Inductive source_type : Type :=
  | st_text | st_tweet | st_video | st_pdf | st_article | st_other.

(** [/^https?:\/\/(www\.)?(twitter\.com|x\.com)\/.+\/status\/\d+/i] *)
Definition TWITTER_RE : regex :=
  Seq (lit_i "http") (Seq (Opt (lit_i "s")) (Seq (lit_i "://")
  (Seq (Opt (lit_i "www."))
  (Seq (Alt (lit_i "twitter.com") (lit_i "x.com"))
  (Seq (lit_i "/") (Seq (Plus Dot) (Seq (lit_i "/status/") (Plus Digit)))))))).

(** [/^https?:\/\/(www\.)?(youtube\.com\/watch\?|youtu\.be\/|youtube\.com\/shorts\/)/i] *)
Definition YOUTUBE_RE : regex :=
  Seq (lit_i "http") (Seq (Opt (lit_i "s")) (Seq (lit_i "://")
  (Seq (Opt (lit_i "www."))
  (Alt (lit_i "youtube.com/watch?")
       (Alt (lit_i "youtu.be/") (lit_i "youtube.com/shorts/")))))).

(** [PDF_RE]: the literal [\.pdf], then optionally [\?] and any number of
    [.], then [$]; flag [i]. *)
Definition PDF_RE : regex :=
  Seq (lit_i ".pdf") (Opt (Seq (lit_i "?") (Star Dot))).

(** [/^https?:\/\//i] *)
Definition HTTP_RE : regex :=
  Seq (lit_i "http") (Seq (Opt (lit_i "s")) (lit_i "://")).

Definition detectSourceType (url : jsstring) : source_type :=
  if is_empty url then st_text
  else if test_from_start TWITTER_RE url then st_tweet
  else if test_from_start YOUTUBE_RE url then st_video
  else if test_to_end PDF_RE url then st_pdf
  else if test_from_start HTTP_RE url then st_article
  else st_other.

(** *** The reading of the classifier's description

    The path of a URL, ignoring the query string: the text before the first
    [?]. *)
Fixpoint before_query (url : jsstring) : jsstring :=
  match url with
  | [] => []
  | c :: url' => if (c =? 63)%N then [] else c :: before_query url'
  end.

Definition ends_with (suffix s : jsstring) : bool :=
  jsstring_eqb (drop (length s - length suffix) s) suffix.

(** "An HTTP(S) URL, not matched by the tweet or video patterns, whose path
    ends in .pdf". *)
Definition pdf_by_path (url : jsstring) : bool :=
  test_from_start HTTP_RE url
  && negb (test_from_start TWITTER_RE url)
  && negb (test_from_start YOUTUBE_RE url)
  && ends_with (js ".pdf") (before_query url).

(** What [PDF_RE] accepts: [.pdf] in any letter case, at the very end or
    followed by [?] and then no line terminator up to the end. *)
Definition pdf_suffix (url : jsstring) : Prop :=
  exists pre ext rest,
    url = pre ++ ext ++ rest /\
    map ascii_lower ext = js ".pdf" /\
    (rest = [] \/
     exists q, rest = 63%N :: q /\ forallb (fun c => negb (is_line_terminator c)) q = true).

(** ** Thrown errors and results

    Code that can throw returns [Throw e] instead of a value.  An error has
    the name of its class and its message. *)

Inductive error_name : Type := PlainError | TypeError | SyntaxError.

Record js_error : Type := mkError { err_name : error_name; err_message : jsstring }.

Inductive result (A : Type) : Type :=
  | Ok : A -> result A
  | Throw : js_error -> result A.

Arguments Ok {A} _.
Arguments Throw {A} _.

Fixpoint starts_with (prefix s : jsstring) : bool :=
  match prefix, s with
  | [], _ => true
  | x :: p', y :: s' => (x =? y)%N && starts_with p' s'
  | _ :: _, [] => false
  end.

(** [s.includes(sub)] *)
Fixpoint includes (s sub : jsstring) : bool :=
  starts_with sub s ||
  match s with
  | [] => false
  | _ :: s' => includes s' sub
  end.

(** ** The ingestion lock, [lock.js] *)

Definition STALE_MS : Z := 15 * 60 * 1000.

(** What [acquireLock] reads from an existing marker file.  [Unparsable]:
    [JSON.parse] throws a [SyntaxError] with the given message.
    [ParsedNull]: the content is the JSON value [null], and reading [data.ts]
    throws a [TypeError].  [Parsed ts pid]: any other JSON value; [ts] is
    [data.ts] as a number ([None] when [Date.now() - data.ts] is [NaN]) and
    [pid] is [data.pid] ([None] when it is not a number, for which
    [process.kill] throws). *)
Inductive marker : Type :=
  | Unparsable (message : jsstring)
  | ParsedNull
  | Parsed (ts : option Z) (pid : option Z).

Inductive fs_op : Type :=
  | Unlink : fs_op
  | WriteMarker : Z -> Z -> fs_op.

(** The lock file, and the operations done on it so far (oldest first). *)
Record lock_fs : Type := mkLockFs { marker_file : option marker; fs_ops : list fs_op }.

(** The process table and the clock, as [acquireLock] sees them:
    [signalable pid] says that [process.kill(pid, 0)] returns; [own_pid] is
    [process.pid]; [now_check] and [now_write] are the two readings of
    [Date.now()]. *)
Record lock_env : Type := mkLockEnv {
  signalable : Z -> bool;
  own_pid : Z;
  now_check : Z;
  now_write : Z
}.

Definition BUSY_MESSAGE : jsstring := js "Another ingestion is running. Try again later.".

Definition busy_error : js_error := mkError PlainError BUSY_MESSAGE.

Definition NULL_TS_MESSAGE : jsstring :=
  js "Cannot read properties of null (reading 'ts')".

(** [try { process.kill(pid, 0); return true; } catch { return false; }] *)
Definition isPidAlive (env : lock_env) (pid : option Z) : bool :=
  match pid with
  | Some p => signalable env p
  | None => false
  end.

(** The body of the [try] of [acquireLock]. *)
Definition check_marker (env : lock_env) (m : marker) : result unit :=
  match m with
  | Unparsable message => Throw (mkError SyntaxError message)
  | ParsedNull => Throw (mkError TypeError NULL_TS_MESSAGE)
  | Parsed ts pid =>
      let fresh :=
        match ts with
        | Some t => (now_check env - t <? STALE_MS)%Z
        | None => false
        end in
      if fresh && isPidAlive env pid then Throw busy_error else Ok tt
  end.

Definition unlinkSync (fs : lock_fs) : lock_fs :=
  mkLockFs None (fs_ops fs ++ [Unlink]).

Definition write_marker (env : lock_env) (fs : lock_fs) : lock_fs :=
  mkLockFs (Some (Parsed (Some (now_write env)) (Some (own_pid env))))
           (fs_ops fs ++ [WriteMarker (own_pid env) (now_write env)]).

(** [acquireLock()]: the result is [Ok tt] when the [release] function is
    returned. *)
Definition acquireLock (env : lock_env) (fs : lock_fs) : result unit * lock_fs :=
  match marker_file fs with
  | Some m =>
      match check_marker env m with
      | Throw err =>
          if includes (err_message err) (js "Another ingestion")
          then (Throw err, fs)
          else (Ok tt, write_marker env (unlinkSync fs))
      | Ok _ => (Ok tt, write_marker env (unlinkSync fs))
      end
  | None => (Ok tt, write_marker env fs)
  end.

(** [release()]: [try { unlinkSync(lp); } catch { }] *)
Definition release (fs : lock_fs) : lock_fs := unlinkSync fs.

(** A marker whose holder is alive and whose age is below the threshold. *)
Definition held_fresh (env : lock_env) (m : marker) : Prop :=
  exists ts pid, m = Parsed (Some ts) (Some pid) /\
    (now_check env - ts < STALE_MS)%Z /\ signalable env pid = true.

(** A marker that is stale, whose holder is dead, or that does not parse. *)
Definition abandoned (env : lock_env) (m : marker) : Prop :=
  match m with
  | Unparsable _ | ParsedNull => True
  | Parsed ts pid =>
      (match ts with Some t => (STALE_MS <= now_check env - t)%Z | None => True end)
      \/ isPidAlive env pid = false
  end.

(** ** The embedding gateway, [src/embed.js] *)

Definition MAX_INPUT : Z := 8000.
Definition BATCH_SIZE : nat := 10.

(** [err.message] of the errors thrown by the property reads of the
    gateway on [undefined]. *)
Definition undefined_read (property : string) : js_error :=
  mkError TypeError
    (js "Cannot read properties of undefined (reading '" ++ js property ++ js "')").

Inductive provider_id : Type := Gemini | OpenAI.

Record request : Type := mkRequest { req_provider : provider_id; req_texts : list jsstring }.

(** The cut of a list into the slices [l.slice(b, b + size)] for
    [b = 0, size, 2 * size, ...] while [b < l.length]. *)
Fixpoint slices_fuel {A} (fuel size : nat) (l : list A) : list (list A) :=
  match fuel with
  | 0 => []
  | S fuel' =>
      match l with
      | [] => []
      | _ => take size l :: slices_fuel fuel' size (drop size l)
      end
  end.

Definition slices {A} (size : nat) (l : list A) : list (list A) :=
  slices_fuel (length l) size l.

(** [Array.prototype.sort] is stable.  [after a b] says that the comparator
    is positive on [(a, b)]: [a] has to come after [b].  For a comparator
    that orders the elements consistently every stable sort gives the result
    of this insertion sort. *)
Fixpoint sort_insert {A} (after : A -> A -> bool) (x : A) (l : list A) : list A :=
  match l with
  | [] => [x]
  | y :: l' => if after x y then y :: sort_insert after x l' else x :: l
  end.

Definition js_sort {A} (after : A -> A -> bool) (l : list A) : list A :=
  foldr (sort_insert after) [] l.

(** The comparator orders the elements of [l]: of two elements at most one
    has to come after the other, and "does not have to come after" is
    transitive. *)
Definition consistent_on {A} (after : A -> A -> bool) (l : list A) : Prop :=
  (forall a b, a ∈ l -> b ∈ l -> after a b = true -> after b a = false) /\
  (forall a b c, a ∈ l -> b ∈ l -> c ∈ l ->
     after a b = false -> after b c = false -> after a c = false).

Section Embedding.

(** JavaScript numbers are left abstract: the gateway only moves them. *)
Context {number : Type}.

Definition vector : Type := list number.

(** The objects kept in the cache and in [results]: [embedding] is
    [undefined] when the provider returned fewer vectors than texts. *)
Record cache_entry : Type := mkEntry {
  ce_embedding : option vector;
  ce_dim : nat;
  ce_provider : jsstring;
  ce_model : jsstring
}.

(** *** The LRU cache: a [Map] in insertion order *)

Definition js_map : Type := list (jsstring * cache_entry).

Definition map_has (key : jsstring) (m : js_map) : bool :=
  existsb (fun kv => jsstring_eqb (fst kv) key) m.

Fixpoint map_get (key : jsstring) (m : js_map) : option cache_entry :=
  match m with
  | [] => None
  | (k, v) :: m' => if jsstring_eqb k key then Some v else map_get key m'
  end.

Definition map_delete (key : jsstring) (m : js_map) : js_map :=
  List.filter (fun kv => negb (jsstring_eqb (fst kv) key)) m.

(** [Map.prototype.set]: a present key keeps its place. *)
Fixpoint map_set (key : jsstring) (val : cache_entry) (m : js_map) : js_map :=
  match m with
  | [] => [(key, val)]
  | (k, v) :: m' =>
      if jsstring_eqb k key then (k, val) :: m' else (k, v) :: map_set key val m'
  end.

Record LRUCache : Type := mkLRU { lru_max : nat; lru_map : js_map }.

(** [LRUCache.get] *)
Definition lru_get (key : jsstring) (c : LRUCache) : option cache_entry * LRUCache :=
  if negb (map_has key (lru_map c)) then (None, c)
  else
    match map_get key (lru_map c) with
    | Some val => (Some val, mkLRU (lru_max c) (map_set key val (map_delete key (lru_map c))))
    | None => (None, c)
    end.

(** [LRUCache.set] *)
Definition lru_set (key : jsstring) (val : cache_entry) (c : LRUCache) : LRUCache :=
  let m :=
    if map_has key (lru_map c) then map_delete key (lru_map c)
    else if lru_max c <=? length (lru_map c) then
      match lru_map c with
      | [] => []
      | (first, _) :: _ => map_delete first (lru_map c)
      end
    else lru_map c in
  mkLRU (lru_max c) (map_set key val m).

(** *** The network and the state *)

(** The outcome of one [fetch] and of reading its body: a failure (the
    request throws, times out, has a non-2xx status or a body that is
    not JSON) with the message of the error thrown inside [retry], or a
    JSON body of one of the two shapes. *)
Inductive reply : Type :=
  | ReplyFailure (message : jsstring)
  | ReplyGemini (embeddings : list vector)
  | ReplyOpenAI (data : list (Z * vector)).

(** The environment of the gateway: whether the two API keys are set,
    and what the network answers to a request, given how many requests the
    process has sent before. *)
Record embed_env : Type := mkEmbedEnv {
  gemini_key_set : bool;
  openai_key_set : bool;
  network : nat -> request -> reply
}.

(** The module-level [cache] and the requests sent so far (oldest first). *)
Record embed_state : Type := mkEmbedState { cache : LRUCache; requests : list request }.

(** Computations that read and write the state and can throw.  A throw
    keeps the state reached so far. *)
Definition M (A : Type) : Type := embed_state -> result A * embed_state.

Definition ret {A} (a : A) : M A := fun st => (Ok a, st).

Definition throw {A} (e : js_error) : M A := fun st => (Throw e, st).

Definition bind {A B} (m : M A) (k : A -> M B) : M B :=
  fun st =>
    match m st with
    | (Ok a, st') => k a st'
    | (Throw e, st') => (Throw e, st')
    end.

(** [try { m } catch (err) { handler(err) }] *)
Definition try_catch {A} (m : M A) (handler : js_error -> M A) : M A :=
  fun st =>
    match m st with
    | (Ok a, st') => (Ok a, st')
    | (Throw e, st') => handler e st'
    end.

Definition cache_get (key : jsstring) : M (option cache_entry) :=
  fun st =>
    let '(found, c) := lru_get key (cache st) in
    (Ok found, mkEmbedState c (requests st)).

Definition cache_set (key : jsstring) (val : cache_entry) : M unit :=
  fun st => (Ok tt, mkEmbedState (lru_set key val (cache st)) (requests st)).

End Embedding.

Arguments cache_entry : clear implicits.
Arguments js_map : clear implicits.
Arguments LRUCache : clear implicits.
Arguments reply : clear implicits.
Arguments embed_env : clear implicits.
Arguments embed_state : clear implicits.
Arguments M : clear implicits.
Arguments vector : clear implicits.

(** The comparator of [embedOpenAI], [(a, b) => a.index - b.index]: it is
    positive when [a.index - b.index > 0]. *)
Definition index_after {number : Type} (a b : Z * vector number) : bool :=
  (0 <? fst a - fst b)%Z.

Declare Scope js_scope.
Delimit Scope js_scope with js.
Notation "'do' x <- m ; k" := (bind m (fun x => k))
  (at level 10, x name, m at level 100, k at level 200) : js_scope.
Notation "'do' ' p <- m ; k" := (bind m (fun x => let 'p := x in k))
  (at level 10, p pattern, m at level 100, k at level 200) : js_scope.
Notation "m ;; k" := (bind m (fun _ => k))
  (at level 100, k at level 200, right associativity) : js_scope.

Local Open Scope js_scope.

(** [results]: an array of [texts.length] slots, [None] for a hole. *)
Abbreviation results_array number := (list (option (cache_entry number))).

Section Gateway.

Context {number : Type}.
Variable env : embed_env number.

(** The [embeddings], [dim], [provider] and [model] returned by
    [embedGemini] and [embedOpenAI]. *)
Record provider_result : Type := mkProviderResult {
  pr_embeddings : list (vector number);
  pr_dim : nat;
  pr_provider : jsstring;
  pr_model : jsstring
}.

(** The function passed to [retry]: one [fetch] and the reading of its
    body. *)
Definition fetch_json (req : request) : M number (reply number) :=
  fun st =>
    let st' := mkEmbedState (cache st) (requests st ++ [req]) in
    match network env (length (requests st)) req with
    | ReplyFailure message => (Throw (mkError PlainError message), st')
    | body => (Ok body, st')
    end.

(** [retry(fn)] from its iteration [i = attempts - remaining]; the delays
    between the attempts only pass time.  [None] is the [undefined]
    returned when the loop ends. *)
Fixpoint retry_loop {A} (fn : M number A) (remaining : nat) : M number (option A) :=
  match remaining with
  | 0 => ret None
  | S remaining' =>
      try_catch (do a <- fn; ret (Some a))
                (fun err => if remaining' =? 0 then throw err else retry_loop fn remaining')
  end.

Definition retry {A} (fn : M number A) : M number (option A) := retry_loop fn 3.

Definition truncate_input (t : jsstring) : jsstring := slice 0 MAX_INPUT t.

Definition embedGemini (texts : list jsstring) : M number provider_result :=
  if negb (gemini_key_set env) then throw (mkError PlainError (js "GEMINI_API_KEY not set"))
  else
    do res <- retry (fetch_json (mkRequest Gemini (map truncate_input texts)));
    match res with
    | Some (ReplyGemini embeddings) =>
        match embeddings with
        | [] => throw (undefined_read "values")
        | first :: _ =>
            ret (mkProviderResult embeddings (length first)
                   (js "google") (js "text-embedding-004"))
        end
    | Some (ReplyOpenAI _) => throw (undefined_read "map")
    | _ => throw (undefined_read "embeddings")
    end.

Definition embedOpenAI (texts : list jsstring) : M number provider_result :=
  if negb (openai_key_set env) then throw (mkError PlainError (js "OPENAI_API_KEY not set"))
  else
    do res <- retry (fetch_json (mkRequest OpenAI (map truncate_input texts)));
    match res with
    | Some (ReplyOpenAI data) =>
        let sorted := js_sort index_after data in
        match sorted with
        | [] => throw (undefined_read "embedding")
        | first :: _ =>
            ret (mkProviderResult (map snd sorted) (length (snd first))
                   (js "openai") (js "text-embedding-3-small"))
        end
    | Some (ReplyGemini _) => throw (undefined_read "sort")
    | _ => throw (undefined_read "data")
    end.

Definition both_failed (geminiErr openaiErr : js_error) : js_error :=
  mkError PlainError
    (js "Embedding failed." ++ [10%N] ++ js "  Gemini: " ++ err_message geminiErr
     ++ [10%N] ++ js "  OpenAI: " ++ err_message openaiErr).

(** The [try]/[catch] of one batch. *)
Definition embedBatch (batch : list jsstring) : M number provider_result :=
  try_catch (embedGemini batch)
    (fun geminiErr =>
       try_catch (embedOpenAI batch)
         (fun openaiErr => throw (both_failed geminiErr openaiErr))).

(** The first loop of [embedTexts], from index [i] on. *)
Fixpoint scan_cache (texts : list jsstring) (i : nat)
    (acc : results_array number * list jsstring * list nat)
  : M number (results_array number * list jsstring * list nat) :=
  match texts with
  | [] => ret acc
  | t :: texts' =>
      let '(results, uncached, uncachedIdx) := acc in
      do cached <- cache_get t;
      match cached with
      | Some entry => scan_cache texts' (S i) (<[i := Some entry]> results, uncached, uncachedIdx)
      | None => scan_cache texts' (S i) (results, uncached ++ [t], uncachedIdx ++ [i])
      end
  end.

(** The loop over [j] that stores the entries of one batch, from [j] on. *)
Fixpoint store_batch (r : provider_result) (j : nat) (batch : list jsstring)
    (batchIdxs : list nat) (results : results_array number) : M number (results_array number) :=
  match batch, batchIdxs with
  | t :: batch', idx :: batchIdxs' =>
      let entry := mkEntry (pr_embeddings r !! j) (pr_dim r) (pr_provider r) (pr_model r) in
      cache_set t entry ;;
      store_batch r (S j) batch' batchIdxs' (<[idx := Some entry]> results)
  | _, _ => ret results
  end.

(** [dim], [provider] and [model] of the batch loop: [None] while they
    are [undefined]. *)
Definition batch_meta : Type := option (nat * jsstring * jsstring).

(** The loop over the batches; the delay between two batches only passes
    time. *)
Fixpoint embed_batches (batches : list (list jsstring * list nat))
    (results : results_array number) (meta : batch_meta)
  : M number (results_array number * batch_meta) :=
  match batches with
  | [] => ret (results, meta)
  | (batch, batchIdxs) :: batches' =>
      do result <- embedBatch batch;
      do results' <- store_batch result 0 batch batchIdxs results;
      embed_batches batches' results'
        (Some (pr_dim result, pr_provider result, pr_model result))
  end.

(** The object returned by [embedTexts]; [None] is [undefined]. *)
Record embed_result : Type := mkEmbedResult {
  er_embeddings : list (option (vector number));
  er_dim : option nat;
  er_provider : option jsstring;
  er_model : option jsstring
}.

(** [results.map(r => r.embedding)] *)
Definition embeddings_of (results : results_array number) : list (option (vector number)) :=
  map (fun r => match r with Some entry => ce_embedding entry | None => None end) results.

Definition embedTexts (texts : list jsstring) : M number embed_result :=
  do '(results, uncached, uncachedIdx) <-
    scan_cache texts 0 (replicate (length texts) None, [], []);
  if length uncached =? 0 then
    match results !! 0 with
    | Some (Some first) =>
        ret (mkEmbedResult (embeddings_of results) (Some (ce_dim first))
               (Some (ce_provider first)) (Some (ce_model first)))
    | _ => throw (undefined_read "dim")
    end
  else
    do '(results', meta) <-
      embed_batches (zip (slices BATCH_SIZE uncached) (slices BATCH_SIZE uncachedIdx))
                    results None;
    ret (mkEmbedResult (embeddings_of results')
           (option_map (fun m => fst (fst m)) meta)
           (option_map (fun m => snd (fst m)) meta)
           (option_map snd meta)).

(** The object returned by [embedQuery]. *)
Record query_embedding : Type := mkQueryEmbedding {
  qe_embedding : option (vector number);
  qe_dim : option nat;
  qe_provider : option jsstring;
  qe_model : option jsstring
}.

Definition embedQuery (text : jsstring) : M number query_embedding :=
  do result <- embedTexts [text];
  ret (mkQueryEmbedding
         (match er_embeddings result with e :: _ => e | [] => None end)
         (er_dim result) (er_provider result) (er_model result)).

End Gateway.

Arguments provider_result : clear implicits.
Arguments embed_result : clear implicits.
Arguments query_embedding : clear implicits.

(** *** The runs of the batch loop (second definition, after the
    description of the fallback)

    A batch is first given to the primary provider.  When the primary
    fails, the secondary is called with the same batch, in the state the
    primary has left.  When both fail the run ends there, with the error made
    of the two messages; otherwise the entries of the batch are stored and the
    run goes on with the next batch. *)
Inductive batch_run {number : Type} (env : embed_env number)
  : list (list jsstring * list nat) -> results_array number -> batch_meta ->
    embed_state number ->
    result (results_array number * batch_meta) * embed_state number -> Prop :=
  | run_done results meta st :
      batch_run env [] results meta st (Ok (results, meta), st)
  | run_primary batch batchIdxs rest results meta st r st1 results' st2 out :
      embedGemini env batch st = (Ok r, st1) ->
      store_batch r 0 batch batchIdxs results st1 = (Ok results', st2) ->
      batch_run env rest results' (Some (pr_dim r, pr_provider r, pr_model r)) st2 out ->
      batch_run env ((batch, batchIdxs) :: rest) results meta st out
  | run_secondary batch batchIdxs rest results meta st geminiErr st1 r st2 results' st3 out :
      embedGemini env batch st = (Throw geminiErr, st1) ->
      embedOpenAI env batch st1 = (Ok r, st2) ->
      store_batch r 0 batch batchIdxs results st2 = (Ok results', st3) ->
      batch_run env rest results' (Some (pr_dim r, pr_provider r, pr_model r)) st3 out ->
      batch_run env ((batch, batchIdxs) :: rest) results meta st out
  | run_both_failed batch batchIdxs rest results meta st geminiErr st1 openaiErr st2 :
      embedGemini env batch st = (Throw geminiErr, st1) ->
      embedOpenAI env batch st1 = (Throw openaiErr, st2) ->
      batch_run env ((batch, batchIdxs) :: rest) results meta st
        (Throw (both_failed geminiErr openaiErr), st2).

(** The texts of [texts] that miss the cache of [st], in order. *)
Definition uncached_of {number : Type} (st : embed_state number) (texts : list jsstring)
  : list jsstring :=
  List.filter (fun t => negb (map_has t (lru_map (cache st)))) texts.

(** The requests sent since [before]. *)
Definition new_requests {number : Type} (before after : embed_state number) : list request :=
  drop (length (requests before)) (requests after).

(** The positions, counted from [i], of the texts that miss the cache. *)
Fixpoint missing_positions {number : Type} (st : embed_state number) (i : nat)
    (texts : list jsstring) : list nat :=
  match texts with
  | [] => []
  | t :: texts' =>
      if map_has t (lru_map (cache st)) then missing_positions st (S i) texts'
      else i :: missing_positions st (S i) texts'
  end.

(** Two states whose caches hold the same entry for every key. *)
Definition same_entries {number : Type} (st1 st2 : embed_state number) : Prop :=
  forall k, map_get k (lru_map (cache st1)) = map_get k (lru_map (cache st2)).

(** No key is held twice by the cache, and the keys in [touched] are among
    the keys of its last entries, the most recently used ones, which are all
    keys of [universe]. *)
Definition recently_used {number : Type} (universe touched : list jsstring)
    (c : LRUCache number) : Prop :=
  NoDup (lru_map c).*1 /\
  exists old rec, lru_map c = old ++ rec /\ rec.*1 ⊆ universe /\ touched ⊆ rec.*1.

(** The [return] at the end of [embedTexts], on the outcome of the batch
    loop. *)
Definition finish_call {number : Type}
    (out : result (results_array number * batch_meta) * embed_state number)
  : result (embed_result number) * embed_state number :=
  match out with
  | (Ok (results', meta), st') =>
      (Ok (mkEmbedResult (embeddings_of results')
             (option_map (fun m => fst (fst m)) meta)
             (option_map (fun m => snd (fst m)) meta)
             (option_map snd meta)), st')
  | (Throw e, st') => (Throw e, st')
  end.

(** Eleven texts, two batches. *)
Definition eleven_texts : list jsstring :=
  map (fun n => js "text " ++ [N.of_nat (65 + n)]) (seq 0 11).

(** The state of a fresh process: [new LRUCache(1000)], no request sent. *)
Definition initial_embed_state {number : Type} : embed_state number :=
  mkEmbedState (mkLRU 1000 []) [].

(** *** Concrete environments, with integers for numbers *)

(** Both keys are set and every request fails. *)
Definition env_all_fail : embed_env Z :=
  mkEmbedEnv true true (fun _ _ => ReplyFailure (js "fetch failed")).

(** The first request is answered by the primary provider with one vector
    of two numbers; the next three requests fail; the fifth request is
    answered by the secondary provider with one vector of three numbers. *)
Definition env_primary_then_secondary : embed_env Z :=
  mkEmbedEnv true true
    (fun n _ =>
       match n with
       | 0 => ReplyGemini [[1; 2]%Z]
       | 4 => ReplyOpenAI [(0%Z, [3; 4; 5]%Z)]
       | _ => ReplyFailure (js "Gemini API 429: ")
       end).

(** Requests that carry the texts of [batch], cut to [MAX_INPUT]. *)
Definition sent_for (batch : list jsstring) (reqs : list request) : Prop :=
  Forall (fun req => req_texts req = map truncate_input batch) reqs.

(** The providers keep to their interface: a body of the primary provider
    holds, in the order of the request, the vector [vecG t] of each text
    [t] sent; a body of the secondary provider holds, in any order, the
    vector [vecO t] of each text sent together with the position of the text
    in the request. *)
Definition providers_aligned {number : Type} (env : embed_env number)
    (vecG vecO : jsstring -> vector number) : Prop :=
  forall n req,
    match network env n req with
    | ReplyFailure _ => True
    | ReplyGemini embeddings => embeddings = map vecG (req_texts req)
    | ReplyOpenAI data =>
        data ≡ₚ imap (fun j t => (Z.of_nat j, vecO t)) (req_texts req)
    end.


(** The order of the [index] fields. *)
Definition key_lt {number : Type} : relation (Z * vector number) :=
  fun a b => (fst a < fst b)%Z.

(** The texts of the batches, each with the position it is stored at. *)
Definition paired (batches : list (list jsstring * list nat)) : list (jsstring * nat) :=
  concat (map (fun b => zip (fst b) (snd b)) batches).

(** The slot of [results] for the text [t] holds an entry with the vector
    one of the providers has for [t]. *)
Definition served {number : Type} (vecG vecO : jsstring -> vector number)
    (t : jsstring) (slot : option (option (cache_entry number))) : Prop :=
  exists e, slot = Some (Some e) /\
    (ce_embedding e = Some (vecG (truncate_input t)) \/
     ce_embedding e = Some (vecO (truncate_input t))).

(** The primary provider answers every request with one vector per text: the
    length of the text. *)
Definition length_vector (t : jsstring) : vector Z := [Z.of_nat (length t)].

Definition env_echo : embed_env Z :=
  mkEmbedEnv true true (fun _ req => ReplyGemini (map length_vector (req_texts req))).

(** The primary provider answers the first request, for the first batch,
    with ten vectors of two numbers and fails afterwards; the fifth request is
    answered by the secondary provider with one vector of three numbers. *)
Definition env_second_batch_falls_back : embed_env Z :=
  mkEmbedEnv true true
    (fun n _ =>
       match n with
       | 0 => ReplyGemini (replicate 10 [1; 2]%Z)
       | 4 => ReplyOpenAI [(0%Z, [3; 4; 5]%Z)]
       | _ => ReplyFailure (js "Gemini API 429: ")
       end).

(** "All vectors of the result have the length [dim] of the result." *)
Definition uniform_dim {number : Type} (r : embed_result number) : Prop :=
  forall v, Some v ∈ er_embeddings r -> er_dim r = Some (length v).

(** ** The URL normaliser, [src/normalize.js] *)

Definition TRACKING_PARAMS : list jsstring :=
  map js ["utm_source"; "utm_medium"; "utm_campaign"; "utm_term"; "utm_content";
          "fbclid"; "igshid"; "ref"; "s"; "t"]%string.

(** [TRACKING_PARAMS.has(key)] *)
Definition is_tracking (key : jsstring) : bool :=
  existsb (jsstring_eqb key) TRACKING_PARAMS.

(** The fields of a [URL] object with the scheme [http] or [https], as their
    getters return them; [None] is a [null] query or fragment, an absent
    port. *)
Record url_record : Type := mkUrl {
  u_scheme : jsstring;
  u_username : jsstring;
  u_password : jsstring;
  u_host : jsstring;
  u_port : option jsstring;
  u_pathname : jsstring;
  u_query : option jsstring;
  u_fragment : option jsstring
}.

(** The parts of the platform's [URL] and [URLSearchParams] that
    [normalizeUrl] relies on.  [url_parse raw] is [new URL(raw)], [None]
    when it throws.  [host_parse v] is the host that the assignment
    [u.hostname = v] sets, [None] when the assignment is ignored.
    [query_parse] gives the name-value pairs of [u.searchParams] for a
    query, and [query_serialize] is the serialisation of pairs that an update
    of [u.searchParams] writes back. *)
Record url_api : Type := mkUrlApi {
  url_parse : jsstring -> option url_record;
  host_parse : jsstring -> option jsstring;
  query_parse : option jsstring -> list (jsstring * jsstring);
  query_serialize : list (jsstring * jsstring) -> jsstring
}.

(** [u.toString()]: the URL serialiser. *)
Definition url_serialize (u : url_record) : jsstring :=
  u_scheme u ++ js "://"
  ++ (if is_empty (u_username u) && is_empty (u_password u) then []
      else u_username u
           ++ (if is_empty (u_password u) then [] else js ":" ++ u_password u)
           ++ js "@")
  ++ u_host u
  ++ match u_port u with Some p => js ":" ++ p | None => [] end
  ++ u_pathname u
  ++ match u_query u with Some q => js "?" ++ q | None => [] end
  ++ match u_fragment u with Some f => js "#" ++ f | None => [] end.

(** [h.replace(/^www\./, '')] *)
Definition strip_www (h : jsstring) : jsstring :=
  if starts_with (js "www.") h then drop 4 h else h.

(** [u.hostname = v] *)
Definition set_hostname (api : url_api) (u : url_record) (v : jsstring) : url_record :=
  match host_parse api v with
  | Some h =>
      mkUrl (u_scheme u) (u_username u) (u_password u) h (u_port u)
            (u_pathname u) (u_query u) (u_fragment u)
  | None => u
  end.

(** The order of code units, for [searchParams.sort()]. *)
Fixpoint jsstring_ltb (a b : jsstring) : bool :=
  match a, b with
  | _, [] => false
  | [], _ :: _ => true
  | x :: a', y :: b' => (x <? y)%N || ((x =? y)%N && jsstring_ltb a' b')
  end.

(** The name of [a] has to come after the name of [b]. *)
Definition param_after (a b : jsstring * jsstring) : bool :=
  jsstring_ltb (fst b) (fst a).

(** The update of the URL's query after a change of [u.searchParams]: an
    empty serialisation gives a [null] query. *)
Definition query_of (serialized : jsstring) : option jsstring :=
  if is_empty serialized then None else Some serialized.

(** The statements of the [try] block after [new URL(raw)], up to
    [u.hash = '']. *)
Definition normalize_record (api : url_api) (u : url_record) : url_record :=
  let u1 := set_hostname api u (strip_www (u_host u)) in
  let u2 :=
    if jsstring_eqb (u_host u1) (js "twitter.com")
    then set_hostname api u1 (js "x.com") else u1 in
  let kept :=
    List.filter (fun kv => negb (is_tracking (fst kv))) (query_parse api (u_query u2)) in
  let sorted := js_sort param_after kept in
  mkUrl (u_scheme u2) (u_username u2) (u_password u2) (u_host u2) (u_port u2)
        (u_pathname u2) (query_of (query_serialize api sorted)) None.

(** [out], after the cut of a trailing slash. *)
Definition output_of (u : url_record) : jsstring :=
  let out := url_serialize u in
  if ends_with (js "/") out && negb (jsstring_eqb (u_pathname u) (js "/"))
  then slice 0 (-1) out else out.

Definition normalizeUrl (api : url_api) (raw : jsstring) : jsstring :=
  if is_empty raw || negb (test_from_start HTTP_RE raw) then raw
  else
    match url_parse api raw with
    | Some u => output_of (normalize_record api u)
    | None => raw
    end.

(** *** Normal forms (second definition, to state when a second pass
    changes nothing)

    A URL record on which the statements of [normalizeUrl] change nothing. *)
Definition canonical (api : url_api) (v : url_record) : Prop :=
  strip_www (u_host v) = u_host v /\
  host_parse api (u_host v) = Some (u_host v) /\
  u_host v <> js "twitter.com" /\
  (let l := query_parse api (u_query v) in
   List.filter (fun kv => negb (is_tracking (fst kv))) l = l /\
   js_sort param_after l = l /\
   query_of (query_serialize api l) = u_query v) /\
  u_fragment v = None.

(** A string that is empty, not an HTTP(S) URL or not parsable, or that is
    the serialisation of the canonical record it parses to and has no
    trailing slash to cut. *)
Definition normal_form (api : url_api) (s : jsstring) : Prop :=
  is_empty s = true \/ test_from_start HTTP_RE s = false \/ url_parse api s = None \/
  exists v, url_parse api s = Some v /\ canonical api v /\ url_serialize v = s /\
            (ends_with (js "/") s = false \/ u_pathname v = js "/").

(** *** A model of the platform on plain URLs

    The scheme [http] or [https] in any letter case, [://], a host made of
    labels of ASCII letters and digits separated by single dots whose last
    label has letters only, and a path of ASCII letters, digits and [/ - _];
    no credentials, port, query or fragment.  On such a string [new URL]
    lowers the case of scheme and host, keeps the path and gives the path
    [/] when there is none.  The model says nothing of other strings:
    it returns [None] for them. *)

Definition is_letter (c : jschar) : bool :=
  ((97 <=? ascii_lower c) && (ascii_lower c <=? 122))%N.

Definition is_path_char (c : jschar) : bool :=
  (is_letter c || is_digit c || (c =? 47) || (c =? 45) || (c =? 95))%N.

(** The labels of a host, cut at the dots. *)
Fixpoint host_labels (h : jsstring) : list jsstring :=
  match h with
  | [] => [[]]
  | c :: h' =>
      if (c =? 46)%N then [] :: host_labels h'
      else cons_head c (host_labels h')
  end.

Definition plain_host (h : jsstring) : bool :=
  let labels := host_labels h in
  forallb (fun l => negb (is_empty l) && forallb (fun c => is_letter c || is_digit c) l) labels
  && forallb is_letter (List.last labels []).

Definition plain_host_parse (v : jsstring) : option jsstring :=
  if plain_host v then Some (map ascii_lower v) else None.

Fixpoint span_host (s : jsstring) : jsstring * jsstring :=
  match s with
  | [] => ([], [])
  | c :: s' =>
      if (c =? 47)%N then ([], s)
      else let '(h, p) := span_host s' in (c :: h, p)
  end.

Definition plain_url_parse (raw : jsstring) : option url_record :=
  let lower := map ascii_lower raw in
  let after_scheme (scheme : string) (n : nat) :=
    let '(h, p) := span_host (drop n raw) in
    if plain_host h && forallb is_path_char p
    then Some (mkUrl (js scheme) [] [] (map ascii_lower h) None
                 (if is_empty p then js "/" else p) None None)
    else None in
  if starts_with (js "https://") lower then after_scheme "https"%string 8
  else if starts_with (js "http://") lower then after_scheme "http"%string 7
  else None.

Definition plain_url_api : url_api :=
  mkUrlApi plain_url_parse plain_host_parse (fun _ => []) (fun _ => []).

(** ** The durable store, [src/db.js]

    The two tables the core reads and writes, in row order. *)

Record source_row : Type := mkSource {
  src_id : jsstring;
  src_url : jsstring;
  src_title : jsstring;
  src_type : source_type;
  src_raw_content : jsstring;
  src_content_hash : option jsstring;
  src_metadata : jsstring
}.

Record chunk_row (number : Type) : Type := mkChunk {
  chk_id : jsstring;
  chk_source_id : jsstring;
  chk_index : nat;
  chk_content : jsstring;
  chk_embedding : vector number;
  chk_dim : option nat;
  chk_provider : option jsstring;
  chk_model : option jsstring
}.

Arguments mkChunk {number} _ _ _ _ _ _ _ _.
Arguments chk_id {number} _.
Arguments chk_source_id {number} _.
Arguments chk_index {number} _.
Arguments chk_content {number} _.
Arguments chk_embedding {number} _.
Arguments chk_dim {number} _.
Arguments chk_provider {number} _.
Arguments chk_model {number} _.

Record database (number : Type) : Type := mkDb {
  sources : list source_row;
  chunks : list (chunk_row number)
}.

Arguments mkDb {number} _ _.
Arguments sources {number} _.
Arguments chunks {number} _.

(** ** The retrieval scorer, [src/retrieve.js] *)

(** The operations on JavaScript numbers that the scorer uses.
    [n_positive x] is [x > 0] and [n_is_zero x] is [x === 0]; [n_nan] is
    what arithmetic on [undefined] gives; [n_fround] is the rounding of a
    [Float32Array]. *)
Class JsNumber (number : Type) : Type := mkJsNumber {
  n_zero : number;
  n_nan : number;
  n_add : number -> number -> number;
  n_sub : number -> number -> number;
  n_mul : number -> number -> number;
  n_div : number -> number -> number;
  n_sqrt : number -> number;
  n_is_zero : number -> bool;
  n_positive : number -> bool;
  n_fround : number -> number
}.

(** The suffix of a cut excerpt, as the source file has it. *)
Definition EXCERPT_SUFFIX : jsstring := [226; 8364; 166]%N.

Definition EXCERPT_MAX : nat := 2500.

Section Retrieval.

Context {number : Type} `{JsNumber number}.

(** The loop of [cosineSimilarity] over [a], with [b[i]] read along;
    a missing [b[i]] is [undefined]. *)
Fixpoint cosine_sums (a b : vector number) (dot magA magB : number)
  : number * number * number :=
  match a with
  | [] => (dot, magA, magB)
  | x :: a' =>
      let y := match b with y :: _ => y | [] => n_nan end in
      cosine_sums a' (tail b)
        (n_add dot (n_mul x y)) (n_add magA (n_mul x x)) (n_add magB (n_mul y y))
  end.

Definition cosineSimilarity (a b : vector number) : number :=
  let '(dot, magA, magB) := cosine_sums a b n_zero n_zero n_zero in
  let denom := n_mul (n_sqrt magA) (n_sqrt magB) in
  if n_is_zero denom then n_zero else n_div dot denom.

(** A row of the join of [chunks] and [sources], with its score. *)
Record scored_row : Type := mkScored {
  sc_chunk : chunk_row number;
  sc_source : source_row;
  sc_score : number
}.

(** The [SELECT ... FROM chunks c JOIN sources s ON c.source_id = s.id
    WHERE c.embedding_dim = ?]. *)
Definition select_rows (db : database number) (qDim : nat)
  : list (chunk_row number * source_row) :=
  flat_map
    (fun c =>
       if bool_decide (chk_dim c = Some qDim) then
         match List.find (fun s => jsstring_eqb (src_id s) (chk_source_id c)) (sources db) with
         | Some s => [(c, s)]
         | None => []
         end
       else [])
    (chunks db).

(** The comparator [(a, b) => b.score - a.score] is positive. *)
Definition score_after (a b : scored_row) : bool :=
  n_positive (n_sub (sc_score b) (sc_score a)).

Record query_result : Type := mkQueryResult {
  res_source_id : jsstring;
  res_chunk_id : jsstring;
  res_chunk_index : nat;
  res_score : number;
  res_excerpt : jsstring;
  res_url : jsstring;
  res_title : jsstring;
  res_source_type : source_type;
  res_metadata : jsstring
}.

(** The object pushed for [item]; [JSON.parse] of the stored metadata is
    left as the JSON text. *)
Definition result_of (item : scored_row) : query_result :=
  let content := chk_content (sc_chunk item) in
  let excerpt :=
    if EXCERPT_MAX <? length content
    then slice 0 (Z.of_nat EXCERPT_MAX) content ++ EXCERPT_SUFFIX
    else content in
  mkQueryResult (chk_source_id (sc_chunk item)) (chk_id (sc_chunk item))
    (chk_index (sc_chunk item)) (sc_score item) excerpt
    (src_url (sc_source item)) (src_title (sc_source item))
    (src_type (sc_source item))
    (if is_empty (src_metadata (sc_source item)) then js "{}"
     else src_metadata (sc_source item)).

(** The loop of the per-source dedup, with its [break]. *)
Fixpoint dedup_loop (items : list scored_row) (seen : gset jsstring)
    (results : list query_result) (topK : Z) : list query_result :=
  match items with
  | [] => results
  | item :: items' =>
      let id := chk_source_id (sc_chunk item) in
      if bool_decide (id ∈ seen) then dedup_loop items' seen results topK
      else
        let results' := results ++ [result_of item] in
        if (topK <=? Z.of_nat (length results'))%Z then results'
        else dedup_loop items' ({[id]} ∪ seen) results' topK
  end.

(** The part of [query] after the embedding of the question. *)
Definition rank (qEmb : vector number) (rows : list (chunk_row number * source_row))
    (topK : Z) : list query_result :=
  let scored :=
    map (fun row => mkScored (fst row) (snd row)
                      (cosineSimilarity qEmb (chk_embedding (fst row)))) rows in
  dedup_loop (js_sort score_after scored) ∅ [] topK.

Variable env : embed_env number.

(** [query(question, topK)]; the default of [topK] is [DEFAULT_TOP_K].  A
    [dim] that is [undefined] selects no row. *)
Definition query (db : database number) (question : jsstring) (topK : Z)
  : M number (list query_result) :=
  do q <- embedQuery env question;
  let rows := match qe_dim q with Some d => select_rows db d | None => [] end in
  if length rows =? 0 then ret []
  else
    match qe_embedding q with
    | Some qEmb => ret (rank qEmb rows topK)
    | None => throw (undefined_read "length")
    end.

End Retrieval.

Arguments scored_row number : clear implicits.
Arguments query_result number : clear implicits.

Definition DEFAULT_TOP_K : Z := 10.

(** Integers as numbers, for concrete runs. *)
#[export] Instance Z_number : JsNumber Z :=
  mkJsNumber Z 0%Z 0%Z Z.add Z.sub Z.mul Z.div Z.sqrt (Z.eqb 0) (Z.ltb 0) (fun x => x).

(** "The second result does not score higher than the first." *)
Definition not_better `{JsNumber number} (first second : query_result number) : Prop :=
  n_positive (n_sub (res_score second) (res_score first)) = false.

(** A store with one source and one chunk of it, embedded by [env_echo]. *)
Definition one_chunk_db : database Z :=
  mkDb [mkSource (js "s1") (js "https://example.com/a") (js "A") st_article
          (js "some content") None (js "{}")]
       [mkChunk (js "c1") (js "s1") 0 (js "some content") [12%Z] (Some 1)
          (Some (js "google")) (Some (js "text-embedding-004"))].

(** ** The ingestion orchestrator, [ingest.js] *)

Definition MAX_CONTENT : nat := 200000.

(** [truncateContent] of [src/validate.js] *)
Definition truncateContent (content : jsstring) : jsstring :=
  if MAX_CONTENT <? length content then slice 0 (Z.of_nat MAX_CONTENT) content else content.

(** What [extractContent] returns; [ex_metadata] is the metadata object as
    [JSON.stringify] writes it. *)
Record extraction : Type := mkExtraction {
  ex_title : jsstring;
  ex_content : jsstring;
  ex_metadata : jsstring
}.

Inductive ingest_status : Type :=
  | duplicate_url | invalid | duplicate_content | ok | pending_transcript.

Record ingest_outcome : Type := mkOutcome {
  io_status : ingest_status;
  io_message : jsstring;
  io_sourceId : option jsstring;
  io_chunks : nat;
  io_provider : option jsstring
}.

Section Ingestion.

Context {number : Type} `{JsNumber number}.

(** The collaborators of the orchestrator.  The extraction, the validator
    ([validateContent] gives [None] for valid content and the reason
    otherwise), SHA-256 and the generator of UUIDs (by the number of UUIDs
    drawn before) are parameters: what is proved of the orchestrator holds
    whatever they return. *)
Record ingest_env : Type := mkIngestEnv {
  ie_embed : embed_env number;
  ie_lock : lock_env;
  ie_url : url_api;
  ie_extractContent : jsstring -> source_type -> result extraction;
  ie_validateContent : jsstring -> source_type -> jsstring -> option jsstring;
  ie_sha256 : jsstring -> jsstring;
  ie_randomUUID : nat -> jsstring
}.

Record world : Type := mkWorld {
  w_db : database number;
  w_embed : embed_state number;
  w_lock : lock_fs;
  w_uuids : nat
}.

(** [serializeEmbedding] followed by [deserializeEmbedding]: the numbers
    of a [Float32Array]; [new Float32Array(undefined)] is empty. *)
Definition stored_embedding (arr : option (vector number)) : vector number :=
  match arr with
  | Some v => map n_fround v
  | None => []
  end.

Definition constraint_error : js_error :=
  mkError PlainError (js "UNIQUE constraint failed").

(** The rows of the [for] loop of the transaction, from index [i]. *)
Fixpoint chunk_rows (env : ingest_env) (uuids : nat) (sourceId : jsstring) (i : nat)
    (chunks : list jsstring) (r : embed_result number) : list (chunk_row number) :=
  match chunks with
  | [] => []
  | c :: chunks' =>
      mkChunk (ie_randomUUID env uuids) sourceId i c
        (stored_embedding (match er_embeddings r !! i with Some e => e | None => None end))
        (er_dim r) (er_provider r) (er_model r)
      :: chunk_rows env (S uuids) sourceId (S i) chunks' r
  end.

(** [tx()]: the rows are inserted together, or, when a key or the unique
    content hash is already taken, not at all. *)
Definition run_transaction (db : database number) (s : source_row)
    (cs : list (chunk_row number)) : option (database number) :=
  let source_ids := map src_id (sources db) in
  let chunk_ids := map chk_id (chunks db) in
  let hash_taken :=
    match src_content_hash s with
    | Some h =>
        existsb (fun s' => match src_content_hash s' with
                           | Some h' => jsstring_eqb h h'
                           | None => false
                           end) (sources db)
    | None => false
    end in
  if existsb (jsstring_eqb (src_id s)) source_ids || hash_taken
     || existsb (fun c => existsb (jsstring_eqb (chk_id c)) chunk_ids) cs
     || negb (bool_decide (NoDup (map chk_id cs)))
  then None
  else Some (mkDb (sources db ++ [s]) (chunks db ++ cs)).

(** What the steps before "Embed" pass on. *)
Record prepared : Type := mkPrepared {
  p_url : jsstring;
  p_sourceType : source_type;
  p_title : jsstring;
  p_content : jsstring;
  p_contentHash : option jsstring;
  p_metadata : jsstring;
  p_chunks : list jsstring
}.

Definition quoted (s : jsstring) : jsstring := [34%N] ++ s ++ [34%N].

(** [_ingest] up to "Chunk": a terminal outcome, a thrown error of the
    extraction, or the values for the rest. *)
Definition prepare (env : ingest_env) (rawUrl : jsstring) (db : database number)
  : result (ingest_outcome + prepared) :=
  let url := normalizeUrl (ie_url env) rawUrl in
  let sourceType := detectSourceType url in
  match List.find (fun s => jsstring_eqb (src_url s) url) (sources db) with
  | Some existing =>
      Ok (inl (mkOutcome duplicate_url
                 (js "Already ingested: " ++ quoted (src_title existing)
                  ++ js " (" ++ src_id existing ++ js ")")
                 None 0 None))
  | None =>
      match ie_extractContent env url sourceType with
      | Throw e => Throw e
      | Ok ex =>
          let content := truncateContent (ex_content ex) in
          match ie_validateContent env content sourceType (ex_metadata ex) with
          | Some reason =>
              if 0 <? length content
              then Ok (inl (mkOutcome invalid reason None 0 None))
              else Ok (inr (mkPrepared url sourceType (ex_title ex) content None
                              (ex_metadata ex) []))
          | None =>
              if 0 <? length content then
                let contentHash := ie_sha256 env content in
                match List.find (fun s => match src_content_hash s with
                                          | Some h => jsstring_eqb h contentHash
                                          | None => false
                                          end) (sources db) with
                | Some hashDup =>
                    Ok (inl (mkOutcome duplicate_content
                               (js "Same content exists: " ++ quoted (src_title hashDup)
                                ++ js " (" ++ src_url hashDup ++ js ")")
                               None 0 None))
                | None =>
                    Ok (inr (mkPrepared url sourceType (ex_title ex) content
                               (Some contentHash) (ex_metadata ex) (chunkText content)))
                end
              else Ok (inr (mkPrepared url sourceType (ex_title ex) content None
                              (ex_metadata ex) []))
          end
      end
  end.

(** "Embed (only if chunks exist)": [embeddings = [], dim = 0,
    provider = null, model = null] unless there are chunks. *)
Definition embed_step (env : ingest_env) (chunks : list jsstring)
  : M number (embed_result number) :=
  if 0 <? length chunks then embedTexts (ie_embed env) chunks
  else ret (mkEmbedResult [] (Some 0) None None).

(** "Store in a transaction" and the returned object. *)
Definition commit (env : ingest_env) (p : prepared) (r : embed_result number) (w : world)
  : result ingest_outcome * world :=
  let sourceId := ie_randomUUID env (w_uuids w) in
  let rows := chunk_rows env (S (w_uuids w)) sourceId 0 (p_chunks p) r in
  let source :=
    mkSource sourceId (p_url p) (p_title p) (p_sourceType p) (p_content p)
             (p_contentHash p) (p_metadata p) in
  let uuids' := S (w_uuids w) + length (p_chunks p) in
  match run_transaction (w_db w) source rows with
  | None => (Throw constraint_error, mkWorld (w_db w) (w_embed w) (w_lock w) uuids')
  | Some db' =>
      (Ok (mkOutcome
             (if 0 <? length (p_content p) then ok else pending_transcript)
             [] (Some sourceId) (length (p_chunks p))
             (match er_model r, er_provider r with
              | Some m, Some pr => if is_empty m then None else Some (pr ++ js "/" ++ m)
              | _, _ => None
              end)),
       mkWorld db' (w_embed w) (w_lock w) uuids')
  end.

Definition _ingest (env : ingest_env) (rawUrl : jsstring) (w : world)
  : result ingest_outcome * world :=
  match prepare env rawUrl (w_db w) with
  | Throw e => (Throw e, w)
  | Ok (inl outcome) => (Ok outcome, w)
  | Ok (inr p) =>
      match embed_step env (p_chunks p) (w_embed w) with
      | (Throw e, es) => (Throw e, mkWorld (w_db w) es (w_lock w) (w_uuids w))
      | (Ok r, es) => commit env p r (mkWorld (w_db w) es (w_lock w) (w_uuids w))
      end
  end.

(** [ingest]: the lock is taken first and released on every way out of
    [_ingest]. *)
Definition ingest (env : ingest_env) (rawUrl : jsstring) (w : world)
  : result ingest_outcome * world :=
  match acquireLock (ie_lock env) (w_lock w) with
  | (Throw e, fs) => (Throw e, mkWorld (w_db w) (w_embed w) fs (w_uuids w))
  | (Ok _, fs) =>
      let '(r, w') := _ingest env rawUrl (mkWorld (w_db w) (w_embed w) fs (w_uuids w)) in
      (r, mkWorld (w_db w') (w_embed w') (release (w_lock w')) (w_uuids w'))
  end.

End Ingestion.

Arguments ingest_env number : clear implicits.
Arguments world number : clear implicits.

(** A run in which the extraction gives one long sentence, the validator
    accepts it, and every request to a provider fails. *)
Definition env_ingest_embed_fails : ingest_env Z :=
  mkIngestEnv env_all_fail (mkLockEnv (fun _ => false) 1 0 0) plain_url_api
    (fun _ _ => Ok (mkExtraction (js "Title") (repeat_str 30 "word ") (js "{}")))
    (fun _ _ _ => None)
    (fun content => js "hash")
    (fun n => js "uuid" ++ [N.of_nat n]).

(** The same, with an extraction that finds no content. *)
Definition env_ingest_no_content : ingest_env Z :=
  mkIngestEnv env_all_fail (mkLockEnv (fun _ => false) 1 0 0) plain_url_api
    (fun _ _ => Ok (mkExtraction (js "Title") [] (js "{}")))
    (fun _ _ _ => Some (js "Content too short (< 20 chars)"))
    (fun content => js "hash")
    (fun n => js "uuid" ++ [N.of_nat n]).

Definition empty_world : world Z :=
  mkWorld (mkDb [] []) initial_embed_state (mkLockFs None []) 0.

(** ** More of the retrieval scorer *)

(** A store with two sources; the first has two chunks. *)
Definition two_source_db : database Z :=
  mkDb [mkSource (js "s1") (js "https://example.com/a") (js "A") st_article
          (js "first content") None (js "{}");
        mkSource (js "s2") (js "https://example.com/b") (js "B") st_article
          (js "second content") None (js "{}")]
       [mkChunk (js "c1") (js "s1") 0 (js "first") [3%Z] (Some 1)
          (Some (js "google")) (Some (js "text-embedding-004"));
        mkChunk (js "c2") (js "s2") 0 (js "second") [(-2)%Z] (Some 1)
          (Some (js "google")) (Some (js "text-embedding-004"));
        mkChunk (js "c3") (js "s1") 1 (js "content") [5%Z] (Some 1)
          (Some (js "google")) (Some (js "text-embedding-004"));
        mkChunk (js "c4") (js "s2") 1 (js "other dim") [1%Z; 1%Z] (Some 2)
          (Some (js "openai")) (Some (js "text-embedding-3-small"))].

(** The rows of [rows] with their scores against [qEmb]. *)
Definition scored_rows `{JsNumber number} (qEmb : vector number)
    (rows : list (chunk_row number * source_row)) : list (scored_row number) :=
  map (fun row => mkScored (fst row) (snd row)
                    (cosineSimilarity qEmb (chk_embedding (fst row)))) rows.

(** ** More of the embedding gateway *)

(** The cache holds no key twice and no more entries than [max]. *)
Definition cache_ok {number : Type} (c : LRUCache number) : Prop :=
  NoDup (lru_map c).*1 /\ length (lru_map c) <= lru_max c.

(** A cache of two entries that is full. *)
Definition full_cache : LRUCache Z :=
  mkLRU 2 [(js "old", mkEntry (Some [1%Z]) 1 (js "google") (js "text-embedding-004"));
           (js "new", mkEntry (Some [2%Z]) 1 (js "google") (js "text-embedding-004"))].

(** Neither API key is set. *)
Definition env_no_keys : embed_env Z :=
  mkEmbedEnv false false (fun _ _ => ReplyFailure (js "fetch failed")).

(** The primary provider answers every request with a single vector, however
    many texts the request carries. *)
Definition env_short_reply : embed_env Z :=
  mkEmbedEnv true true (fun _ _ => ReplyGemini [[7; 8; 9]%Z]).

(** The [provider] and [model] of one of the two providers. *)
Definition provider_pair (provider model : option jsstring) : Prop :=
  (provider = Some (js "google") /\ model = Some (js "text-embedding-004")) \/
  (provider = Some (js "openai") /\ model = Some (js "text-embedding-3-small")).

(** ** More of the lock and of the orchestrator *)

(** Two processes that see every pid alive; the second looks at the lock one
    second after the first has written it. *)
Definition env_lock_first : lock_env := mkLockEnv (fun _ => true) 7 1000 1000.
Definition env_lock_second : lock_env := mkLockEnv (fun _ => true) 8 2000 2000.

(** A run in which the extraction gives thirty words, the validator accepts
    them and the primary provider answers every request. *)
Definition env_ingest_ok : ingest_env Z :=
  mkIngestEnv env_echo (mkLockEnv (fun _ => false) 1 0 0) plain_url_api
    (fun _ _ => Ok (mkExtraction (js "Title") (repeat_str 30 "word ") (js "{}")))
    (fun _ _ _ => None)
    (fun content => js "hash")
    (fun n => js "uuid" ++ [N.of_nat n]).

(** The same, with an extraction that finds no content. *)
Definition env_ingest_empty : ingest_env Z :=
  mkIngestEnv env_echo (mkLockEnv (fun _ => false) 1 0 0) plain_url_api
    (fun _ _ => Ok (mkExtraction (js "Title") [] (js "{}")))
    (fun _ _ _ => Some (js "Content too short (< 20 chars)"))
    (fun content => js "hash")
    (fun n => js "uuid" ++ [N.of_nat n]).

(** The content hashes of the stored sources that have one. *)
Definition stored_hashes (l : list source_row) : list jsstring := omap src_content_hash l.

(** No two stored sources have the same URL or the same content hash. *)
Definition sources_distinct (l : list source_row) : Prop :=
  NoDup (map src_url l) /\ NoDup (stored_hashes l).

(** ** More of the chunker *)

(** A string that is not empty and has no white space at either end. *)
Definition trimmed (s : jsstring) : Prop := s <> [] /\ trim s = s.

(** The non-blank sentences of a text. *)
Definition sentences_of (text : jsstring) : list jsstring :=
  List.filter non_blank (split_sentences text).

(** ** More of the classifier *)

(** The beginnings of the URLs of a tweet and of a video, in lower case. *)
Definition TWEET_PREFIXES : list jsstring :=
  map js ["http://twitter.com/"; "https://twitter.com/"; "http://www.twitter.com/";
          "https://www.twitter.com/"; "http://x.com/"; "https://x.com/";
          "http://www.x.com/"; "https://www.x.com/"]%string.

Definition VIDEO_PREFIXES : list jsstring :=
  map js ["http://youtube.com/watch?"; "https://youtube.com/watch?";
          "http://www.youtube.com/watch?"; "https://www.youtube.com/watch?";
          "http://youtu.be/"; "https://youtu.be/";
          "http://www.youtu.be/"; "https://www.youtu.be/";
          "http://youtube.com/shorts/"; "https://youtube.com/shorts/";
          "http://www.youtube.com/shorts/"; "https://www.youtube.com/shorts/"]%string.

(** The part of [TWITTER_RE] before [.+]. *)
Definition TWITTER_HEAD : regex :=
  Seq (lit_i "http") (Seq (Opt (lit_i "s")) (Seq (lit_i "://")
  (Seq (Opt (lit_i "www."))
  (Seq (Alt (lit_i "twitter.com") (lit_i "x.com")) (lit_i "/"))))).

(** A regular expression whose character tests do not see the case of ASCII
    letters. *)
Fixpoint case_blind (r : regex) : Prop :=
  match r with
  | Void | Eps => True
  | Chr p => forall c, p (ascii_lower c) = p c
  | Seq a b | Alt a b => case_blind a /\ case_blind b
  | Star a => case_blind a
  end.

(** A regular expression that has no word, by its shape. *)
Fixpoint is_void (r : regex) : bool :=
  match r with
  | Void => true
  | Seq a b => is_void a || is_void b
  | Alt a b => is_void a && is_void b
  | _ => false
  end.

(** The derivative by a word. *)
Definition deriv_word (w : jsstring) (r : regex) : regex :=
  fold_left (fun r c => deriv c r) w r.

Definition HTTP_PREFIXES : list jsstring := map js ["http://"; "https://"]%string.

(** ** More of the URL normaliser *)

(** The pairs of [u.searchParams] that [normalizeUrl] does not delete. *)
Definition kept_params (api : url_api) (u : url_record) : list (jsstring * jsstring) :=
  List.filter (fun kv => negb (is_tracking (fst kv))) (query_parse api (u_query u)).

(** Two URL records that differ at most in query and fragment. *)
Definition same_base (u v : url_record) : Prop :=
  u_scheme u = u_scheme v /\ u_username u = u_username v /\
  u_password u = u_password v /\ u_host u = u_host v /\ u_port u = u_port v /\
  u_pathname u = u_pathname v.

(** Two URL records that differ at most in the host. *)
Definition same_but_host (u v : url_record) : Prop :=
  u_scheme u = u_scheme v /\ u_username u = u_username v /\
  u_password u = u_password v /\ u_port u = u_port v /\
  u_pathname u = u_pathname v /\ u_query u = u_query v /\ u_fragment u = u_fragment v.

Definition TWITTER_HOSTS : list jsstring :=
  map js ["www.twitter.com"; "twitter.com"; "www.x.com"; "x.com"]%string.

(** *** A model of the platform on plain URLs with a query and a fragment

    A plain URL as above, then optionally [?] and a non-empty query of
    names and values of ASCII letters, digits, [-] and [_], written
    [name=value] or [name] and separated by [&], then optionally [#] and a
    non-empty fragment of ASCII letters and digits.  On such names and
    values the parser and the serialiser of [URLSearchParams] decode and
    encode nothing.  The model says nothing of other strings. *)

(** The text before the first [sep], and the text after it if there is
    one. *)
Fixpoint split_at (sep : jschar) (s : jsstring) : jsstring * option jsstring :=
  match s with
  | [] => ([], None)
  | c :: s' =>
      if (c =? sep)%N then ([], Some s')
      else let '(a, b) := split_at sep s' in (c :: a, b)
  end.

Fixpoint split_all (sep : jschar) (s : jsstring) : list jsstring :=
  match s with
  | [] => [[]]
  | c :: s' =>
      if (c =? sep)%N then [] :: split_all sep s'
      else cons_head c (split_all sep s')
  end.

Definition is_word_char (c : jschar) : bool :=
  (is_letter c || is_digit c || (c =? 45) || (c =? 95))%N.

(** A sequence of a query: [name] or [name=value]. *)
Definition plain_pair (seg : jsstring) : bool :=
  let '(name, value) := split_at 61%N seg in
  forallb is_word_char name && forallb is_word_char (default [] value).

Definition plain_query (q : option jsstring) : bool :=
  match q with
  | None => true
  | Some q => negb (is_empty q) && forallb plain_pair (split_all 38%N q)
  end.

Definition plain_fragment (f : option jsstring) : bool :=
  match f with
  | None => true
  | Some f => negb (is_empty f) && forallb (fun c => is_letter c || is_digit c) f
  end.

Definition query_url_parse (raw : jsstring) : option url_record :=
  let '(main, fragment) := split_at 35%N raw in
  let '(base, query) := split_at 63%N main in
  match plain_url_parse base with
  | Some u =>
      if plain_query query && plain_fragment fragment
      then Some (mkUrl (u_scheme u) [] [] (u_host u) None (u_pathname u) query fragment)
      else None
  | None => None
  end.

(** The parser of [application/x-www-form-urlencoded]: the non-empty
    sequences between [&], each cut at its first [=]. *)
Definition plain_query_parse (q : option jsstring) : list (jsstring * jsstring) :=
  match q with
  | None => []
  | Some q =>
      map (fun seg => let '(name, value) := split_at 61%N seg in (name, default [] value))
          (List.filter (fun seg => negb (is_empty seg)) (split_all 38%N q))
  end.

Fixpoint plain_query_serialize (l : list (jsstring * jsstring)) : jsstring :=
  match l with
  | [] => []
  | [kv] => fst kv ++ js "=" ++ snd kv
  | kv :: l' => fst kv ++ js "=" ++ snd kv ++ js "&" ++ plain_query_serialize l'
  end.

Definition query_url_api : url_api :=
  mkUrlApi query_url_parse plain_host_parse plain_query_parse plain_query_serialize.

(** ** The content validator, [src/validate.js] *)

Definition ERROR_SIGNALS : list jsstring :=
  map js ["access denied"; "captcha"; "please enable javascript";
          "cloudflare"; "404"; "sign in"; "blocked"; "rate limit"]%string.

(** What the [reason] of a rejection is made of: the message is a fixed text
    around the source type and the minimal length, around the percentage
    [longParas / paragraphs * 100] and around the signals found, joined by
    commas. *)
Inductive reject_reason : Type :=
  | TooShort
  | TooShortFor (sourceType : source_type) (minLength : nat)
  | LowProse (longParas paragraphs : nat)
  | ErrorPage (hits : list jsstring).

(** [{ valid: true }] and [{ valid: false, reason }]. *)
Inductive verdict : Type :=
  | Valid
  | Invalid (reason : reject_reason).

(** [content.split(/\n\s*\n/)], as a scan from left to right.  A separator
    begins at a line feed that is followed, after white space only, by
    another line feed, and, [\s*] being greedy, it ends at the last line
    feed of that run of white space.  [AfterNewline pending]: a line feed
    and then the white space [pending] have been read, and no second line
    feed yet; they are part of the current piece unless one comes.
    [InSeparator]: the scan is inside a separator, and [cur] holds the white
    space read since its last line feed, with which the next piece begins
    unless another line feed comes. *)
Inductive split_state : Type :=
  | Normal
  | AfterNewline (pending : jsstring)
  | InSeparator.

Fixpoint split_blank (st : split_state) (cur s : jsstring) : list jsstring :=
  match s with
  | [] =>
      match st with
      | AfterNewline pending => [cur ++ 10%N :: pending]
      | _ => [cur]
      end
  | c :: s' =>
      match st with
      | Normal =>
          if (c =? 10)%N then split_blank (AfterNewline []) cur s'
          else split_blank Normal (cur ++ [c]) s'
      | AfterNewline pending =>
          if (c =? 10)%N then cur :: split_blank InSeparator [] s'
          else if is_ws c then split_blank (AfterNewline (pending ++ [c])) cur s'
          else split_blank Normal (cur ++ 10%N :: pending ++ [c]) s'
      | InSeparator =>
          if (c =? 10)%N then split_blank InSeparator [] s'
          else if is_ws c then split_blank InSeparator (cur ++ [c]) s'
          else split_blank Normal (cur ++ [c]) s'
      end
  end.

(** [p.replace(/\n/g, ' ')] *)
Definition newlines_to_spaces (p : jsstring) : jsstring :=
  map (fun c => if (c =? 10)%N then 32%N else c) p.

Definition paragraphs (content : jsstring) : list jsstring :=
  List.filter (fun p => 0 <? length p)
    (map (fun p => trim (newlines_to_spaces p)) (split_blank Normal [] content)).

(** The prose test.  [ratio < 0.15] for the quotient [ratio] of two counts
    is written on the counts: the quotient of two integers below [2^50] is
    rounded to a number below the number [0.15] exactly when it is below
    [3/20]. *)
Definition prose_check (content : jsstring) : option reject_reason :=
  let ps := paragraphs content in
  if 0 <? length ps then
    let longParas := length (List.filter (fun p => 80 <? length p) ps) in
    if 20 * longParas <? 3 * length ps
    then Some (LowProse longParas (length ps)) else None
  else None.

Definition is_tweet (sourceType : source_type) : bool :=
  match sourceType with st_tweet => true | _ => false end.

Definition is_video (sourceType : source_type) : bool :=
  match sourceType with st_video => true | _ => false end.

(** [ERROR_SIGNALS.filter(s => lower.includes(s))] *)
Definition error_hits (lower : jsstring) : list jsstring :=
  List.filter (fun s => includes lower s) ERROR_SIGNALS.

(** [validateContent(content, sourceType, metadata)].  [toLowerCase] is the
    platform's [String.prototype.toLowerCase]; [has_transcript] says whether
    [metadata?.has_transcript] is truthy. *)
Definition validateContent (toLowerCase : jsstring -> jsstring)
    (content : jsstring) (sourceType : source_type) (has_transcript : bool) : verdict :=
  if is_empty content || (length content <? 20) then Invalid TooShort
  else
    let allowShortVideo := is_video sourceType && has_transcript in
    let minLength := if allowShortVideo then 200 else 500 in
    if negb (is_tweet sourceType) && (length content <? minLength)
    then Invalid (TooShortFor sourceType minLength)
    else
      match (if negb (is_tweet sourceType) then prose_check content else None) with
      | Some reason => Invalid reason
      | None =>
          let hits := error_hits (toLowerCase content) in
          if 2 <=? length hits then Invalid (ErrorPage hits) else Valid
      end.

(** * Properties *)

(** ** Strings and the chunker *)

Lemma jsstring_eqb_eq (a b : jsstring) : jsstring_eqb a b = true <-> a = b.
Proof.
  revert b. induction a as [|x a IH]; intros [|y b]; simpl; try done.
  rewrite andb_true_iff, N.eqb_eq, IH. split; [by intros [-> ->] | by intros [= -> ->]].
Qed.

Lemma jsstring_eqb_neq (a b : jsstring) : jsstring_eqb a b = false -> a <> b.
Proof. intros H E. apply jsstring_eqb_eq in E. congruence. Qed.

Lemma is_empty_false_ne {A} (l : list A) : is_empty l = false -> l <> [].
Proof. by intros H ->. Qed.

Lemma trimStart_nil (s : jsstring) :
  trimStart s = [] -> forallb is_ws s = true.
Proof.
  induction s as [|c s IH]; simpl; [done|].
  destruct (is_ws c); simpl; [done | discriminate].
Qed.

Lemma trimStart_head (s r : jsstring) (c : jschar) :
  trimStart s = c :: r -> is_ws c = false.
Proof.
  induction s as [|d s IH]; simpl; [discriminate|].
  destruct (is_ws d) eqn:E; [done|]. intros [= -> _]. done.
Qed.

Lemma forallb_ws_remove (s : jsstring) :
  forallb is_ws s = true -> List.filter (fun c => negb (is_ws c)) s = [].
Proof.
  induction s as [|c s IH]; simpl; [done|].
  destruct (is_ws c); simpl; [done | discriminate].
Qed.

Lemma blank_remove_ws (s : jsstring) :
  non_blank s = false -> remove_ws s = [].
Proof.
  unfold non_blank, trim, trimEnd, remove_ws. intros H.
  apply forallb_ws_remove, trimStart_nil.
  destruct (rev (trimStart (rev (trimStart s)))) eqn:E; [|done].
  apply (f_equal (@rev _)) in E. rewrite rev_involutive in E. simpl in E.
  apply trimStart_nil in E. rewrite forallb_rev in E || idtac.
  destruct (trimStart s) as [|c r] eqn:E'; [done|].
  exfalso. apply trimStart_head in E'.
  rewrite forallb_forall in E. specialize (E c).
  rewrite E in E'; [done|]. apply in_rev. rewrite rev_involutive. left. done.
Qed.

Lemma non_blank_nonempty (s : jsstring) : non_blank s = true -> s <> [].
Proof. intros H ->. done. Qed.

Lemma remove_ws_app (a b : jsstring) :
  remove_ws (a ++ b) = remove_ws a ++ remove_ws b.
Proof. apply List.filter_app. Qed.

Lemma remove_ws_concat (l : list jsstring) :
  remove_ws (concat l) = concat (map remove_ws l).
Proof.
  induction l as [|a l IH]; simpl; [done|]. by rewrite remove_ws_app, IH.
Qed.

Lemma concat_cons_head (c : jschar) (l : list jsstring) :
  concat (cons_head c l) = c :: concat l.
Proof. destruct l; done. Qed.

Lemma split_scan_remove_ws (s : jsstring) : forall skipping prev_end,
  remove_ws (concat (split_scan skipping prev_end s)) = remove_ws s.
Proof.
  induction s as [|c s IH]; intros sk pe; simpl; [done|].
  unfold remove_ws in *. simpl.
  destruct (is_ws c) eqn:E; simpl.
  - destruct sk; simpl; [apply IH|]. destruct pe; simpl; [apply IH|].
    rewrite concat_cons_head. simpl. rewrite E. simpl. apply IH.
  - rewrite andb_false_r. simpl. rewrite andb_false_r.
    rewrite concat_cons_head. simpl. rewrite E. simpl. f_equal. apply IH.
Qed.

Lemma filter_non_blank_remove_ws (l : list jsstring) :
  remove_ws (concat (List.filter non_blank l)) = remove_ws (concat l).
Proof.
  induction l as [|p l IH]; simpl; [done|].
  destruct (non_blank p) eqn:E; simpl; rewrite !remove_ws_app, ?IH; [done|].
  by rewrite (blank_remove_ws _ E).
Qed.

Lemma sentences_remove_ws (text : jsstring) :
  remove_ws (concat (List.filter non_blank (split_sentences text))) = remove_ws text.
Proof.
  rewrite filter_non_blank_remove_ws. apply split_scan_remove_ws.
Qed.

Lemma join_space_snoc (g : list jsstring) (s : jsstring) :
  g <> [] -> join_space (g ++ [s]) = join_space g ++ js " " ++ s.
Proof.
  induction g as [|a g IH]; [done|]. intros _.
  destruct g as [|b g]; [done|].
  change (join_space ((a :: b :: g) ++ [s])) with (a ++ js " " ++ join_space ((b :: g) ++ [s])).
  rewrite IH by done.
  change (join_space (a :: b :: g)) with (a ++ js " " ++ join_space (b :: g)).
  by rewrite <- !app_assoc.
Qed.

Lemma join_space_nonempty (g : list jsstring) :
  g <> [] -> Forall (fun s => s <> []) g -> join_space g <> [].
Proof.
  destruct g as [|a g]; [done|]. intros _ H.
  apply Forall_cons in H as [Ha _].
  destruct g; simpl; [done|]. destruct a; [done|]. done.
Qed.

Lemma remove_ws_join_space (g : list jsstring) :
  remove_ws (join_space g) = concat (map remove_ws g).
Proof.
  induction g as [|a g IH]; [done|].
  destruct g as [|b g]; [simpl; by rewrite app_nil_r|].
  change (join_space (a :: b :: g)) with (a ++ js " " ++ join_space (b :: g)).
  rewrite !remove_ws_app, IH. done.
Qed.

Lemma last_cons_default {A} (l : list A) : forall (b d : A),
  List.last (b :: l) d = List.last l b.
Proof.
  induction l as [|a l IH]; intros b d; [done|].
  change (List.last (b :: a :: l) d) with (List.last (a :: l) d).
  rewrite !IH. done.
Qed.

Lemma buffers_from_snoc (us : list jsstring) (u : jsstring) : forall prev,
  buffers_from prev (us ++ [u]) =
  buffers_from prev us ++ [overlap_of (List.last (buffers_from prev us) prev) ++ u].
Proof.
  induction us as [|a us IH]; intros prev; [done|].
  cbn [app buffers_from]. rewrite IH, last_cons_default. done.
Qed.

Lemma overlap_of_nil : overlap_of [] = [].
Proof. reflexivity. Qed.
Lemma chunk_step_start (s : jsstring) : chunk_step ([], []) s = ([], s).
Proof.
  unfold chunk_step.
  replace (MIN_CHUNK <=? length (@nil N)) with false by reflexivity.
  rewrite andb_false_r. reflexivity.
Qed.

Lemma chunk_step_inv gs g st (s : jsstring) :
  chunk_inv gs g st -> s <> [] ->
  exists gs' g',
    chunk_inv gs' g' (chunk_step st s) /\ g' <> [] /\
    concat gs' ++ g' = concat gs ++ g ++ [s] /\
    (Forall (fun g => g <> []) gs -> Forall (fun g => g <> []) gs').
Proof.
  intros (-> & Hg & Hne) Hs.
  destruct g as [|a g'].
  { (* the start of the loop: [current] is empty *)
    rewrite (Hg eq_refl). exists [], [s].
    change (chunk_step _ s) with (chunk_step ([], []) s). rewrite chunk_step_start.
    repeat split; try done. by apply Forall_singleton. }
  unfold chunk_step.
  set (g := a :: g') in *.
  set (bufs := buffers_from [] (map join_space gs)).
  set (current := overlap_of (List.last bufs []) ++ join_space g).
  assert (current <> []) as Hc.
  { subst current. intros Hc. apply app_eq_nil in Hc as [_ Hc].
    revert Hc. by apply join_space_nonempty. }
  destruct ((CHUNK_SIZE <? length current + length s) && (MIN_CHUNK <=? length current)) eqn:E.
  - (* the chunk is closed *)
    exists (gs ++ [g]), [s]. split; [|split; [done|split]].
    + split; [|split; [intros [=] | by apply Forall_singleton]].
      rewrite map_app. cbn [map]. rewrite buffers_from_snoc. fold bufs. fold current.
      rewrite map_app, last_last. done.
    + rewrite concat_app. simpl. by rewrite app_nil_r, <- app_assoc.
    + intros H. apply Forall_app. split; [done|]. by apply Forall_singleton.
  - (* the sentence is appended to [current] *)
    exists gs, (g ++ [s]). split; [|split; [done|split; [by rewrite app_assoc|done]]].
    split; [|split].
    + fold bufs. f_equal.
      destruct current eqn:Ec; [done|]. cbn [is_empty]. rewrite <- Ec. subst current.
      rewrite join_space_snoc by done. by rewrite <- app_assoc.
    + done.
    + apply Forall_app. split; [done|]. by apply Forall_singleton.
Qed.

Lemma chunk_loop_inv (sentences : list jsstring) : forall gs g st,
  chunk_inv gs g st ->
  Forall (fun s => s <> []) sentences ->
  Forall (fun g => g <> []) gs ->
  exists gs' g',
    chunk_inv gs' g' (fold_left chunk_step sentences st) /\
    concat gs' ++ g' = concat gs ++ g ++ sentences /\
    Forall (fun g => g <> []) gs' /\
    (sentences <> [] \/ g <> [] -> g' <> []).
Proof.
  induction sentences as [|s ss IH]; intros gs g st Hinv Hss Hgs.
  - exists gs, g. rewrite app_nil_r.
    split; [done|]. split; [done|]. split; [done|]. by intros [H|H].
  - apply Forall_cons in Hss as [Hs Hss].
    destruct (chunk_step_inv gs g st s Hinv Hs) as (gs1 & g1 & Hinv1 & Hg1 & Hcat & Hgs1).
    destruct (IH gs1 g1 _ Hinv1 Hss (Hgs1 Hgs)) as (gs2 & g2 & Hinv2 & Hcat2 & Hgs2 & Hg2).
    exists gs2, g2. split; [done|]. split; [|split; [done|]].
    + rewrite Hcat2, app_assoc, Hcat. by rewrite <- !app_assoc.
    + intros _. apply Hg2. by right.
Qed.

Lemma remove_ws_groups (groups : list (list jsstring)) :
  remove_ws (concat (map join_space groups)) = remove_ws (concat (concat groups)).
Proof.
  induction groups as [|g l IH]; [done|].
  cbn [map concat]. rewrite concat_app, !remove_ws_app, IH, remove_ws_join_space.
  by rewrite (remove_ws_concat g).
Qed.

Lemma chunkText_short (text : jsstring) :
  text <> [] -> length text < MIN_CHUNK -> chunkText text = [text].
Proof.
  intros Hne Hlen. unfold chunkText.
  destruct text; [done|]. cbn [is_empty orb].
  destruct (Nat.ltb_spec (length (n :: text)) MIN_CHUNK); [done | lia].
Qed.

Lemma chunkText_long (text : jsstring) :
  MIN_CHUNK <= length text ->
  chunkText text =
    if length (List.filter non_blank (split_sentences text)) =? 0 then [text]
    else chunk_finish
           (fold_left chunk_step (List.filter non_blank (split_sentences text)) ([], [])).
Proof.
  intros Hlen. unfold chunkText.
  destruct text as [|c text]; [unfold MIN_CHUNK in Hlen; simpl in Hlen; lia|].
  cbn [is_empty orb].
  destruct (Nat.ltb_spec (length (c :: text)) MIN_CHUNK); [lia | done].
Qed.




(** ** Regular expressions: the derivative test decides the language *)

Lemma lang_seq_inv a b s :
  lang (Seq a b) s <-> exists s1 s2, s = s1 ++ s2 /\ lang a s1 /\ lang b s2.
Proof.
  split.
  - inversion 1; subst. eauto.
  - intros (s1 & s2 & -> & H1 & H2). by constructor.
Qed.

Lemma lang_alt_inv a b s : lang (Alt a b) s <-> lang a s \/ lang b s.
Proof.
  split.
  - inversion 1; subst; auto.
  - intros [H | H]; [by apply lang_alt_l | by apply lang_alt_r].
Qed.

Lemma lang_eps_inv s : lang Eps s <-> s = [].
Proof. split; [by inversion 1 | intros ->; constructor]. Qed.

Lemma lang_chr_inv p s : lang (Chr p) s <-> exists c, s = [c] /\ p c = true.
Proof.
  split; [inversion 1; subst; eauto | intros (c & -> & H); by constructor].
Qed.

Lemma lang_void_inv s : ~ lang Void s.
Proof. inversion 1. Qed.

Lemma lang_opt_inv r s : lang (Opt r) s <-> lang r s \/ s = [].
Proof. unfold Opt. by rewrite lang_alt_inv, lang_eps_inv. Qed.

Lemma nullable_lang r : nullable r = true <-> lang r [].
Proof.
  split.
  - induction r; simpl; intros H; try discriminate.
    + constructor.
    + apply andb_true_iff in H as [H1 H2].
      change (@nil N) with (@nil N ++ []). constructor; auto.
    + apply orb_true_iff in H as [H | H]; [apply lang_alt_l | apply lang_alt_r]; auto.
    + constructor.
  - remember [] as s eqn:Es. induction 1; simpl; try done.
    + apply app_eq_nil in Es as [-> ->]. rewrite IHlang1, IHlang2; done.
    + by rewrite IHlang.
    + rewrite IHlang by done. apply orb_true_r.
Qed.

Lemma deriv_sound c r : forall s, lang (deriv c r) s -> lang r (c :: s).
Proof.
  induction r as [| |p|a IHa b IHb|a IHa b IHb|a IHa]; simpl; intros s H.
  - by apply lang_void_inv in H.
  - by apply lang_void_inv in H.
  - destruct (p c) eqn:E; [|by apply lang_void_inv in H].
    apply lang_eps_inv in H as ->. by constructor.
  - assert (lang (Seq (deriv c a) b) s -> lang (Seq a b) (c :: s)) as Hseq.
    { intros (s1 & s2 & -> & H1 & H2)%lang_seq_inv.
      change (c :: s1 ++ s2) with ((c :: s1) ++ s2). constructor; auto. }
    destruct (nullable a) eqn:E; [|by apply Hseq].
    apply lang_alt_inv in H as [H | H]; [by apply Hseq|].
    change (c :: s) with ([] ++ c :: s). constructor; [by apply nullable_lang | auto].
  - apply lang_alt_inv in H as [H | H]; [apply lang_alt_l | apply lang_alt_r]; auto.
  - apply lang_seq_inv in H as (s1 & s2 & -> & H1 & H2).
    change (c :: s1 ++ s2) with ((c :: s1) ++ s2). constructor; auto.
Qed.

Lemma deriv_complete c r s : lang r (c :: s) -> lang (deriv c r) s.
Proof.
  remember (c :: s) as w eqn:Ew. intros H. revert s Ew.
  induction H as [|p d Hp|a b s1 s2 H1 IH1 H2 IH2|a b w H IH|a b w H IH| |a s1 s2 H1 IH1 H2 IH2];
    intros s Ew; simpl; try discriminate.
  - injection Ew as ? ?; subst. rewrite Hp. constructor.
  - destruct s1 as [|d s1'].
    + simpl in Ew. subst s2. apply nullable_lang in H1. rewrite H1.
      apply lang_alt_r. by apply IH2.
    + injection Ew as ? ?; subst.
      assert (lang (Seq (deriv c a) b) (s1' ++ s2)) by (constructor; auto).
      destruct (nullable a); [by apply lang_alt_l | done].
  - apply lang_alt_l. auto.
  - apply lang_alt_r. auto.
  - destruct s1 as [|d s1'].
    + simpl in Ew. subst s2. by apply IH2.
    + injection Ew as ? ?; subst. constructor; auto.
Qed.

Lemma matches_lang s : forall r, matches r s = true <-> lang r s.
Proof.
  induction s as [|c s IH]; intros r; simpl; [apply nullable_lang|].
  rewrite IH. split; [apply deriv_sound | apply deriv_complete].
Qed.

Lemma lang_star_chr p s : lang (Star (Chr p)) s <-> forallb p s = true.
Proof.
  split.
  - remember (Star (Chr p)) as r eqn:Er. induction 1; try discriminate; [done|].
    injection Er as ->. apply lang_chr_inv in H as (c & -> & Hc).
    simpl. rewrite Hc. auto.
  - induction s as [|c s IH]; simpl; [constructor|].
    intros [Hc Hs]%andb_true_iff. change (c :: s) with ([c] ++ s).
    constructor; [by constructor | auto].
Qed.

Lemma lang_any_star s : lang (Star AnyChar) s.
Proof. apply lang_star_chr. by induction s. Qed.

Lemma lang_lit_chars x : forall s, lang (lit_chars x) s <-> map ascii_lower s = x.
Proof.
  induction x as [|a x IH]; intros s; simpl.
  - rewrite lang_eps_inv. by destruct s.
  - rewrite lang_seq_inv. split.
    + intros (s1 & s2 & -> & (c & -> & Hc)%lang_chr_inv & H2).
      apply N.eqb_eq in Hc. apply IH in H2. simpl. by rewrite Hc, H2.
    + destruct s as [|c s]; [done|]. intros [= Hc Hs].
      exists [c], s. split; [done|]. split; [|by apply IH].
      constructor. by apply N.eqb_eq.
Qed.

Lemma test_from_start_spec r s :
  test_from_start r s = true <-> exists s1 s2, s = s1 ++ s2 /\ lang r s1.
Proof.
  unfold test_from_start. rewrite matches_lang, lang_seq_inv.
  split; intros (s1 & s2 & -> & H); exists s1, s2; [tauto|].
  split; [done|]. split; [done | apply lang_any_star].
Qed.

Lemma test_to_end_spec r s :
  test_to_end r s = true <-> exists s1 s2, s = s1 ++ s2 /\ lang r s2.
Proof.
  unfold test_to_end. rewrite matches_lang, lang_seq_inv.
  split; intros (s1 & s2 & -> & H); exists s1, s2; [tauto|].
  split; [done|]. split; [apply lang_any_star | done].
Qed.

(** ** The source type classifier *)

Lemma PDF_RE_spec url : test_to_end PDF_RE url = true <-> pdf_suffix url.
Proof.
  rewrite test_to_end_spec. unfold PDF_RE, pdf_suffix, lit_i. split.
  - intros (pre & w & -> & (ext & rest & -> & Hext & Hrest)%lang_seq_inv).
    exists pre, ext, rest. split; [done|]. split; [by apply lang_lit_chars|].
    apply lang_opt_inv in Hrest as [Hrest | ->]; [right | by left].
    apply lang_seq_inv in Hrest as (q1 & q & -> & Hq1 & Hq).
    apply lang_lit_chars in Hq1. apply lang_star_chr in Hq.
    destruct q1 as [|c [|]]; try discriminate. injection Hq1 as Hc.
    exists q. split; [|done]. simpl. f_equal.
    unfold ascii_lower in Hc. destruct (_ && _)%N eqn:E; [|done].
    apply andb_true_iff in E as [E1 E2]. apply N.leb_le in E1. lia.
  - intros (pre & ext & rest & -> & Hext & Hrest).
    exists pre, (ext ++ rest). split; [done|]. apply lang_seq_inv.
    exists ext, rest. split; [done|]. split; [by apply lang_lit_chars|].
    apply lang_opt_inv. destruct Hrest as [-> | (q & -> & Hq)]; [by right | left].
    change (63%N :: q) with ([63%N] ++ q). constructor; [by apply lang_lit_chars|].
    by apply lang_star_chr.
Qed.

(** C9, as the code has it: [pdf] is returned exactly for the non-empty
    strings, not matched by the tweet and video patterns, in which [.pdf] (in
    any letter case) stands at the very end or is followed by [?] and no line
    terminator up to the end, whether the string is an HTTP(S) URL or not
    and whether [.pdf] lies in the path or in the query string; the other
    HTTP(S) URLs not matched by the tweet and video patterns are [article];
    and [https://example.com/doc.pdf?x=1] is a [pdf]. *)
Theorem detectSourceType_pdf_iff (url : jsstring) :
  (detectSourceType url = st_pdf <->
     url <> [] /\ test_from_start TWITTER_RE url = false /\
     test_from_start YOUTUBE_RE url = false /\ pdf_suffix url) /\
  (detectSourceType url = st_article <->
     url <> [] /\ test_from_start TWITTER_RE url = false /\
     test_from_start YOUTUBE_RE url = false /\ ~ pdf_suffix url /\
     test_from_start HTTP_RE url = true) /\
  detectSourceType (js "https://example.com/doc.pdf?x=1") = st_pdf.
Proof.
  split; [|split; [|by vm_compute]]; unfold detectSourceType;
    rewrite <- PDF_RE_spec;
    (destruct url as [|c url]; cbn [is_empty]; [split; [discriminate | tauto]|]);
    destruct (test_from_start TWITTER_RE (c :: url));
    destruct (test_from_start YOUTUBE_RE (c :: url));
    destruct (test_to_end PDF_RE (c :: url));
    destruct (test_from_start HTTP_RE (c :: url));
    (split; [try discriminate; intros _; repeat split; (done || discriminate)
            | intros (_ & H1 & H2 & H3); try discriminate; try done;
              try (destruct H3 as [H3 H4]; try discriminate; by destruct H3)]).
Qed.

(** C9, as stated, fails in both directions of "exactly": a string that is
    not an HTTP(S) URL is a [pdf] when it ends in [.pdf], and an HTTP(S) URL
    whose path does not end in [.pdf] is a [pdf], not an [article], when its
    query string ends in [.pdf]. *)
Lemma detectSourceType_pdf_not_by_path :
  (detectSourceType (js "ftp://x/y.pdf") = st_pdf /\
   test_from_start HTTP_RE (js "ftp://x/y.pdf") = false /\
   pdf_by_path (js "ftp://x/y.pdf") = false) /\
  (detectSourceType (js "https://example.com/page?file=a.pdf") = st_pdf /\
   test_from_start HTTP_RE (js "https://example.com/page?file=a.pdf") = true /\
   before_query (js "https://example.com/page?file=a.pdf") = js "https://example.com/page" /\
   pdf_by_path (js "https://example.com/page?file=a.pdf") = false).
Proof. by vm_compute. Qed.

(** ** The stable sort *)

Section SortFacts.

Context {A : Type} (after : A -> A -> bool).

Lemma sort_insert_perm x l : sort_insert after x l ≡ₚ x :: l.
Proof.
  induction l as [|y l IH]; simpl; [done|].
  destruct (after x y); [|done]. rewrite IH. apply Permutation_swap.
Qed.

Lemma js_sort_perm l : js_sort after l ≡ₚ l.
Proof.
  induction l as [|x l IH]; simpl; [done|].
  rewrite sort_insert_perm. by rewrite IH.
Qed.

Lemma js_sort_length l : length (js_sort after l) = length l.
Proof. by rewrite js_sort_perm. Qed.

Lemma consistent_on_subset l l' :
  consistent_on after l -> (forall a, a ∈ l' -> a ∈ l) -> consistent_on after l'.
Proof.
  intros [Htot Htr] Hsub. split.
  - intros a b Ha Hb. apply Htot; by apply Hsub.
  - intros a b c Ha Hb Hc. apply Htr; by apply Hsub.
Qed.

Lemma sort_insert_sorted x l :
  consistent_on after (x :: l) ->
  StronglySorted (fun a b => after a b = false) l ->
  StronglySorted (fun a b => after a b = false) (sort_insert after x l).
Proof.
  induction l as [|y l IH]; intros Hcons Hs; simpl.
  { repeat constructor. }
  apply StronglySorted_inv in Hs as [Hs Hy].
  pose proof Hcons as [Htot Htr].
  assert (x ∈ x :: y :: l) as Hx by (rewrite !elem_of_cons; auto).
  assert (y ∈ x :: y :: l) as Hy' by (rewrite !elem_of_cons; auto).
  destruct (after x y) eqn:E.
  - constructor.
    + apply IH; [|done]. apply (consistent_on_subset _ _ Hcons).
      intros a. rewrite !elem_of_cons. tauto.
    + rewrite sort_insert_perm. constructor; [|done]. by apply Htot.
  - constructor; [by constructor|]. constructor; [done|].
    rewrite Forall_forall in Hy |- *. intros z Hz.
    apply (Htr x y z); [done | done | | done | by apply Hy].
    rewrite !elem_of_cons. auto.
Qed.

Lemma js_sort_sorted l :
  consistent_on after l -> StronglySorted (fun a b => after a b = false) (js_sort after l).
Proof.
  induction l as [|x l IH]; intros Hcons; simpl; [constructor|].
  apply sort_insert_sorted.
  - apply (consistent_on_subset _ _ Hcons).
    intros a. by rewrite !elem_of_cons, js_sort_perm.
  - apply IH, (consistent_on_subset _ _ Hcons).
    intros a. rewrite elem_of_cons. auto.
Qed.

End SortFacts.

(** ** The ingestion lock *)

Lemma includes_busy_message :
  includes (err_message busy_error) (js "Another ingestion") = true.
Proof. by vm_compute. Qed.

Lemma includes_null_message : includes NULL_TS_MESSAGE (js "Another ingestion") = false.
Proof. by vm_compute. Qed.

Lemma check_marker_busy env m :
  check_marker env m = Throw busy_error <-> held_fresh env m.
Proof.
  unfold held_fresh. destruct m as [msg| |ts pid]; simpl.
  - split; [discriminate | by intros (? & ? & ? & _)].
  - split; [discriminate | by intros (? & ? & ? & _)].
  - destruct ts as [t|], pid as [p|]; simpl;
      try (split; [by rewrite ?andb_false_r | by intros (? & ? & ? & _)]).
    destruct (Z.ltb_spec (now_check env - t) STALE_MS) as [Hlt | Hge]; simpl.
    + destruct (signalable env p) eqn:Ep.
      * split; [intros _; by exists t, p | done].
      * split; [discriminate | intros (? & ? & [= <- <-] & _ & ?); congruence].
    + split; [discriminate | intros (? & ? & [= <- <-] & ? & _); lia].
Qed.

Lemma abandoned_not_held env m : abandoned env m <-> ~ held_fresh env m.
Proof.
  unfold abandoned, held_fresh. destruct m as [msg| |ts pid].
  - split; [by intros _ (? & ? & ? & _) | done].
  - split; [by intros _ (? & ? & ? & _) | done].
  - destruct ts as [t|], pid as [p|]; simpl.
    + split.
      * intros [H | H] (? & ? & [= <- <-] & ? & ?); [lia | congruence].
      * intros H. destruct (Z.le_gt_cases STALE_MS (now_check env - t)); [by left|].
        right. destruct (signalable env p) eqn:Ep; [|done].
        exfalso. apply H. exists t, p. split; [done|]. split; [lia | done].
    + split; [by intros _ (? & ? & ? & _) | by right].
    + split; [by intros _ (? & ? & ? & _) | by left].
    + split; [by intros _ (? & ? & ? & _) | by left].
Qed.



(** ** The embedding gateway: the cache *)

Lemma jsstring_eqb_refl (a : jsstring) : jsstring_eqb a a = true.
Proof. by apply jsstring_eqb_eq. Qed.

Lemma jsstring_eqb_false (a b : jsstring) : a <> b -> jsstring_eqb a b = false.
Proof.
  intros H. destruct (jsstring_eqb a b) eqn:E; [|done]. by apply jsstring_eqb_eq in E.
Qed.

Ltac eqb_cases a b :=
  let E := fresh "E" in
  destruct (jsstring_eqb a b) eqn:E;
  [apply jsstring_eqb_eq in E | apply jsstring_eqb_neq in E].

Section CacheFacts.

Context {number : Type}.
Implicit Types (m : js_map number) (c : LRUCache number) (k key : jsstring).

Lemma map_has_get key m :
  map_has key m = match map_get key m with Some _ => true | None => false end.
Proof.
  induction m as [|[k v] m IH]; simpl.
  - done.
  - eqb_cases k key; simpl; done.
Qed.

Lemma map_get_delete k key m :
  map_get k (map_delete key m) = if jsstring_eqb key k then None else map_get k m.
Proof.
  induction m as [|[k' v] m IH]; simpl; [by destruct (jsstring_eqb key k)|].
  eqb_cases k' key; simpl.
  - subst k'. rewrite IH. by destruct (jsstring_eqb key k).
  - rewrite IH. eqb_cases k' k; [|done].
    subst k'. by rewrite jsstring_eqb_false.
Qed.

Lemma map_get_set k key v m :
  map_get k (map_set key v m) = if jsstring_eqb key k then Some v else map_get k m.
Proof.
  induction m as [|[k' v'] m IH]; simpl; [done|].
  eqb_cases k' key; simpl.
  - subst k'. by destruct (jsstring_eqb key k).
  - rewrite IH. eqb_cases k' k; [|done].
    subst k'. by rewrite jsstring_eqb_false.
Qed.

Lemma lru_get_found key c : fst (lru_get key c) = map_get key (lru_map c).
Proof.
  unfold lru_get. rewrite map_has_get.
  by destruct (map_get key (lru_map c)) eqn:E.
Qed.

Lemma lru_get_keeps k key c :
  map_get k (lru_map (snd (lru_get key c))) = map_get k (lru_map c).
Proof.
  unfold lru_get. destruct (negb _); [done|].
  destruct (map_get key (lru_map c)) eqn:E; [|done]. simpl.
  rewrite map_get_set, map_get_delete.
  eqb_cases key k; [by subst | done].
Qed.

Lemma lru_set_found key v c : map_get key (lru_map (lru_set key v c)) = Some v.
Proof. unfold lru_set. simpl. by rewrite map_get_set, jsstring_eqb_refl. Qed.

End CacheFacts.

(** ** The embedding gateway: fallback *)

Section GatewayFacts.

Context {number : Type}.
Variable env : embed_env number.
Implicit Types (st : embed_state number) (texts batch : list jsstring).

Lemma cache_set_run key v st :
  cache_set key v st = (Ok tt, mkEmbedState (lru_set key v (cache st)) (requests st)).
Proof. done. Qed.

Lemma store_batch_ok (r : provider_result number) batch : forall j batchIdxs results st,
  exists results' st',
    store_batch r j batch batchIdxs results st = (Ok results', st') /\
    requests st' = requests st.
Proof.
  induction batch as [|t batch IH]; intros j idxs results st; [by eexists _, _|].
  destruct idxs as [|idx idxs]; [by eexists _, _|].
  cbn [store_batch]. unfold bind at 1. rewrite cache_set_run.
  edestruct IH as (results' & st' & -> & Hreq). by eexists _, _.
Qed.

Lemma embedBatch_primary_ok batch st r st1 :
  embedGemini env batch st = (Ok r, st1) ->
  embedBatch env batch st = (Ok r, st1).
Proof. intros H. unfold embedBatch, try_catch. by rewrite H. Qed.

Lemma embedBatch_primary_failed batch st geminiErr st1 :
  embedGemini env batch st = (Throw geminiErr, st1) ->
  embedBatch env batch st =
    match embedOpenAI env batch st1 with
    | (Ok r, st2) => (Ok r, st2)
    | (Throw openaiErr, st2) => (Throw (both_failed geminiErr openaiErr), st2)
    end.
Proof. intros H. unfold embedBatch, try_catch at 1. rewrite H. done. Qed.

(** The loop over the batches runs as [batch_run] says, whatever the
    providers answer. *)
Lemma embed_batches_run batches : forall results meta st,
  batch_run env batches results meta st (embed_batches env batches results meta st).
Proof.
  induction batches as [|[batch idxs] rest IH]; intros results meta st; [constructor|].
  cbn [embed_batches]. unfold bind at 1.
  destruct (embedGemini env batch st) as [[r|g] st1] eqn:Hg.
  - rewrite (embedBatch_primary_ok _ _ _ _ Hg). unfold bind at 1.
    destruct (store_batch_ok r batch 0 idxs results st1) as (results' & st2 & Hs & _).
    rewrite Hs. eapply run_primary; eauto.
  - rewrite (embedBatch_primary_failed _ _ _ _ Hg).
    destruct (embedOpenAI env batch st1) as [[r|o] st2] eqn:Ho.
    + unfold bind at 1.
      destruct (store_batch_ok r batch 0 idxs results st2) as (results' & st3 & Hs & _).
      rewrite Hs. eapply run_secondary; eauto.
    + eapply run_both_failed; eauto.
Qed.

Lemma batch_run_deterministic batches results meta st out1 out2 :
  batch_run env batches results meta st out1 ->
  batch_run env batches results meta st out2 -> out1 = out2.
Proof.
  intros Hrun. revert out2.
  induction Hrun; intros out2 Hrun2; inversion Hrun2; subst;
    repeat match goal with
           | Ha : ?x = _, Hb : ?x = _ |- _ => rewrite Ha in Hb; simplify_eq
           end; eauto.
Qed.

Lemma fetch_json_failure req st message :
  network env (length (requests st)) req = ReplyFailure message ->
  fetch_json env req st =
    (Throw (mkError PlainError message), mkEmbedState (cache st) (requests st ++ [req])).
Proof. intros H. unfold fetch_json. by rewrite H. Qed.

(** When every attempt of [retry] fails, [retry] throws the error of the
    third attempt, after three requests. *)
Lemma retry_exhausted req st m1 m2 m3 :
  let n := length (requests st) in
  network env n req = ReplyFailure m1 ->
  network env (S n) req = ReplyFailure m2 ->
  network env (S (S n)) req = ReplyFailure m3 ->
  retry (fetch_json env req) st =
    (Throw (mkError PlainError m3),
     mkEmbedState (cache st) (requests st ++ [req; req; req])).
Proof.
  intros n H1 H2 H3. unfold retry. cbn [retry_loop]. unfold try_catch at 1, bind at 1.
  rewrite (fetch_json_failure _ _ _ H1). cbn [Nat.eqb].
  unfold try_catch at 1, bind at 1. rewrite fetch_json_failure with (message := m2).
  2: { cbn [requests]. rewrite length_app. cbn [length]. by rewrite Nat.add_1_r. }
  cbn [Nat.eqb cache requests]. unfold try_catch at 1, bind at 1.
  rewrite fetch_json_failure with (message := m3).
  2: { cbn [requests]. rewrite !length_app. cbn [length]. by rewrite !Nat.add_1_r. }
  cbn [Nat.eqb cache requests]. unfold throw. by rewrite <- !app_assoc.
Qed.

End GatewayFacts.

(** ** The embedding gateway: the scan of the cache *)

Section ScanFacts.

Context {number : Type}.
Variable env : embed_env number.
Implicit Types (st : embed_state number) (texts batch : list jsstring).

Lemma uncached_of_ext st1 st2 texts :
  same_entries st1 st2 -> uncached_of st1 texts = uncached_of st2 texts.
Proof.
  intros H. unfold uncached_of. apply List.filter_ext. intros t.
  by rewrite !map_has_get, H.
Qed.

Lemma missing_positions_ext st1 st2 texts : forall i,
  same_entries st1 st2 -> missing_positions st1 i texts = missing_positions st2 i texts.
Proof.
  induction texts as [|t texts IH]; intros i H; simpl; [done|].
  rewrite !map_has_get, H, (IH (S i) H). done.
Qed.

Lemma cache_get_run t st :
  cache_get t st =
    (Ok (map_get t (lru_map (cache st))),
     mkEmbedState (snd (lru_get t (cache st))) (requests st)).
Proof.
  unfold cache_get. rewrite <- lru_get_found. by destruct (lru_get t (cache st)).
Qed.

Lemma scan_cache_ok texts : forall i results unc idx st,
  i + length texts <= length results ->
  exists results' st',
    scan_cache texts i (results, unc, idx) st =
      (Ok (results', unc ++ uncached_of st texts, idx ++ missing_positions st i texts), st') /\
    requests st' = requests st /\
    same_entries st' st /\
    length results' = length results /\
    (forall p, p < i \/ i + length texts <= p -> results' !! p = results !! p) /\
    (forall j t, texts !! j = Some t ->
       results' !! (i + j) =
         match map_get t (lru_map (cache st)) with
         | Some e => Some (Some e)
         | None => results !! (i + j)
         end).
Proof.
  induction texts as [|t texts IH]; intros i results unc idx st Hlen.
  { exists results, st. simpl. rewrite !app_nil_r. repeat split; done. }
  cbn [scan_cache length] in *. unfold bind at 1. rewrite cache_get_run.
  cbv beta iota.
  set (st1 := mkEmbedState (snd (lru_get t (cache st))) (requests st)).
  assert (same_entries st1 st) as Hsame by (intros k; apply lru_get_keeps).
  cbn [uncached_of List.filter missing_positions]. fold (uncached_of st texts).
  rewrite map_has_get.
  destruct (map_get t (lru_map (cache st))) as [e|] eqn:Et; cbn [negb].
  - destruct (IH (S i) (<[i := Some e]> results) unc idx st1)
      as (results' & st' & Hrun & Hreq & Hent & Hl & Hout & Hin).
    { rewrite length_insert. lia. }
    rewrite (uncached_of_ext _ _ _ Hsame), (missing_positions_ext _ _ _ _ Hsame) in Hrun.
    exists results', st'.
    split; [exact Hrun|]. split; [done|]. split; [by intros k; rewrite Hent|].
    split; [by rewrite Hl, length_insert|]. split.
    + intros p Hp. rewrite Hout by lia. apply list_lookup_insert_ne. lia.
    + intros [|j] t' Ht'.
      * injection Ht' as <-. rewrite Et, Nat.add_0_r, Hout by lia.
        apply list_lookup_insert_eq. lia.
      * simpl in Ht'. replace (i + S j) with (S i + j) by lia.
        rewrite (Hin j t' Ht'), Hsame.
        destruct (map_get t' _); [done|]. apply list_lookup_insert_ne. lia.
  - destruct (IH (S i) results (unc ++ [t]) (idx ++ [i]) st1)
      as (results' & st' & Hrun & Hreq & Hent & Hl & Hout & Hin); [lia|].
    rewrite (uncached_of_ext _ _ _ Hsame), (missing_positions_ext _ _ _ _ Hsame) in Hrun.
    exists results', st'. rewrite <- !app_assoc in Hrun.
    split; [exact Hrun|]. split; [done|].
    split; [by intros k; rewrite Hent|]. split; [done|]. split.
    + intros p Hp. apply Hout. lia.
    + intros [|j] t' Ht'.
      * injection Ht' as <-. rewrite Et, Nat.add_0_r. apply Hout. lia.
      * simpl in Ht'. replace (i + S j) with (S i + j) by lia.
        rewrite (Hin j t' Ht'), Hsame. done.
Qed.

End ScanFacts.

(** ** The embedding gateway: the whole call *)

Section CallFacts.

Context {number : Type}.
Variable env : embed_env number.
Implicit Types (st : embed_state number) (texts batch : list jsstring).

Lemma embedTexts_unfold texts st :
  exists results st0,
    scan_cache texts 0 (replicate (length texts) None, [], []) st =
      (Ok (results, uncached_of st texts, missing_positions st 0 texts), st0) /\
    requests st0 = requests st /\
    same_entries st0 st /\
    length results = length texts /\
    (forall j t, texts !! j = Some t ->
       results !! j =
         match map_get t (lru_map (cache st)) with
         | Some e => Some (Some e)
         | None => Some None
         end) /\
    embedTexts env texts st =
      if length (uncached_of st texts) =? 0 then
        match results !! 0 with
        | Some (Some first) =>
            (Ok (mkEmbedResult (embeddings_of results) (Some (ce_dim first))
                   (Some (ce_provider first)) (Some (ce_model first))), st0)
        | _ => (Throw (undefined_read "dim"), st0)
        end
      else
        finish_call
          (embed_batches env
             (zip (slices BATCH_SIZE (uncached_of st texts))
                  (slices BATCH_SIZE (missing_positions st 0 texts)))
             results None st0).
Proof.
  destruct (scan_cache_ok texts 0 (replicate (length texts) None) [] [] st)
    as (results & st0 & Hrun & Hreq & Hent & Hl & Hout & Hin).
  { rewrite length_replicate. lia. }
  exists results, st0. cbn [app] in Hrun.
  split; [exact Hrun|]. split; [done|]. split; [done|].
  split; [by rewrite Hl, length_replicate|]. split.
  - intros j t Ht. pose proof (Hin j t Ht) as Hj. cbn [Nat.add] in Hj. rewrite Hj.
    destruct (map_get t _); [done|].
    apply lookup_replicate_2. by apply lookup_lt_Some in Ht.
  - unfold embedTexts, bind at 1. rewrite Hrun. cbv beta iota.
    destruct (length (uncached_of st texts) =? 0).
    + by destruct (results !! 0) as [[first|]|].
    + unfold bind, finish_call.
      by destruct (embed_batches env _ results None st0) as [[[results' meta]|e] st'].
Qed.

End CallFacts.

(** ** The embedding gateway: what is sent to the providers *)

Lemma slices_fuel_elem {A} (size : nat) (b : list A) (x : A) :
  forall fuel l, b ∈ slices_fuel fuel size l -> x ∈ b -> x ∈ l.
Proof.
  induction fuel as [|fuel IH]; intros l Hb Hx; simpl in Hb; [by apply elem_of_nil in Hb|].
  destruct l as [|a l]; [by apply elem_of_nil in Hb|].
  apply elem_of_cons in Hb as [-> | Hb].
  - by apply (subseteq_take size).
  - apply (subseteq_drop size). by apply IH.
Qed.

Section RequestFacts.

Context {number : Type}.
Variable env : embed_env number.
Implicit Types (st : embed_state number) (texts batch : list jsstring).

Lemma fetch_json_requests {req st} {x : result (reply number)} {st'} :
  fetch_json env req st = (x, st') ->
  cache st' = cache st /\ requests st' = requests st ++ [req] /\
  (forall body, x = Ok body -> network env (length (requests st)) req = body).
Proof.
  unfold fetch_json. destruct (network env _ req); intros [= <- <-]; repeat split; try done;
    by intros ? [= <-].
Qed.

Lemma retry_loop_requests req n : forall st (x : result (option (reply number))) st',
  retry_loop (fetch_json env req) n st = (x, st') ->
  cache st' = cache st /\
  (exists k, requests st' = requests st ++ replicate k req) /\
  (forall body, x = Ok (Some body) -> exists m, network env m req = body).
Proof.
  induction n as [|n IH]; intros st x st'; cbn [retry_loop].
  - intros [= <- <-]. split; [done|]. split; [exists 0; by rewrite app_nil_r | done].
  - unfold try_catch, bind.
    destruct (fetch_json env req st) as [[body|e] st1] eqn:Hf;
      destruct (fetch_json_requests Hf) as (Hc & Hr & Hb).
    + intros [= <- <-]. split; [done|]. split; [by exists 1|].
      intros ? [= <-]. eauto.
    + destruct (n =? 0).
      * intros [= <- <-]. split; [done|]. split; [by exists 1 | done].
      * intros Hrec. apply IH in Hrec as (Hc' & (k & Hk) & Hb').
        split; [congruence|]. split; [|done].
        exists (S k). rewrite Hk, Hr, <- app_assoc. done.
Qed.

(** [retry] sends the request at least once. *)
Lemma retry_loop_sends req n st (x : result (option (reply number))) st' :
  retry_loop (fetch_json env req) (S n) st = (x, st') ->
  exists k, requests st' = requests st ++ replicate (S k) req.
Proof.
  cbn [retry_loop]. unfold try_catch at 1, bind at 1.
  destruct (fetch_json env req st) as [[body|e] st1] eqn:Hf;
    destruct (fetch_json_requests Hf) as (_ & Hr & _).
  - intros [= <- <-]. by exists 0.
  - destruct (n =? 0); [intros [= <- <-]; by exists 0|].
    intros (_ & (k & Hk) & _)%retry_loop_requests.
    exists k. by rewrite Hk, Hr, <- app_assoc.
Qed.

Lemma retry_requests req st (x : result (option (reply number))) st' :
  retry (fetch_json env req) st = (x, st') ->
  exists k, requests st' = requests st ++ replicate (S k) req.
Proof. apply retry_loop_sends. Qed.

Lemma embedOpenAI_sends {batch st} {x : result (provider_result number)} {st'} :
  openai_key_set env = true ->
  embedOpenAI env batch st = (x, st') ->
  exists k, requests st' =
    requests st ++ replicate (S k) (mkRequest OpenAI (map truncate_input batch)).
Proof.
  unfold embedOpenAI. intros ->. cbn [negb]. unfold bind.
  destruct (retry _ st) as [[res|e] st1] eqn:Hr; apply retry_requests in Hr.
  - intros Hx. assert (st' = st1) as ->; [|done].
    destruct res as [[| |data]|]; try by injection Hx.
    destruct (js_sort _ data); by injection Hx.
  - by intros [= <- <-].
Qed.

Lemma embedGemini_requests {batch st} {x : result (provider_result number)} {st'} :
  embedGemini env batch st = (x, st') ->
  cache st' = cache st /\
  exists reqs, requests st' = requests st ++ reqs /\ sent_for batch reqs.
Proof.
  unfold embedGemini, sent_for. destruct (negb _).
  { intros [= <- <-]. split; [done|]. exists []. by rewrite app_nil_r. }
  unfold bind, retry.
  destruct (retry_loop _ 3 st) as [[res|e] st1] eqn:Hr;
    apply retry_loop_requests in Hr as (Hc & (k & Hk) & _).
  - intros Hx. assert (st' = st1) as ->.
    { destruct res as [[| [|] |]|]; by injection Hx. }
    split; [done|]. eexists. split; [exact Hk|].
    apply Forall_forall. by intros req ->%elem_of_replicate_inv.
  - intros [= <- <-]. split; [done|]. eexists. split; [exact Hk|].
    apply Forall_forall. by intros req ->%elem_of_replicate_inv.
Qed.

Lemma embedOpenAI_requests {batch st} {x : result (provider_result number)} {st'} :
  embedOpenAI env batch st = (x, st') ->
  cache st' = cache st /\
  exists reqs, requests st' = requests st ++ reqs /\ sent_for batch reqs.
Proof.
  unfold embedOpenAI, sent_for. destruct (negb _).
  { intros [= <- <-]. split; [done|]. exists []. by rewrite app_nil_r. }
  unfold bind, retry.
  destruct (retry_loop _ 3 st) as [[res|e] st1] eqn:Hr;
    apply retry_loop_requests in Hr as (Hc & (k & Hk) & _).
  - intros Hx. assert (st' = st1) as ->.
    { destruct res as [[| |data]|]; try by injection Hx.
      destruct (js_sort _ data); by injection Hx. }
    split; [done|]. eexists. split; [exact Hk|].
    apply Forall_forall. by intros req ->%elem_of_replicate_inv.
  - intros [= <- <-]. split; [done|]. eexists. split; [exact Hk|].
    apply Forall_forall. by intros req ->%elem_of_replicate_inv.
Qed.

Lemma embedBatch_requests {batch st} {x : result (provider_result number)} {st'} :
  embedBatch env batch st = (x, st') ->
  cache st' = cache st /\
  exists reqs, requests st' = requests st ++ reqs /\ sent_for batch reqs.
Proof.
  unfold embedBatch, try_catch, sent_for.
  destruct (embedGemini env batch st) as [[r|g] st1] eqn:Hg;
    destruct (embedGemini_requests Hg) as (Hc1 & reqs1 & Hr1 & Hs1).
  - intros [= <- <-]. eauto.
  - destruct (embedOpenAI env batch st1) as [[r|o] st2] eqn:Ho;
      destruct (embedOpenAI_requests Ho) as (Hc2 & reqs2 & Hr2 & Hs2);
      intros [= <- <-]; (split; [congruence|]); exists (reqs1 ++ reqs2);
      (split; [by rewrite Hr2, Hr1, app_assoc | by apply Forall_app]).
Qed.

Lemma embed_batches_requests batches : forall results meta st x st',
  embed_batches env batches results meta st = (x, st') ->
  exists reqs, requests st' = requests st ++ reqs /\
    Forall (fun req => exists b, b ∈ batches.*1 /\ req_texts req = map truncate_input b) reqs.
Proof.
  induction batches as [|[batch idxs] rest IH]; intros results meta st x st'.
  { intros [= <- <-]. exists []. by rewrite app_nil_r. }
  cbn [embed_batches]. unfold bind at 1.
  destruct (embedBatch env batch st) as [[r|e] st1] eqn:Hb;
    destruct (embedBatch_requests Hb) as (_ & reqs1 & Hr1 & Hs1).
  - unfold bind at 1.
    destruct (store_batch_ok r batch 0 idxs results st1) as (results' & st2 & Hs & Hr2).
    rewrite Hs. intros Hrest. apply IH in Hrest as (reqs2 & Hr3 & Hs3).
    exists (reqs1 ++ reqs2). split; [by rewrite Hr3, Hr2, Hr1, app_assoc|].
    apply Forall_app. split.
    + eapply Forall_impl; [exact Hs1|]. intros req Hreq. exists batch.
      split; [|done]. cbn. apply elem_of_cons. by left.
    + eapply Forall_impl; [exact Hs3|]. intros req (b & Hin & Hreq). exists b.
      split; [|done]. cbn. apply elem_of_cons. by right.
  - intros [= <- <-]. exists reqs1. split; [done|].
    eapply Forall_impl; [exact Hs1|]. intros req Hreq. exists batch.
    split; [|done]. cbn. apply elem_of_cons. by left.
Qed.

(** Only texts that miss the cache are sent. *)
Lemma embedTexts_requests texts st x st' :
  embedTexts env texts st = (x, st') ->
  exists reqs, requests st' = requests st ++ reqs /\
    Forall (fun req => forall s, s ∈ req_texts req ->
              exists t, t ∈ texts /\ map_get t (lru_map (cache st)) = None /\
                        s = truncate_input t) reqs.
Proof.
  destruct (embedTexts_unfold env texts st)
    as (results & st0 & _ & Hreq0 & _ & _ & _ & ->).
  destruct (length (uncached_of st texts) =? 0).
  - intros Hx. assert (st' = st0) as ->.
    { destruct (results !! 0) as [[first|]|]; by injection Hx. }
    exists []. by rewrite app_nil_r.
  - destruct (embed_batches env _ results None st0) as [out st1] eqn:Hb.
    apply embed_batches_requests in Hb as (reqs & Hr & Hs).
    intros Hx. assert (st' = st1) as ->.
    { destruct out as [[results' meta]|e]; by injection Hx. }
    exists reqs. split; [congruence|].
    eapply Forall_impl; [exact Hs|]. intros req (b & Hin & Hreq) s Hsin.
    rewrite Hreq in Hsin. apply list_elem_of_fmap in Hsin as (t & -> & Ht).
    exists t. split; [|split; [|done]].
    + apply list_elem_of_fmap in Hin as ([b' i'] & -> & Hin).
      apply elem_of_zip_l in Hin. cbn in Ht.
      apply (slices_fuel_elem _ _ t) in Hin; [|done].
      unfold uncached_of in Hin. apply list_elem_of_In, filter_In in Hin as [Hin _].
      by apply list_elem_of_In.
    + apply list_elem_of_fmap in Hin as ([b' i'] & -> & Hin).
      apply elem_of_zip_l in Hin. cbn in Ht.
      apply (slices_fuel_elem _ _ t) in Hin; [|done].
      unfold uncached_of in Hin. apply list_elem_of_In, filter_In in Hin as [_ Hin].
      rewrite map_has_get in Hin. by destruct (map_get t _).
Qed.

End RequestFacts.

(** ** The embedding gateway: the fallback of a call *)

Section CallTheorems.

Context {number : Type}.
Variable env : embed_env number.
Implicit Types (st : embed_state number) (texts batch : list jsstring).

(** On an empty list of texts [embedTexts] throws the [TypeError] of
    reading [dim] of the missing first entry; it returns no result. *)
Lemma embedTexts_empty_throws st :
  embedTexts env [] st = (Throw (undefined_read "dim"), st).
Proof. by destruct st. Qed.


End CallTheorems.



(** ** The embedding gateway: the order of the vectors *)

Section IndexSort.

Context {number : Type}.
Implicit Types (data : list (Z * vector number)).

Lemma indexed_sorted (f : jsstring -> vector number) texts : forall k,
  StronglySorted key_lt (imap (fun j t => (Z.of_nat (k + j), f t)) texts) /\
  Forall (fun a => (Z.of_nat k <= fst a)%Z)
         (imap (fun j t => (Z.of_nat (k + j), f t)) texts).
Proof.
  induction texts as [|t texts IH]; intros k; [by split; constructor|].
  rewrite imap_cons.
  rewrite (imap_ext _ (fun j t => (Z.of_nat (S k + j), f t)))
    by (intros; simpl; f_equal; lia).
  destruct (IH (S k)) as [Hs Hk]. split.
  - constructor; [done|]. eapply Forall_impl; [exact Hk|].
    intros a Ha. cbv beta in Ha. unfold key_lt. cbn [fst]. lia.
  - constructor; [cbn [fst]; lia|]. eapply Forall_impl; [exact Hk|].
    intros a Ha. cbv beta in Ha. lia.
Qed.

Lemma key_lt_NoDup data : StronglySorted key_lt data -> NoDup data.*1.
Proof.
  induction 1 as [|a data Hs IH Ha]; [constructor|]. cbn. constructor; [|done].
  intros (b & Hb & Hin)%list_elem_of_fmap. rewrite Forall_forall in Ha.
  specialize (Ha b Hin). unfold key_lt in Ha. lia.
Qed.

Lemma key_le_lt data :
  StronglySorted (fun a b => index_after a b = false) data -> NoDup data.*1 ->
  StronglySorted key_lt data.
Proof.
  induction 1 as [|a data Hs IH Ha]; [constructor|]. cbn.
  intros [Hnot Hnd]%NoDup_cons. constructor; [by apply IH|].
  rewrite Forall_forall in Ha |- *. intros b Hb. specialize (Ha b Hb).
  unfold index_after in Ha. apply Z.ltb_ge in Ha.
  assert (fst a <> fst b).
  { intros E. apply Hnot. rewrite E. by apply list_elem_of_fmap_2. }
  unfold key_lt. lia.
Qed.

Lemma sort_by_index (f : jsstring -> vector number) texts data :
  data ≡ₚ imap (fun j t => (Z.of_nat j, f t)) texts ->
  js_sort index_after data = imap (fun j t => (Z.of_nat j, f t)) texts.
Proof.
  intros Hperm.
  destruct (indexed_sorted f texts 0) as [Hsorted _]. cbn in Hsorted.
  assert (AntiSymm (=) (@key_lt number)) by (intros a b ? ?; unfold key_lt in *; lia).
  apply (StronglySorted_unique (@key_lt number)); [|done|by rewrite js_sort_perm].
  apply key_le_lt.
  - apply js_sort_sorted. split.
    + intros a b _ _. unfold index_after. intros ?%Z.ltb_lt. apply Z.ltb_ge. lia.
    + intros a b c _ _ _. unfold index_after. intros ?%Z.ltb_ge ?%Z.ltb_ge.
      apply Z.ltb_ge. lia.
  - rewrite js_sort_perm, Hperm. by apply key_lt_NoDup.
Qed.

End IndexSort.

Section Alignment.

Context {number : Type}.
Variable env : embed_env number.
Variables vecG vecO : jsstring -> vector number.
Hypothesis Haligned : providers_aligned env vecG vecO.
Implicit Types (st : embed_state number) (texts batch : list jsstring).

Lemma map_snd_imap {B C} (g : nat -> B) (f : jsstring -> C) texts :
  map snd (imap (fun j t => (g j, f t)) texts) = map f texts.
Proof.
  revert g. induction texts as [|t texts IH]; intros g; [done|].
  rewrite imap_cons. cbn. f_equal. apply (IH (g ∘ S)).
Qed.

Lemma embedGemini_aligned batch st r st' :
  embedGemini env batch st = (Ok r, st') ->
  pr_embeddings r = map vecG (map truncate_input batch).
Proof.
  unfold embedGemini. destruct (negb _); [discriminate|]. unfold bind, retry.
  destruct (retry_loop _ 3 st) as [[res|e] st1] eqn:Hr; [|discriminate].
  apply retry_loop_requests in Hr as (_ & _ & Hbody).
  destruct res as [[|embeddings|]|]; try discriminate.
  destruct (Hbody _ eq_refl) as (m & Hm).
  pose proof (Haligned m (mkRequest Gemini (map truncate_input batch))) as Ha.
  rewrite Hm in Ha. cbn in Ha.
  destruct embeddings as [|first rest]; [discriminate|]. by intros [= <- _].
Qed.

Lemma embedOpenAI_aligned batch st r st' :
  embedOpenAI env batch st = (Ok r, st') ->
  pr_embeddings r = map vecO (map truncate_input batch).
Proof.
  unfold embedOpenAI. destruct (negb _); [discriminate|]. unfold bind, retry.
  destruct (retry_loop _ 3 st) as [[res|e] st1] eqn:Hr; [|discriminate].
  apply retry_loop_requests in Hr as (_ & _ & Hbody).
  destruct res as [[| |data]|]; try discriminate.
  destruct (Hbody _ eq_refl) as (m & Hm).
  pose proof (Haligned m (mkRequest OpenAI (map truncate_input batch))) as Ha.
  rewrite Hm in Ha. cbn in Ha. rewrite (sort_by_index _ _ _ Ha).
  destruct (imap _ _) as [|first rest] eqn:E; [discriminate|].
  intros Hx. inversion Hx; subst. cbn [pr_embeddings].
  change (first.2 :: map snd rest) with (map snd (first :: rest)). rewrite <- E.
  apply map_snd_imap.
Qed.

Lemma embedBatch_aligned batch st r st' :
  embedBatch env batch st = (Ok r, st') ->
  pr_embeddings r = map vecG (map truncate_input batch) \/
  pr_embeddings r = map vecO (map truncate_input batch).
Proof.
  unfold embedBatch, try_catch.
  destruct (embedGemini env batch st) as [[r1|g] st1] eqn:Hg.
  - intros [= <- <-]. left. by eapply embedGemini_aligned.
  - destruct (embedOpenAI env batch st1) as [[r2|o] st2] eqn:Ho; [|discriminate].
    intros [= <- <-]. right. by eapply embedOpenAI_aligned.
Qed.

Lemma store_batch_lookup (r : provider_result number) batch :
  forall j batchIdxs results st results' st',
  store_batch r j batch batchIdxs results st = (Ok results', st') ->
  NoDup (zip batch batchIdxs).*2 ->
  (forall idx, idx ∈ (zip batch batchIdxs).*2 -> idx < length results) ->
  length results' = length results /\
  (forall p, p ∉ (zip batch batchIdxs).*2 -> results' !! p = results !! p) /\
  (forall k t idx, zip batch batchIdxs !! k = Some (t, idx) ->
     results' !! idx =
       Some (Some (mkEntry (pr_embeddings r !! (j + k)) (pr_dim r)
                     (pr_provider r) (pr_model r)))).
Proof.
  induction batch as [|t batch IH]; intros j idxs results st results' st'.
  { intros [= <- <-] _ _. done. }
  destruct idxs as [|idx idxs]; [intros [= <- <-] _ _; done|].
  cbn [store_batch]. unfold bind at 1. rewrite cache_set_run. cbn [zip zip_with fmap list_fmap snd].
  intros Hrun [Hnot Hnd]%NoDup_cons Hlt.
  apply IH in Hrun as (Hlen & Hout & Hin); [|done|].
  2: { intros p Hp. rewrite length_insert. apply Hlt. apply elem_of_cons. by right. }
  assert (idx < length results) as Hidx by (apply Hlt, elem_of_cons; by left).
  split; [by rewrite Hlen, length_insert|]. split.
  - intros p Hp. apply not_elem_of_cons in Hp as [Hp1 Hp2].
    rewrite (Hout p Hp2). by apply list_lookup_insert_ne.
  - intros [|k] t' idx' Hk.
    + injection Hk as <- <-. rewrite (Hout idx Hnot), Nat.add_0_r.
      by apply list_lookup_insert_eq.
    + replace (j + S k) with (S j + k) by lia. by apply (Hin k t' idx').
Qed.

Lemma embed_batches_aligned batches : forall results meta st results' meta' st',
  embed_batches env batches results meta st = (Ok (results', meta'), st') ->
  NoDup (paired batches).*2 ->
  (forall idx, idx ∈ (paired batches).*2 -> idx < length results) ->
  length results' = length results /\
  (forall p, p ∉ (paired batches).*2 -> results' !! p = results !! p) /\
  (forall t idx, (t, idx) ∈ paired batches -> served vecG vecO t (results' !! idx)).
Proof.
  induction batches as [|[batch idxs] rest IH]; intros results meta st results' meta' st'.
  { intros [= <- <- <-] _ _. split; [done|]. split; [done|].
    intros t idx Hin. by apply elem_of_nil in Hin. }
  cbn [embed_batches]. unfold paired. cbn [map concat fst snd]. fold (paired rest).
  unfold bind at 1.
  destruct (embedBatch env batch st) as [[r|e] st1] eqn:Hb; [|discriminate].
  unfold bind at 1.
  destruct (store_batch r 0 batch idxs results st1) as [[results1|e] st2] eqn:Hs;
    [|discriminate].
  intros Hrest. rewrite fmap_app. intros (Hnd1 & Hdisj & Hnd2)%NoDup_app Hlt.
  apply store_batch_lookup in Hs as (Hlen1 & Hout1 & Hin1); [|done|].
  2: { intros idx Hidx. apply Hlt, elem_of_app. by left. }
  apply IH in Hrest as (Hlen2 & Hout2 & Hin2); [|done|].
  2: { intros idx Hidx. rewrite Hlen1. apply Hlt, elem_of_app. by right. }
  split; [congruence|]. split.
  - intros p [Hp1 Hp2]%not_elem_of_app. by rewrite (Hout2 p Hp2), (Hout1 p Hp1).
  - intros t idx [Hin | Hin]%elem_of_app; [|by apply Hin2].
    assert (idx ∉ (paired rest).*2) as Hnot.
    { apply Hdisj. apply list_elem_of_fmap. by exists (t, idx). }
    rewrite (Hout2 idx Hnot).
    apply list_elem_of_lookup in Hin as (k & Hk). rewrite (Hin1 k t idx Hk).
    eexists. split; [done|]. cbn [ce_embedding Nat.add].
    apply lookup_zip_Some in Hk as [Hk _].
    destruct (embedBatch_aligned _ _ _ _ Hb) as [-> | ->]; [left | right];
      by rewrite !list_lookup_fmap, Hk.
Qed.

End Alignment.

Lemma slices_fuel_enough {A} (size : nat) : forall fuel (l : list A),
  0 < size -> length l <= fuel -> slices_fuel fuel size l = slices size l.
Proof.
  unfold slices. induction fuel as [fuel IH] using lt_wf_ind. intros l Hsize Hlen.
  destruct l as [|a l]; [by destruct fuel|].
  destruct fuel as [|fuel]; [simpl in Hlen; lia|].
  cbn [slices_fuel length]. f_equal.
  assert (length (drop size (a :: l)) <= length l) as Hd.
  { rewrite length_drop. cbn [length]. lia. }
  rewrite (IH fuel) by (cbn [length] in Hlen; lia).
  rewrite (IH (length l)) by (cbn [length] in *; lia). done.
Qed.

Lemma slices_cons {A} (size : nat) (a : A) (l : list A) :
  0 < size ->
  slices size (a :: l) = take size (a :: l) :: slices size (drop size (a :: l)).
Proof.
  intros Hsize. unfold slices at 1. cbn [length slices_fuel]. f_equal.
  apply slices_fuel_enough; [done|]. rewrite length_drop. cbn [length]. lia.
Qed.

Lemma paired_slices (size : nat) :
  0 < size -> forall n (ts : list jsstring) (idxs : list nat),
  length ts = n -> length idxs = n ->
  paired (zip (slices size ts) (slices size idxs)) = zip ts idxs.
Proof.
  intros Hsize. induction n as [n IH] using lt_wf_ind. intros ts idxs Hts Hidxs.
  destruct ts as [|t ts], idxs as [|idx idxs]; try (simpl in *; lia); [done|].
  rewrite !slices_cons by done.
  remember (t :: ts) as ts' eqn:Ets. remember (idx :: idxs) as idxs' eqn:Eidxs.
  assert (0 < length ts') as Hpos by (subst ts'; cbn [length]; lia).
  unfold paired. cbn [zip zip_with map concat fst snd].
  fold (zip (slices size (drop size ts')) (slices size (drop size idxs'))).
  fold (paired (zip (slices size (drop size ts')) (slices size (drop size idxs')))).
  rewrite (IH (length (drop size ts'))).
  - etrans; [symmetry; apply zip_with_app; rewrite !length_take; lia|].
    by rewrite !take_drop.
  - rewrite length_drop. lia.
  - done.
  - rewrite !length_drop. lia.
Qed.

Section MissingPositions.

Context {number : Type}.
Implicit Types (st : embed_state number) (texts : list jsstring).

Lemma missing_positions_spec st texts : forall i,
  length (missing_positions st i texts) = length (uncached_of st texts) /\
  NoDup (missing_positions st i texts) /\
  (forall idx, idx ∈ missing_positions st i texts ->
     exists j t, idx = i + j /\ texts !! j = Some t /\
                 map_get t (lru_map (cache st)) = None) /\
  (forall j t, texts !! j = Some t -> map_get t (lru_map (cache st)) = None ->
     (t, i + j) ∈ zip (uncached_of st texts) (missing_positions st i texts)).
Proof.
  induction texts as [|t texts IH]; intros i.
  { split; [done|]. split; [constructor|]. split; [|done].
    intros idx Hin. by apply elem_of_nil in Hin. }
  destruct (IH (S i)) as (Hlen & Hnd & Hin & Hzip).
  cbn [missing_positions uncached_of List.filter]. fold (uncached_of st texts).
  rewrite map_has_get.
  destruct (map_get t (lru_map (cache st))) eqn:Et; cbn [negb].
  - split; [done|]. split; [done|]. split.
    + intros idx (j & t' & -> & Hj & Hn)%Hin. exists (S j), t'.
      split; [lia | done].
    + intros [|j] t' Hj Hn; [injection Hj as <-; congruence|].
      replace (i + S j) with (S i + j) by lia. by apply Hzip.
  - split; [cbn; by rewrite Hlen|]. split; [|split].
    + constructor; [|done]. intros (j & t' & Hj & _)%Hin. lia.
    + intros idx [-> | (j & t' & -> & Hj & Hn)%Hin]%elem_of_cons.
      * exists 0, t. split; [lia | done].
      * exists (S j), t'. split; [lia | done].
    + intros [|j] t' Hj Hn; cbn [zip zip_with].
      * injection Hj as <-. rewrite Nat.add_0_r. apply elem_of_cons. by left.
      * replace (i + S j) with (S i + j) by lia. apply elem_of_cons. right.
        by apply Hzip.
Qed.

End MissingPositions.

Section Order.

Context {number : Type}.
Variable env : embed_env number.
Implicit Types (st : embed_state number) (texts batch : list jsstring).

Lemma embeddings_of_lookup (results : results_array number) i e :
  results !! i = Some (Some e) -> embeddings_of results !! i = Some (ce_embedding e).
Proof. intros H. unfold embeddings_of. by rewrite list_lookup_fmap, H. Qed.

Lemma embeddings_of_length (results : results_array number) :
  length (embeddings_of results) = length results.
Proof. apply length_map. Qed.

Lemma uncached_nil_cached st texts j t :
  uncached_of st texts = [] -> texts !! j = Some t ->
  exists e, map_get t (lru_map (cache st)) = Some e.
Proof.
  intros Hnil Ht. destruct (map_get t (lru_map (cache st))) as [e|] eqn:E; [eauto|].
  assert (t ∈ uncached_of st texts) as Hin; [|rewrite Hnil in Hin; by apply elem_of_nil in Hin].
  apply list_elem_of_In, filter_In. split.
  - apply list_elem_of_In. by apply list_elem_of_lookup_2 in Ht.
  - by rewrite map_has_get, E.
Qed.

(** Position [i] of the result holds the cached vector of text [i], or
    the vector a provider has for it. *)
Lemma embedTexts_order vecG vecO texts st r st' :
  providers_aligned env vecG vecO ->
  embedTexts env texts st = (Ok r, st') ->
  length (er_embeddings r) = length texts /\
  forall i t, texts !! i = Some t ->
    match map_get t (lru_map (cache st)) with
    | Some e => er_embeddings r !! i = Some (ce_embedding e)
    | None =>
        er_embeddings r !! i = Some (Some (vecG (truncate_input t))) \/
        er_embeddings r !! i = Some (Some (vecO (truncate_input t)))
    end.
Proof.
  intros Haligned.
  destruct (embedTexts_unfold env texts st)
    as (results & st0 & _ & _ & _ & Hlen & Hres & ->).
  destruct (uncached_of st texts) as [|u unc] eqn:Eu.
  - (* every text is cached *)
    cbn [length Nat.eqb]. destruct (results !! 0) as [[first|]|]; [|done|done].
    intros [= <- <-]. cbn [er_embeddings].
    split; [by rewrite embeddings_of_length|]. intros i t Ht.
    destruct (uncached_nil_cached st texts i t Eu Ht) as [e He]. rewrite He.
    apply embeddings_of_lookup. by rewrite (Hres i t Ht), He.
  - cbn [length Nat.eqb]. rewrite <- Eu.
    destruct (missing_positions_spec st texts 0) as (Hl & Hnd & Hin & Hzip).
    destruct (embed_batches env _ results None st0) as [[[results' meta]|e] st1] eqn:Hb;
      [|discriminate].
    intros [= <- <-]. cbn [er_embeddings].
    apply (embed_batches_aligned env vecG vecO Haligned) in Hb.
    + rewrite (paired_slices BATCH_SIZE ltac:(unfold BATCH_SIZE; lia) _ _ _ eq_refl Hl) in Hb.
      rewrite snd_zip in Hb by lia.
      destruct Hb as (Hlen' & Hout & Hserved).
      split; [by rewrite embeddings_of_length, Hlen', Hlen|]. intros i t Ht.
      destruct (map_get t (lru_map (cache st))) as [e|] eqn:E.
      * apply embeddings_of_lookup. rewrite Hout; [by rewrite (Hres i t Ht), E|].
        intros (j & t' & -> & Hj & Hn)%Hin. cbn [Nat.add] in Ht. congruence.
      * destruct (Hserved t i (Hzip i t Ht E)) as (e & He & Hvec).
        rewrite (embeddings_of_lookup _ _ _ He).
        destruct Hvec as [-> | ->]; [by left | by right].
    + rewrite (paired_slices BATCH_SIZE ltac:(unfold BATCH_SIZE; lia) _ _ _ eq_refl Hl).
      by rewrite snd_zip by lia.
    + rewrite (paired_slices BATCH_SIZE ltac:(unfold BATCH_SIZE; lia) _ _ _ eq_refl Hl).
      rewrite snd_zip by lia. intros idx (j & t & -> & Hj & _)%Hin.
      rewrite Hlen. cbn [Nat.add]. by apply lookup_lt_Some in Hj.
Qed.

End Order.

Section Again.

Context {number : Type}.
Variable env : embed_env number.
Implicit Types (st : embed_state number) (texts batch : list jsstring).

Lemma embedTexts_single_cached t st e :
  map_get t (lru_map (cache st)) = Some e ->
  exists st',
    embedTexts env [t] st =
      (Ok (mkEmbedResult [ce_embedding e] (Some (ce_dim e))
             (Some (ce_provider e)) (Some (ce_model e))), st') /\
    requests st' = requests st /\ same_entries st' st.
Proof.
  intros He.
  destruct (embedTexts_unfold env [t] st)
    as (results & st0 & _ & Hreq & Hsame & Hlen & Hres & ->).
  assert (uncached_of st [t] = []) as ->.
  { unfold uncached_of. cbn [List.filter]. by rewrite map_has_get, He. }
  pose proof (Hres 0 t eq_refl) as H0. rewrite He in H0.
  destruct results as [|x [|y results]]; try discriminate. injection H0 as ->.
  exists st0. done.
Qed.

(** A text embedded by one call is served from the cache by the next
    call, without any request. *)
Lemma embedTexts_again t st r st1 :
  embedTexts env [t] st = (Ok r, st1) ->
  exists r' st2,
    embedTexts env [t] st1 = (Ok r', st2) /\
    requests st2 = requests st1 /\
    er_embeddings r' = er_embeddings r.
Proof.
  destruct (map_get t (lru_map (cache st))) as [e|] eqn:He.
  - destruct (embedTexts_single_cached t st e He) as (st' & -> & _ & Hsame).
    intros [= <- <-]. rewrite <- Hsame in He.
    destruct (embedTexts_single_cached t st' e He) as (st2 & -> & Hreq & _).
    by eexists _, _.
  - destruct (embedTexts_unfold env [t] st)
      as (results & st0 & _ & _ & _ & Hlen & _ & ->).
    assert (uncached_of st [t] = [t]) as ->.
    { unfold uncached_of. cbn [List.filter]. by rewrite map_has_get, He. }
    assert (missing_positions st 0 [t] = [0]) as ->.
    { cbn [missing_positions]. by rewrite map_has_get, He. }
    destruct results as [|x [|y results]]; try discriminate.
    cbn [length Nat.eqb]. unfold slices. cbn [length slices_fuel].
    unfold BATCH_SIZE. cbn [take drop zip zip_with embed_batches].
    unfold bind at 1.
    destruct (embedBatch env [t] st0) as [[pr|err] stb] eqn:Hb; [|discriminate].
    cbn [store_batch]. unfold bind, cache_set, ret, finish_call.
    cbn [insert list_insert]. intros [= <- <-]. cbn [er_embeddings embeddings_of map].
    set (entry := mkEntry (pr_embeddings pr !! 0) (pr_dim pr) (pr_provider pr) (pr_model pr)).
    set (st1 := mkEmbedState (lru_set t entry (cache stb)) (requests stb)).
    destruct (embedTexts_single_cached t st1 entry) as (st2 & -> & Hreq & _).
    { apply lru_set_found. }
    by eexists _, _.
Qed.

End Again.

(** ** The embedding gateway: what the cache keeps *)

Section Retention.

Context {number : Type}.
Implicit Types (m old rec : js_map number) (c : LRUCache number) (k key : jsstring).

Lemma map_get_key k m : k ∈ m.*1 <-> is_Some (map_get k m).
Proof.
  induction m as [|[k' v] m IH]; cbn.
  - split; [by intros ?%elem_of_nil | by intros [? ?]].
  - rewrite elem_of_cons, IH. eqb_cases k' k.
    + subst. split; [eauto | by left].
    + split; [by intros [?|?] | by right].
Qed.

Lemma map_delete_app k old rec :
  map_delete k (old ++ rec) = map_delete k old ++ map_delete k rec.
Proof. apply List.filter_app. Qed.

Lemma map_delete_keys k k' m : k' ∈ (map_delete k m).*1 <-> k' ∈ m.*1 /\ k' <> k.
Proof.
  rewrite !map_get_key, map_get_delete. eqb_cases k k'.
  - subst. split; [by intros [? ?] | by intros [_ ?]].
  - split; [intros ?; split; [done | congruence] | by intros [? _]].
Qed.

Lemma map_delete_absent k m : k ∉ m.*1 -> map_delete k m = m.
Proof.
  unfold map_delete. induction m as [|[k' v] m IH]; cbn; [done|].
  intros [Hne Hnot]%not_elem_of_cons. rewrite jsstring_eqb_false by done. cbn.
  by rewrite IH.
Qed.

Lemma map_delete_NoDup k m : NoDup m.*1 -> NoDup (map_delete k m).*1.
Proof.
  induction m as [|[k' v] m IH]; cbn; [done|].
  intros [Hnot Hnd]%NoDup_cons. destruct (negb _); [|by apply IH].
  cbn. apply NoDup_cons. split; [|by apply IH].
  fold (map_delete k m). rewrite map_delete_keys. by intros [? _].
Qed.

Lemma map_set_absent k v m : k ∉ m.*1 -> map_set k v m = m ++ [(k, v)].
Proof.
  induction m as [|[k' v'] m IH]; cbn; [done|].
  intros [Hne Hnot]%not_elem_of_cons. rewrite jsstring_eqb_false by done.
  by rewrite IH.
Qed.

(** Moving a key to the end of the cache. *)
Lemma touch_recently_used U T c k v :
  recently_used U T c -> k ∈ U ->
  recently_used U (k :: T)
    (mkLRU (lru_max c) (map_set k v (map_delete k (lru_map c)))).
Proof.
  intros (Hnd & old & rec & Hm & HU & HT) Hk. cbn [lru_map].
  assert (k ∉ (map_delete k (lru_map c)).*1) as Hnot.
  { rewrite map_delete_keys. by intros [_ ?]. }
  rewrite (map_set_absent _ _ _ Hnot). split.
  - cbn [lru_map]. rewrite fmap_app. apply NoDup_app. split; [by apply map_delete_NoDup|].
    split; [|apply NoDup_singleton]. by intros x Hx ->%list_elem_of_singleton.
  - exists (map_delete k old), (map_delete k rec ++ [(k, v)]). cbn [lru_map].
    split; [by rewrite Hm, map_delete_app, app_assoc|]. rewrite fmap_app. split.
    + intros x [[Hx _]%map_delete_keys | ->%list_elem_of_singleton]%elem_of_app;
        [by apply HU | done].
    + intros x [-> | Hx]%elem_of_cons; apply elem_of_app.
      * right. by apply list_elem_of_singleton.
      * destruct (decide (x = k)) as [-> | Hne].
        -- right. by apply list_elem_of_singleton.
        -- left. apply map_delete_keys. split; [by apply HT | done].
Qed.

Lemma lru_get_hit_recently_used U T c k v :
  recently_used U T c -> k ∈ U -> map_get k (lru_map c) = Some v ->
  recently_used U (k :: T) (snd (lru_get k c)).
Proof.
  intros Hr Hk Hv. unfold lru_get. rewrite map_has_get, Hv. cbn [negb snd].
  by apply touch_recently_used.
Qed.

Lemma lru_get_miss k c : map_get k (lru_map c) = None -> snd (lru_get k c) = c.
Proof. intros Hv. unfold lru_get. by rewrite map_has_get, Hv. Qed.

Lemma lru_get_max k c : lru_max (snd (lru_get k c)) = lru_max c.
Proof.
  unfold lru_get. destruct (negb _); [done|]. by destruct (map_get k (lru_map c)).
Qed.

Lemma recently_used_length (U : list jsstring) c old rec :
  NoDup (lru_map c).*1 -> lru_map c = old ++ rec -> rec.*1 ⊆ U ->
  forall k, k ∈ U -> k ∉ (lru_map c).*1 -> S (length rec) <= length (remove_dups U).
Proof.
  intros Hnd Hm HU k Hk Hnot. rewrite Hm, fmap_app in Hnd, Hnot.
  apply NoDup_app in Hnd as (_ & _ & Hnd). apply not_elem_of_app in Hnot as [_ Hnot].
  rewrite <- (length_fmap fst rec).
  change (S (length rec.*1)) with (length (k :: rec.*1)).
  apply submseteq_length, NoDup_submseteq; [by apply NoDup_cons|].
  intros x [-> | Hx]%elem_of_cons; apply elem_of_remove_dups; [done | by apply HU].
Qed.

(** [set] never evicts a recently used key while the keys in use are at
    most [max]. *)
Lemma lru_set_recently_used U T c k v :
  recently_used U T c -> k ∈ U -> length (remove_dups U) <= lru_max c ->
  recently_used U (k :: T) (lru_set k v c) /\
  (forall k', k' ∈ T -> k' <> k ->
     map_get k' (lru_map (lru_set k v c)) = map_get k' (lru_map c)).
Proof.
  intros Hr Hk Hmax. unfold lru_set. rewrite map_has_get.
  destruct (map_get k (lru_map c)) as [v0|] eqn:Hv.
  { split; [by apply touch_recently_used|]. intros k' _ Hne. cbn [lru_map].
    rewrite map_get_set, map_get_delete. by rewrite !jsstring_eqb_false. }
  assert (k ∉ (lru_map c).*1) as Hnot.
  { rewrite map_get_key, Hv. by intros [? ?]. }
  destruct Hr as (Hnd & old & rec & Hm & HU & HT).
  pose proof (recently_used_length U c old rec Hnd Hm HU k Hk Hnot) as Hlen.
  destruct (lru_max c <=? length (lru_map c)) eqn:Hfull.
  - apply Nat.leb_le in Hfull. rewrite Hm, length_app in Hfull.
    destruct old as [|[first v1] old]; [cbn [length] in Hfull; lia|].
    rewrite Hm. cbn [app]. rewrite Hm in Hnd, Hnot. cbn in Hnd, Hnot.
    apply NoDup_cons in Hnd as [Hfirst Hnd]. apply not_elem_of_cons in Hnot as [Hne Hnot].
    assert (map_delete first ((first, v1) :: old ++ rec) = old ++ rec) as ->.
    { unfold map_delete. cbn [List.filter fst]. rewrite jsstring_eqb_refl. cbn [negb].
      by apply map_delete_absent. }
    split.
    + rewrite (map_set_absent _ _ _ Hnot). split.
      * cbn [lru_map]. rewrite fmap_app. apply NoDup_app. split; [done|].
        split; [|apply NoDup_singleton]. by intros x Hx ->%list_elem_of_singleton.
      * exists old, (rec ++ [(k, v)]). cbn [lru_map]. split; [by rewrite app_assoc|].
        rewrite fmap_app. split.
        -- intros x [Hx | ->%list_elem_of_singleton]%elem_of_app; [by apply HU | done].
        -- intros x [-> | Hx]%elem_of_cons; apply elem_of_app;
             [right; by apply list_elem_of_singleton | left; by apply HT].
    + intros k' Hk' Hne'. cbn [lru_map]. rewrite map_get_set, jsstring_eqb_false by done.
      cbn [map_get]. rewrite jsstring_eqb_false; [done|].
      intros ->. apply Hfirst. rewrite fmap_app. apply elem_of_app. right. by apply HT.
  - split.
    + rewrite (map_set_absent _ _ _ Hnot). split.
      * cbn [lru_map]. rewrite fmap_app. apply NoDup_app. split; [done|].
        split; [|apply NoDup_singleton]. by intros x Hx ->%list_elem_of_singleton.
      * exists old, (rec ++ [(k, v)]). cbn [lru_map].
        split; [by rewrite Hm, app_assoc|]. rewrite fmap_app. split.
        -- intros x [Hx | ->%list_elem_of_singleton]%elem_of_app; [by apply HU | done].
        -- intros x [-> | Hx]%elem_of_cons; apply elem_of_app;
             [right; by apply list_elem_of_singleton | left; by apply HT].
    + intros k' Hk' Hne'. cbn [lru_map]. rewrite map_get_set. by rewrite jsstring_eqb_false.
Qed.

Lemma lru_set_max k v c : lru_max (lru_set k v c) = lru_max c.
Proof. done. Qed.

Lemma recently_used_present U T c k :
  recently_used U T c -> k ∈ T -> is_Some (map_get k (lru_map c)).
Proof.
  intros (_ & old & rec & Hm & _ & HT) Hk. apply map_get_key.
  rewrite Hm, fmap_app. apply elem_of_app. right. by apply HT.
Qed.

Lemma recently_used_weaken U T T' c :
  recently_used U T c -> T' ⊆ T -> recently_used U T' c.
Proof.
  intros (Hnd & old & rec & Hm & HU & HT) Hsub. split; [done|].
  exists old, rec. split; [done|]. split; [done|]. by etrans.
Qed.

End Retention.

Section RetentionCall.

Context {number : Type}.
Variable env : embed_env number.
Implicit Types (st : embed_state number) (texts batch U T : list jsstring).

Lemma scan_cache_recently_used U texts : forall T i acc st out st',
  scan_cache texts i acc st = (out, st') ->
  texts ⊆ U -> recently_used U T (cache st) ->
  lru_max (cache st') = lru_max (cache st) /\
  exists T', recently_used U T' (cache st') /\ T ⊆ T' /\
    forall t, t ∈ texts -> is_Some (map_get t (lru_map (cache st))) -> t ∈ T'.
Proof.
  induction texts as [|t texts IH]; intros T i [[results unc] idx] st out st'.
  { intros [= <- <-] _ Hr. split; [done|]. exists T. split; [done|]. split; [done|].
    by intros t ?%elem_of_nil. }
  cbn [scan_cache]. unfold bind at 1. rewrite cache_get_run. cbv beta iota.
  intros Hrun Hsub Hr.
  assert (t ∈ U) as Ht by (apply Hsub, elem_of_cons; by left).
  assert (texts ⊆ U) as Hsub' by (intros x Hx; apply Hsub, elem_of_cons; by right).
  destruct (map_get t (lru_map (cache st))) as [e|] eqn:Et.
  - apply (IH (t :: T)) in Hrun as (Hmax & T' & Hr' & HT & Hhit); [|done|].
    2: { cbn [cache]. by eapply lru_get_hit_recently_used. }
    cbn [cache] in Hmax. rewrite lru_get_max in Hmax. split; [done|].
    exists T'. split; [done|]. split.
    + intros x Hx. apply HT, elem_of_cons. by right.
    + intros x [-> | Hx]%elem_of_cons Hsome; [apply HT, elem_of_cons; by left|].
      apply Hhit; [done|]. cbn [cache]. by rewrite lru_get_keeps.
  - apply (IH T) in Hrun as (Hmax & T' & Hr' & HT & Hhit); [|done|].
    2: { cbn [cache]. by rewrite lru_get_miss. }
    cbn [cache] in Hmax. rewrite lru_get_max in Hmax. split; [done|].
    exists T'. split; [done|]. split; [done|].
    intros x [-> | Hx]%elem_of_cons Hsome; [rewrite Et in Hsome; by destruct Hsome|].
    apply Hhit; [done|]. cbn [cache]. by rewrite lru_get_keeps.
Qed.

Lemma store_batch_recently_used U (r : provider_result number) batch :
  forall T j batchIdxs results st results' st',
  store_batch r j batch batchIdxs results st = (Ok results', st') ->
  (zip batch batchIdxs).*1 ⊆ U -> length (remove_dups U) <= lru_max (cache st) ->
  recently_used U T (cache st) ->
  lru_max (cache st') = lru_max (cache st) /\
  recently_used U ((zip batch batchIdxs).*1 ++ T) (cache st') /\
  (forall k, k ∈ T -> k ∉ (zip batch batchIdxs).*1 ->
     map_get k (lru_map (cache st')) = map_get k (lru_map (cache st))) /\
  (NoDup (zip batch batchIdxs).*1 ->
   forall p t idx, zip batch batchIdxs !! p = Some (t, idx) ->
     map_get t (lru_map (cache st')) =
       Some (mkEntry (pr_embeddings r !! (j + p)) (pr_dim r) (pr_provider r) (pr_model r))).
Proof.
  induction batch as [|t batch IH]; intros T j idxs results st results' st'.
  { intros [= <- <-] _ _ Hr. done. }
  destruct idxs as [|idx idxs]; [intros [= <- <-] _ _ Hr; done|].
  cbn [store_batch]. unfold bind at 1. rewrite cache_set_run.
  cbn [zip zip_with fmap list_fmap fst]. intros Hrun Hsub Hmax Hr.
  assert (t ∈ U) as Ht by (apply Hsub, elem_of_cons; by left).
  set (entry := mkEntry (pr_embeddings r !! j) (pr_dim r) (pr_provider r) (pr_model r)) in *.
  destruct (lru_set_recently_used U T (cache st) t entry Hr Ht Hmax) as [Hr1 Hkeep1].
  apply (IH (t :: T)) in Hrun as (Hmax' & Hr' & Hkeep & Hval); [|by intros x Hx; apply Hsub, elem_of_cons; right|done|done].
  cbn [cache] in Hmax', Hkeep. split; [done|]. split; [|split].
  - eapply recently_used_weaken; [exact Hr'|].
    intros x [-> | [Hx | Hx]%elem_of_app]%elem_of_cons; apply elem_of_app.
    + right. apply elem_of_cons. by left.
    + by left.
    + right. apply elem_of_cons. by right.
  - intros k Hk [Hne Hnot]%not_elem_of_cons.
    rewrite Hkeep; [by apply Hkeep1| apply elem_of_cons; by right | done].
  - intros [Hnot Hnd]%NoDup_cons [|p] t' idx' Hp.
    + injection Hp as <- <-. rewrite Nat.add_0_r.
      rewrite Hkeep; [apply lru_set_found | apply elem_of_cons; by left | done].
    + replace (j + S p) with (S j + p) by lia. by apply (Hval Hnd p t' idx').
Qed.

Lemma embed_batches_recently_used U batches : forall T results meta st results' meta' st',
  embed_batches env batches results meta st = (Ok (results', meta'), st') ->
  (paired batches).*1 ⊆ U -> length (remove_dups U) <= lru_max (cache st) ->
  recently_used U T (cache st) ->
  NoDup (paired batches).*2 ->
  (forall idx, idx ∈ (paired batches).*2 -> idx < length results) ->
  recently_used U ((paired batches).*1 ++ T) (cache st') /\
  length results' = length results /\
  (forall p, p ∉ (paired batches).*2 -> results' !! p = results !! p) /\
  (forall k, k ∈ T -> k ∉ (paired batches).*1 ->
     map_get k (lru_map (cache st')) = map_get k (lru_map (cache st))) /\
  (NoDup (paired batches).*1 ->
   forall t idx, (t, idx) ∈ paired batches ->
     exists e, results' !! idx = Some (Some e) /\ map_get t (lru_map (cache st')) = Some e).
Proof.
  induction batches as [|[batch idxs] rest IH]; intros T results meta st results' meta' st'.
  { intros [= <- <- <-] _ _ Hr _ _. split; [done|]. split; [done|]. split; [done|].
    split; [done|]. intros _ t idx Hin. by apply elem_of_nil in Hin. }
  cbn [embed_batches]. unfold paired. cbn [map concat fst snd]. fold (paired rest).
  unfold bind at 1.
  destruct (embedBatch env batch st) as [[r|e] st1] eqn:Hb; [|discriminate].
  destruct (embedBatch_requests env Hb) as (Hc1 & _).
  unfold bind at 1.
  destruct (store_batch r 0 batch idxs results st1) as [[results1|e] st2] eqn:Hs;
    [|discriminate].
  intros Hrest. rewrite !fmap_app. intros Hsub Hmax Hr (Hnd1 & Hdisj & Hnd2)%NoDup_app Hlt.
  pose proof Hs as Hs'.
  apply store_batch_lookup in Hs' as (Hlen1 & Hout1 & Hin1); [|done|].
  2: { intros idx Hidx. apply Hlt, elem_of_app. by left. }
  apply (store_batch_recently_used U r batch T) in Hs as (Hmax1 & Hr1 & Hkeep1 & Hval1);
    [| by intros x Hx; apply Hsub, elem_of_app; left | by rewrite Hc1 | by rewrite Hc1].
  apply (IH ((zip batch idxs).*1 ++ T)) in Hrest as (Hr2 & Hlen2 & Hout2 & Hkeep2 & Hval2);
    [| by intros x Hx; apply Hsub, elem_of_app; right | by rewrite Hmax1, Hc1 | done | done |].
  2: { intros idx Hidx. rewrite Hlen1. apply Hlt, elem_of_app. by right. }
  split; [|split; [congruence|split; [|split]]].
  - eapply recently_used_weaken; [exact Hr2|]. intros x Hx.
    rewrite !elem_of_app in Hx |- *. tauto.
  - intros p [Hp1 Hp2]%not_elem_of_app. by rewrite (Hout2 p Hp2), (Hout1 p Hp1).
  - intros k Hk [Hk1 Hk2]%not_elem_of_app.
    rewrite Hkeep2; [|apply elem_of_app; by right | done].
    rewrite Hkeep1 by done. by rewrite Hc1.
  - intros (Hndt1 & Hdisjt & Hndt2)%NoDup_app t idx [Hin | Hin]%elem_of_app;
      [|by apply Hval2].
    assert (idx ∉ (paired rest).*2) as Hnot.
    { apply Hdisj. apply list_elem_of_fmap. by exists (t, idx). }
    assert (t ∉ (paired rest).*1) as Hnott.
    { apply Hdisjt. apply list_elem_of_fmap. by exists (t, idx). }
    rewrite (Hout2 idx Hnot).
    rewrite Hkeep2; [|apply elem_of_app; left; apply list_elem_of_fmap; by exists (t, idx) | done].
    apply list_elem_of_lookup in Hin as (p & Hp).
    rewrite (Hin1 p t idx Hp), (Hval1 Hndt1 p t idx Hp). by eexists.
Qed.

End RetentionCall.

Section RetentionTheorems.

Context {number : Type}.
Variable env : embed_env number.
Implicit Types (st : embed_state number) (texts batch U T : list jsstring).

Lemma recently_used_start U st :
  NoDup (lru_map (cache st)).*1 -> recently_used U [] (cache st).
Proof.
  intros Hnd. split; [done|]. exists (lru_map (cache st)), [].
  split; [by rewrite app_nil_r|]. split; by intros x ?%elem_of_nil.
Qed.

(** After a call that returned, the cache holds an entry for each text of
    the call, provided the cache has room for them; for texts without
    repetition it is the entry whose vector the call returned. *)
Lemma embedTexts_retention texts st r st' :
  embedTexts env texts st = (Ok r, st') ->
  NoDup (lru_map (cache st)).*1 ->
  length (remove_dups texts) <= lru_max (cache st) ->
  NoDup (lru_map (cache st')).*1 /\
  length (er_embeddings r) = length texts /\
  (forall t, t ∈ texts -> is_Some (map_get t (lru_map (cache st')))) /\
  (NoDup texts -> forall i t, texts !! i = Some t ->
     exists e, map_get t (lru_map (cache st')) = Some e /\
               er_embeddings r !! i = Some (ce_embedding e)).
Proof.
  intros Hrun Hnd Hmax. revert Hrun.
  destruct (embedTexts_unfold env texts st)
    as (results & st0 & Hscan & _ & Hsame & Hlen & Hres & ->).
  apply (scan_cache_recently_used texts texts []) in Hscan
    as (Hmax0 & T0 & Hr0 & _ & Hhit); [|done|by apply recently_used_start].
  destruct (uncached_of st texts) as [|u unc] eqn:Eu.
  - cbn [length Nat.eqb]. destruct (results !! 0) as [[first|]|]; [|done|done].
    intros [= <- <-]. cbn [er_embeddings]. split; [apply Hr0|].
    split; [by rewrite embeddings_of_length|].
    assert (forall i t, texts !! i = Some t ->
              exists e, map_get t (lru_map (cache st0)) = Some e /\
                        embeddings_of results !! i = Some (ce_embedding e)) as Hall.
    { intros i t Ht. destruct (uncached_nil_cached st texts i t Eu Ht) as [e He].
      exists e. split; [by rewrite Hsame|].
      apply embeddings_of_lookup. by rewrite (Hres i t Ht), He. }
    split; [|by intros _].
    intros t (i & Hi)%list_elem_of_lookup. destruct (Hall i t Hi) as (e & -> & _). eauto.
  - cbn [length Nat.eqb]. rewrite <- Eu.
    destruct (missing_positions_spec st texts 0) as (Hl & Hndi & Hin & Hzip).
    destruct (embed_batches env _ results None st0) as [[[results' meta]|e] st1] eqn:Hb;
      [|discriminate].
    unfold finish_call. intros [= <- <-]. cbn [er_embeddings].
    pose proof (paired_slices BATCH_SIZE ltac:(unfold BATCH_SIZE; lia) _ _ _ eq_refl Hl)
      as Hpaired.
    assert (forall x, x ∈ uncached_of st texts -> x ∈ texts) as Hunc.
    { intros x Hx. unfold uncached_of in Hx.
      apply list_elem_of_In, filter_In in Hx as [Hx _]. by apply list_elem_of_In. }
    apply (embed_batches_recently_used env texts _ T0) in Hb
      as (Hr1 & Hlen1 & Hout & Hkeep & Hval).
    2: { rewrite Hpaired, fst_zip by lia. exact Hunc. }
    2: { by rewrite Hmax0. }
    2: { done. }
    2: { by rewrite Hpaired, snd_zip by lia. }
    2: { rewrite Hpaired, snd_zip by lia. intros idx (j & t & -> & Hj & _)%Hin.
         rewrite Hlen. cbn [Nat.add]. by apply lookup_lt_Some in Hj. }
    rewrite Hpaired in Hr1, Hout, Hkeep, Hval.
    rewrite fst_zip in Hr1, Hkeep, Hval by lia. rewrite snd_zip in Hout by lia.
    split; [apply Hr1|]. split; [by rewrite embeddings_of_length, Hlen1, Hlen|]. split.
    + intros t Ht. apply (recently_used_present texts _ _ t Hr1), elem_of_app.
      destruct (map_get t (lru_map (cache st))) as [e|] eqn:E.
      * right. apply Hhit; [done|]. by rewrite E.
      * left. unfold uncached_of. apply list_elem_of_In, filter_In.
        split; [by apply list_elem_of_In|]. by rewrite map_has_get, E.
    + intros Hndt i t Ht.
      assert (NoDup (uncached_of st texts)) as Hndu.
      { unfold uncached_of. by apply NoDup_ListNoDup, List.NoDup_filter, NoDup_ListNoDup. }
      destruct (map_get t (lru_map (cache st))) as [e|] eqn:E.
      * exists e. split.
        -- rewrite Hkeep; [by rewrite Hsame| |].
           ++ apply Hhit; [by apply list_elem_of_lookup_2 in Ht | by rewrite E].
           ++ unfold uncached_of. intros [_ Hx]%list_elem_of_In%filter_In.
              by rewrite map_has_get, E in Hx.
        -- apply embeddings_of_lookup. rewrite Hout; [by rewrite (Hres i t Ht), E|].
           intros (j & t' & -> & Hj & Hn)%Hin. cbn [Nat.add] in Ht. congruence.
      * destruct (Hval Hndu t i (Hzip i t Ht E)) as (e & He & Hget).
        exists e. split; [done|]. by apply embeddings_of_lookup.
Qed.

Lemma uncached_of_nil st texts :
  (forall t, t ∈ texts -> is_Some (map_get t (lru_map (cache st)))) ->
  uncached_of st texts = [].
Proof.
  unfold uncached_of. induction texts as [|t texts IH]; intros Hall; [done|].
  cbn [List.filter]. rewrite map_has_get.
  destruct (Hall t) as [e ->]; [apply elem_of_cons; by left|]. cbn [negb].
  apply IH. intros x Hx. apply Hall, elem_of_cons. by right.
Qed.

(** Texts embedded by one call are answered from the cache by the next
    call, without any request. *)
Lemma embedTexts_twice texts st r st1 :
  embedTexts env texts st = (Ok r, st1) ->
  NoDup (lru_map (cache st)).*1 ->
  length (remove_dups texts) <= lru_max (cache st) ->
  exists r' st2,
    embedTexts env texts st1 = (Ok r', st2) /\
    requests st2 = requests st1 /\
    (NoDup texts -> er_embeddings r' = er_embeddings r).
Proof.
  intros Hrun Hnd Hmax.
  destruct (embedTexts_retention texts st r st1 Hrun Hnd Hmax) as (_ & Hlen & Hall & Hval).
  pose proof (uncached_of_nil st1 texts Hall) as Hnil.
  destruct (embedTexts_unfold env texts st1)
    as (results & st2 & _ & Hreq & _ & Hlen2 & Hres & ->).
  rewrite Hnil. cbn [length Nat.eqb].
  destruct texts as [|t0 texts'] eqn:Et.
  { rewrite embedTexts_empty_throws in Hrun. discriminate. }
  rewrite <- Et in *.
  assert (texts !! 0 = Some t0) as H0 by (by rewrite Et).
  pose proof (Hres 0 t0 H0) as Hfirst.
  destruct (Hall t0) as [e0 He0]; [by apply list_elem_of_lookup_2 in H0|].
  rewrite He0 in Hfirst. rewrite Hfirst. eexists _, _. split; [done|]. split; [done|].
  intros Hndt. cbn [er_embeddings]. apply list_eq. intros i.
  destruct (texts !! i) as [t|] eqn:Ht.
  - destruct (Hval Hndt i t Ht) as (e & He & ->).
    apply embeddings_of_lookup. by rewrite (Hres i t Ht), He.
  - apply lookup_ge_None in Ht.
    rewrite !lookup_ge_None_2; [done | by rewrite Hlen | by rewrite embeddings_of_length, Hlen2].
Qed.

End RetentionTheorems.

Section CacheTheorem.

Context {number : Type}.
Variable env : embed_env number.
Implicit Types (st : embed_state number) (texts batch : list jsstring).

(** C4: every text sent to a provider is an input text that missed the
    cache (cut to [MAX_INPUT]), and nothing is sent when every text hits;
    with providers that keep to their interface, position [i] of the result
    holds the cached vector of text [i] or the vector a provider has for it;
    a text embedded by one call is answered from the cache by the next
    call, without a request; and so are the texts of any call that the
    cache has room for, with the same vectors when no text is repeated. *)
Theorem embedTexts_cache_and_order texts st x st' :
  embedTexts env texts st = (x, st') ->
  (exists reqs, requests st' = requests st ++ reqs /\
     Forall (fun req => forall s, s ∈ req_texts req ->
               exists t, t ∈ texts /\ map_get t (lru_map (cache st)) = None /\
                         s = truncate_input t) reqs) /\
  (uncached_of st texts = [] -> requests st' = requests st) /\
  (forall vecG vecO r, providers_aligned env vecG vecO -> x = Ok r ->
     length (er_embeddings r) = length texts /\
     forall i t, texts !! i = Some t ->
       match map_get t (lru_map (cache st)) with
       | Some e => er_embeddings r !! i = Some (ce_embedding e)
       | None =>
           er_embeddings r !! i = Some (Some (vecG (truncate_input t))) \/
           er_embeddings r !! i = Some (Some (vecO (truncate_input t)))
       end) /\
  (forall t r, texts = [t] -> x = Ok r ->
     exists r' st2,
       embedTexts env [t] st' = (Ok r', st2) /\
       requests st2 = requests st' /\
       er_embeddings r' = er_embeddings r) /\
  (forall r, x = Ok r ->
     NoDup (lru_map (cache st)).*1 ->
     length (remove_dups texts) <= lru_max (cache st) ->
     exists r' st2,
       embedTexts env texts st' = (Ok r', st2) /\
       requests st2 = requests st' /\
       (NoDup texts -> er_embeddings r' = er_embeddings r)).
Proof.
  intros Hrun. split; [by eapply embedTexts_requests|]. split; [|split; [|split]].
  - intros Hnil. revert Hrun.
    destruct (embedTexts_unfold env texts st)
      as (results & st0 & _ & Hreq & _ & _ & _ & ->).
    rewrite Hnil. cbn [length Nat.eqb].
    destruct (results !! 0) as [[first|]|]; intros [= <- <-]; done.
  - intros vecG vecO r Haligned ->. by eapply embedTexts_order.
  - intros t r -> ->. by eapply embedTexts_again.
  - intros r -> Hnd Hmax. by eapply embedTexts_twice.
Qed.

End CacheTheorem.

Lemma env_echo_aligned : providers_aligned env_echo length_vector length_vector.
Proof. intros n req. done. Qed.

Lemma embedTexts_cache_and_order_witness :
  let texts := [js "a"; js "bb"] in
  exists r st',
    embedTexts env_echo texts initial_embed_state = (Ok r, st') /\
    length (er_embeddings r) = length texts /\
    (exists reqs, requests st' = requests (@initial_embed_state Z) ++ reqs) /\
    (exists r' st2,
       embedTexts env_echo texts st' = (Ok r', st2) /\ requests st2 = requests st').
Proof.
  intros texts.
  destruct (embedTexts env_echo texts initial_embed_state) as [[r|e] st'] eqn:Hrun;
    [|by vm_compute in Hrun].
  destruct (embedTexts_cache_and_order env_echo texts initial_embed_state (Ok r) st' Hrun)
    as ((reqs & Hreqs & _) & _ & Horder & _ & Htwice).
  destruct (Horder length_vector length_vector r env_echo_aligned eq_refl) as [Hlen _].
  destruct (Htwice r eq_refl) as (r' & st2 & Hrun2 & Hreq2 & _).
  { apply NoDup_nil_2. }
  { apply Nat.leb_le. by vm_compute. }
  exists r, st'. split; [done|]. split; [exact Hlen|]. split; [by exists reqs|].
  by exists r', st2.
Defined.

(** C5 fails on the code.  After a first call that cached the primary
    provider's vector for one text, a second call in which the primary
    provider fails returns that vector, of length 2, next to a vector of the
    secondary provider, of length 3, under the secondary provider's [dim],
    [provider] and [model].  And within one call on eleven fresh texts, the
    ten vectors of the first batch come from the primary provider and the
    vector of the second batch from the secondary one. *)
Theorem embedTexts_mixed_providers :
  (exists st1 r st2,
     embedTexts env_primary_then_secondary [js "a"] initial_embed_state =
       (Ok (mkEmbedResult [Some [1; 2]%Z] (Some 2)
              (Some (js "google")) (Some (js "text-embedding-004"))), st1) /\
     embedTexts env_primary_then_secondary [js "a"; js "b"] st1 = (Ok r, st2) /\
     r = mkEmbedResult [Some [1; 2]%Z; Some [3; 4; 5]%Z] (Some 3)
           (Some (js "openai")) (Some (js "text-embedding-3-small")) /\
     map_get (js "a") (lru_map (cache st1)) =
       Some (mkEntry (Some [1; 2]%Z) 2 (js "google") (js "text-embedding-004")) /\
     ~ uniform_dim r) /\
  (exists r st,
     embedTexts env_second_batch_falls_back eleven_texts initial_embed_state = (Ok r, st) /\
     r = mkEmbedResult (replicate 10 (Some [1; 2]%Z) ++ [Some [3; 4; 5]%Z]) (Some 3)
           (Some (js "openai")) (Some (js "text-embedding-3-small")) /\
     ~ uniform_dim r).
Proof.
  assert (forall r : embed_result Z,
            er_dim r = Some 3 -> Some [1; 2]%Z ∈ er_embeddings r -> ~ uniform_dim r) as Hmixed.
  { intros r Hdim Hin Hu. specialize (Hu _ Hin). rewrite Hdim in Hu. discriminate. }
  split.
  - eexists _, _, _. split; [by vm_compute|]. split; [by vm_compute|].
    split; [done|]. split; [by vm_compute|].
    apply Hmixed; [done|]. apply elem_of_cons. by left.
  - eexists _, _. split; [by vm_compute|]. split; [done|].
    apply Hmixed; [done|]. apply elem_of_cons. by left.
Qed.

(** ** The URL normaliser *)

Section NormalizeFacts.

Variable api : url_api.

Lemma normalizeUrl_unchanged raw :
  is_empty raw = true \/ test_from_start HTTP_RE raw = false \/ url_parse api raw = None ->
  normalizeUrl api raw = raw.
Proof.
  unfold normalizeUrl. intros [-> | [-> | ->]]; [done | by rewrite orb_true_r |].
  by destruct (_ || _).
Qed.

Lemma normalize_record_canonical v : canonical api v -> normalize_record api v = v.
Proof.
  intros (Hwww & Hhost & Htw & (Hkeep & Hsort & Hquery) & Hfrag).
  assert (set_hostname api v (u_host v) = v) as Hset.
  { unfold set_hostname. rewrite Hhost. by destruct v. }
  unfold normalize_record. rewrite Hwww, Hset.
  rewrite (jsstring_eqb_false _ _ Htw). cbv zeta.
  rewrite Hkeep, Hsort, Hquery. destruct v. cbn in *. by rewrite Hfrag.
Qed.

Lemma normalizeUrl_normal_form s : normal_form api s -> normalizeUrl api s = s.
Proof.
  intros [H | [H | [H | (v & Hparse & Hcan & Hser & Hslash)]]];
    try (apply normalizeUrl_unchanged; tauto).
  unfold normalizeUrl. destruct (_ || _); [done|].
  rewrite Hparse, (normalize_record_canonical v Hcan). unfold output_of.
  rewrite Hser. destruct Hslash as [-> | ->]; [done|].
  rewrite jsstring_eqb_refl. by rewrite andb_false_r.
Qed.


End NormalizeFacts.

Lemma plain_article_normal_form :
  normal_form plain_url_api (js "https://example.com/article").
Proof.
  right. right. right.
  exists (mkUrl (js "https") [] [] (js "example.com") None (js "/article") None None).
  split; [by vm_compute|]. split; [|split; [by vm_compute | left; by vm_compute]].
  unfold canonical. split; [by vm_compute|]. split; [by vm_compute|].
  split; [apply jsstring_eqb_neq; by vm_compute|]. split; [|done].
  cbn. split; [done|]. split; done.
Qed.



(** ** The retrieval scorer *)

Section RetrievalFacts.

Context {number : Type} `{JsNumber number}.
Implicit Types (items : list (scored_row number)) (results : list (query_result number)).

Lemma dedup_loop_shape items : forall seen results topK,
  exists kept, sublist kept items /\
    dedup_loop items seen results topK = results ++ map result_of kept.
Proof.
  induction items as [|item items IH]; intros seen results topK; cbn [dedup_loop].
  { exists []. by rewrite app_nil_r. }
  destruct (bool_decide _).
  - destruct (IH seen results topK) as (kept & Hsub & ->).
    exists kept. split; [by constructor | done].
  - destruct (_ <=? _)%Z.
    + exists [item]. split; [|done]. constructor. apply sublist_nil_l.
    + destruct (IH ({[chk_source_id (sc_chunk item)]} ∪ seen)
                  (results ++ [result_of item]) topK) as (kept & Hsub & ->).
      exists (item :: kept). split; [by constructor|]. by rewrite <- app_assoc.
Qed.

Lemma dedup_loop_no_dup items : forall seen results topK,
  NoDup (map res_source_id results) ->
  (forall r, r ∈ results -> res_source_id r ∈ seen) ->
  NoDup (map res_source_id (dedup_loop items seen results topK)).
Proof.
  induction items as [|item items IH]; intros seen results topK Hnd Hseen;
    cbn [dedup_loop]; [done|].
  destruct (bool_decide_reflect (chk_source_id (sc_chunk item) ∈ seen)) as [Hin | Hnot].
  { by apply IH. }
  assert (NoDup (map res_source_id (results ++ [result_of item]))) as Hnd'.
  { rewrite map_app. apply NoDup_app. split; [done|]. split; [|by apply NoDup_singleton].
    intros id (r & Hid & Hr)%list_elem_of_fmap Hin2. cbn [map] in Hin2.
    apply list_elem_of_singleton in Hin2. apply Hnot. apply Hseen in Hr.
    rewrite <- Hid, Hin2 in Hr. exact Hr. }
  destruct (_ <=? _)%Z; [done|]. apply IH; [done|].
  intros r [Hr | ->%list_elem_of_singleton]%elem_of_app.
  - apply elem_of_union. right. by apply Hseen.
  - apply elem_of_union. left. by apply elem_of_singleton.
Qed.

Lemma dedup_loop_length items : forall seen results topK,
  (Z.of_nat (length results) < topK)%Z ->
  (Z.of_nat (length (dedup_loop items seen results topK)) <= topK)%Z.
Proof.
  induction items as [|item items IH]; intros seen results topK Hlt;
    cbn [dedup_loop]; [lia|].
  destruct (bool_decide _); [by apply IH|].
  destruct (Z.leb_spec topK (Z.of_nat (length (results ++ [result_of item])))) as [Hle | Hgt].
  - rewrite length_app in *. cbn [length] in *. lia.
  - by apply IH.
Qed.

Lemma sorted_results kept :
  StronglySorted (fun a b => score_after a b = false) kept ->
  StronglySorted not_better (map result_of kept).
Proof.
  intros Hsorted. induction Hsorted as [|a l Hs IH Ha]; [constructor|].
  cbn [map]. constructor; [done|].
  apply Forall_forall. intros r (b & -> & Hb)%list_elem_of_fmap.
  rewrite Forall_forall in Ha. by apply Ha.
Qed.

Lemma StronglySorted_sublist {A} (R : relation A) (l k : list A) :
  sublist k l -> StronglySorted R l -> StronglySorted R k.
Proof.
  intros Hsub Hl. revert k Hsub.
  induction Hl as [|a l Hs IH Ha]; intros k Hsub.
  - apply sublist_nil_r in Hsub as ->. constructor.
  - apply sublist_cons_r in Hsub as [Hsub | (k' & -> & Hsub)]; [by apply IH|].
    constructor; [by apply IH|]. rewrite Forall_forall in Ha |- *.
    intros x Hx. apply Ha. by eapply elem_of_sublist.
Qed.

(** What holds of [rank] for a limit of at least one: no source twice, at
    most [topK] results, and, when the comparator orders the scores
    consistently, no result scoring higher than an earlier one. *)
Lemma rank_sound qEmb rows topK :
  let scored :=
    map (fun row => mkScored (fst row) (snd row)
                      (cosineSimilarity qEmb (chk_embedding (fst row)))) rows in
  NoDup (map res_source_id (rank qEmb rows topK)) /\
  ((1 <= topK)%Z -> (Z.of_nat (length (rank qEmb rows topK)) <= topK)%Z) /\
  (consistent_on score_after scored -> StronglySorted not_better (rank qEmb rows topK)).
Proof.
  intros scored. unfold rank. fold scored. split; [|split].
  - apply dedup_loop_no_dup; [constructor|]. intros r Hr. by apply elem_of_nil in Hr.
  - intros Hk. apply dedup_loop_length. cbn [length]. lia.
  - intros Hcons.
    destruct (dedup_loop_shape (js_sort score_after scored) ∅ [] topK)
      as (kept & Hsub & ->). cbn [app].
    apply sorted_results. eapply StronglySorted_sublist; [exact Hsub|].
    by apply js_sort_sorted.
Qed.

(** With a limit of zero or less, one result is returned as soon as there
    is a candidate. *)
Lemma rank_limit_not_positive qEmb rows topK :
  rows <> [] -> (topK <= 0)%Z -> length (rank qEmb rows topK) = 1.
Proof.
  intros Hrows Hk. unfold rank.
  set (scored := map _ rows).
  assert (length (js_sort score_after scored) = length rows) as Hlen.
  { rewrite js_sort_length. subst scored. apply length_map. }
  destruct (js_sort score_after scored) as [|item items].
  { destruct rows; [done | discriminate]. }
  cbn [dedup_loop]. rewrite bool_decide_eq_false_2 by apply not_elem_of_empty.
  cbn [app length]. destruct (Z.leb_spec topK (Z.of_nat 1)); [done | lia].
Qed.

End RetrievalFacts.

(** C6 fails on the code for a limit of zero: asked for at most zero
    results, [query] returns one. *)
Theorem query_limit_zero_returns_one :
  exists r st',
    query env_echo one_chunk_db (js "what is this") 0 initial_embed_state = (Ok [r], st') /\
    res_source_id r = js "s1" /\
    ~ (Z.of_nat (length [r]) <= 0)%Z.
Proof.
  eexists _, _. split; [by vm_compute|]. split; [done|]. cbn [length]. lia.
Qed.

(** ** The ingestion orchestrator *)

Section IngestFacts.

Context {number : Type} `{JsNumber number}.
Variable env : ingest_env number.
Implicit Types (w : world number) (p : prepared) (r : embed_result number).

Lemma chunk_rows_spec sourceId r chunks : forall uuids i,
  length (chunk_rows env uuids sourceId i chunks r) = length chunks /\
  Forall (fun c => chk_source_id c = sourceId) (chunk_rows env uuids sourceId i chunks r).
Proof.
  induction chunks as [|c chunks IH]; intros uuids i; cbn [chunk_rows].
  - split; [done | constructor].
  - destruct (IH (S uuids) (S i)) as [Hlen Hall]. split; [cbn; by rewrite Hlen|].
    by constructor.
Qed.

Lemma run_transaction_some (db : database number) s cs db' :
  run_transaction db s cs = Some db' ->
  db' = mkDb (sources db ++ [s]) (chunks db ++ cs).
Proof. unfold run_transaction. destruct (_ || _); [discriminate | by intros [= <-]]. Qed.

(** The store after [commit]: unchanged when the transaction throws, one
    source row and its chunk rows more when it returns. *)
Lemma commit_store p r w x w' :
  commit env p r w = (x, w') ->
  w_embed w' = w_embed w /\ w_lock w' = w_lock w /\
  match x with
  | Throw _ => w_db w' = w_db w
  | Ok o =>
      (io_status o = ok \/ io_status o = pending_transcript) /\
      exists s cs,
        w_db w' = mkDb (sources (w_db w) ++ [s]) (chunks (w_db w) ++ cs) /\
        length cs = io_chunks o /\
        Forall (fun c => chk_source_id c = src_id s) cs
  end.
Proof.
  unfold commit.
  destruct (run_transaction _ _ _) as [db'|] eqn:Htx; intros [= <- <-]; cbn.
  - split; [done|]. split; [done|]. split; [case_match; auto|].
    apply run_transaction_some in Htx as ->. eexists _, _. split; [done|].
    destruct (chunk_rows_spec (ie_randomUUID env (w_uuids w)) r (p_chunks p)
                (S (w_uuids w)) 0) as [Hlen Hall].
    split; [exact Hlen | exact Hall].
  - done.
Qed.

Lemma _ingest_store rawUrl w x w' :
  _ingest env rawUrl w = (x, w') ->
  w_lock w' = w_lock w /\
  match x with
  | Throw _ => w_db w' = w_db w
  | Ok o =>
      match io_status o with
      | ok | pending_transcript =>
          (exists p r es, prepare env rawUrl (w_db w) = Ok (inr p) /\
             embed_step env (p_chunks p) (w_embed w) = (Ok r, es)) /\
          exists s cs,
            w_db w' = mkDb (sources (w_db w) ++ [s]) (chunks (w_db w) ++ cs) /\
            length cs = io_chunks o /\
            Forall (fun c => chk_source_id c = src_id s) cs
      | _ => w_db w' = w_db w
      end
  end.
Proof.
  unfold _ingest.
  destruct (prepare env rawUrl (w_db w)) as [[o | p] | e] eqn:Hp.
  - intros [= <- <-]. split; [done|]. revert Hp. unfold prepare.
    repeat (case_match; try discriminate); intros [= <-]; done.
  - destruct (embed_step env (p_chunks p) (w_embed w)) as [[r|e] es] eqn:He.
    + intros Hc. apply commit_store in Hc as (_ & Hl & Hc). split; [done|].
      destruct x as [o|e]; [|done]. destruct Hc as ([-> | ->] & Hc); eauto 10.
    + by intros [= <- <-].
  - by intros [= <- <-].
Qed.

Lemma ingest_store rawUrl w x w' :
  ingest env rawUrl w = (x, w') ->
  match x with
  | Throw _ => w_db w' = w_db w
  | Ok o =>
      match io_status o with
      | ok | pending_transcript =>
          (exists p r es, prepare env rawUrl (w_db w) = Ok (inr p) /\
             embed_step env (p_chunks p) (w_embed w) = (Ok r, es)) /\
          exists s cs,
            w_db w' = mkDb (sources (w_db w) ++ [s]) (chunks (w_db w) ++ cs) /\
            length cs = io_chunks o /\
            Forall (fun c => chk_source_id c = src_id s) cs
      | _ => w_db w' = w_db w
      end
  end.
Proof.
  unfold ingest. destruct (acquireLock _ _) as [[[]|e] fs]; [|by intros [= <- <-]].
  destruct (_ingest env rawUrl _) as [x1 w1] eqn:Hi. intros [= <- <-].
  apply _ingest_store in Hi as [_ Hi]. exact Hi.
Qed.

(** C1: a run that reaches "Embed" with chunks and whose [embedTexts]
    throws ends with that error, the store as it was and the lock released;
    whatever error a run throws, the store is as it was; and a run that
    stores anything stores one source row together with all its chunk rows,
    after the embedding has returned. *)
Theorem ingest_embed_failure_leaves_store rawUrl w :
  (forall p e es fs,
     acquireLock (ie_lock env) (w_lock w) = (Ok tt, fs) ->
     prepare env rawUrl (w_db w) = Ok (inr p) ->
     p_chunks p <> [] ->
     embedTexts (ie_embed env) (p_chunks p) (w_embed w) = (Throw e, es) ->
     ingest env rawUrl w =
       (Throw e, mkWorld (w_db w) es (release fs) (w_uuids w))) /\
  (forall e w', ingest env rawUrl w = (Throw e, w') -> w_db w' = w_db w) /\
  (forall o w', ingest env rawUrl w = (Ok o, w') ->
     match io_status o with
     | ok | pending_transcript =>
         (exists p r es, prepare env rawUrl (w_db w) = Ok (inr p) /\
            embed_step env (p_chunks p) (w_embed w) = (Ok r, es)) /\
         exists s cs,
           w_db w' = mkDb (sources (w_db w) ++ [s]) (chunks (w_db w) ++ cs) /\
           length cs = io_chunks o /\
           Forall (fun c => chk_source_id c = src_id s) cs
     | _ => w_db w' = w_db w
     end).
Proof.
  split; [|split].
  - intros p e es fs Hlock Hp Hne He. unfold ingest, _ingest. rewrite Hlock.
    cbn [w_db w_embed]. rewrite Hp. unfold embed_step.
    destruct (p_chunks p) as [|c cs] eqn:Ec; [done|]. cbn [length Nat.ltb Nat.leb].
    rewrite He. done.
  - intros e w' Hi. by apply ingest_store in Hi.
  - intros o w' Hi. by apply ingest_store in Hi.
Qed.

(** C10: [embedTexts] throws on an empty list, and the orchestrator
    calls it only when there are chunks. *)
Theorem embedTexts_empty_throws_and_is_guarded (st : embed_state number) chunks :
  embedTexts (ie_embed env) [] st = (Throw (undefined_read "dim"), st) /\
  embed_step env chunks st =
    (if is_empty chunks then (Ok (mkEmbedResult [] (Some 0) None None), st)
     else embedTexts (ie_embed env) chunks st).
Proof.
  split; [apply embedTexts_empty_throws|]. unfold embed_step. by destruct chunks.
Qed.

End IngestFacts.

Lemma ingest_embed_failure_leaves_store_witness :
  exists e w',
    ingest env_ingest_embed_fails (js "https://example.com/a") empty_world = (Throw e, w') /\
    w_db w' = w_db empty_world /\
    marker_file (w_lock w') = None.
Proof.
  destruct (ingest_embed_failure_leaves_store env_ingest_embed_fails
              (js "https://example.com/a") empty_world) as (Hfail & _ & _).
  assert (exists p e es,
            prepare env_ingest_embed_fails (js "https://example.com/a") (w_db empty_world)
              = Ok (inr p) /\
            p_chunks p <> [] /\
            embedTexts (ie_embed env_ingest_embed_fails) (p_chunks p) (w_embed empty_world)
              = (Throw e, es)) as (p & e & es & Hp & Hne & He).
  { eexists _, _, _. split; [vm_compute; reflexivity|].
    split; [apply is_empty_false_ne; vm_compute; reflexivity | vm_compute; reflexivity]. }
  eexists e, _. split.
  - apply (Hfail p e es); [reflexivity | exact Hp | exact Hne | exact He].
  - split; reflexivity.
Defined.
(** ** The retrieval scorer: what every answer satisfies *)

Section RetrievalMore.

Context {number : Type} `{JsNumber number}.
Variable env : embed_env number.
Implicit Types (items : list (scored_row number)) (results rs : list (query_result number)).

(** What [query] returns is what [rank] returns on the rows selected for
    the [dim] of the embedded question. *)
Lemma query_inv db question topK st rs st' :
  query env db question topK st = (Ok rs, st') ->
  exists q, embedQuery env question st = (Ok q, st') /\
    (rs = [] \/
     exists d qEmb, qe_dim q = Some d /\ qe_embedding q = Some qEmb /\
       select_rows db d <> [] /\ rs = rank qEmb (select_rows db d) topK).
Proof.
  unfold query, bind at 1.
  destruct (embedQuery env question st) as [[q|e] st1] eqn:Hq; [|discriminate].
  destruct (qe_dim q) as [d|] eqn:Hd.
  - destruct (select_rows db d) as [|row rows] eqn:Hrows.
    + intros [= <- <-]. exists q. split; [done | by left].
    + cbn [length Nat.eqb]. destruct (qe_embedding q) as [qEmb|] eqn:He; [|discriminate].
      intros [= <- <-]. exists q. split; [done|]. right. exists d, qEmb. by rewrite Hrows.
  - intros [= <- <-]. exists q. split; [done | by left].
Qed.

(** X1: whatever the limit, no two
    results of [query] name the same source; and for a limit of at least
    one there are at most that many results. *)
Theorem query_distinct_sources_within_limit db question topK st rs st' :
  query env db question topK st = (Ok rs, st') ->
  NoDup (map res_source_id rs) /\
  ((1 <= topK)%Z -> (Z.of_nat (length rs) <= topK)%Z).
Proof.
  intros (q & _ & [-> | (d & qEmb & _ & _ & _ & ->)])%query_inv.
  - split; [constructor | cbn; lia].
  - destruct (rank_sound qEmb (select_rows db d) topK) as (Hnd & Hlen & _). done.
Qed.

Lemma select_rows_spec (db : database number) d c s :
  (c, s) ∈ select_rows db d ->
  c ∈ chunks db /\ s ∈ sources db /\ chk_dim c = Some d /\ src_id s = chk_source_id c.
Proof.
  unfold select_rows. intros (c' & Hc & Hin)%list_elem_of_In%in_flat_map.
  apply list_elem_of_In in Hc. case_bool_decide as Hd; [|by apply in_nil in Hin].
  destruct (List.find _ (sources db)) as [s'|] eqn:Hf; [|by apply in_nil in Hin].
  destruct Hin as [[= <- <-] | []]. apply find_some in Hf as [Hs Heq].
  apply jsstring_eqb_eq in Heq. by apply list_elem_of_In in Hs.
Qed.

Lemma rank_from_rows qEmb rows topK r :
  r ∈ rank qEmb rows topK ->
  exists row, row ∈ rows /\
    r = result_of (mkScored (fst row) (snd row)
                     (cosineSimilarity qEmb (chk_embedding (fst row)))).
Proof.
  unfold rank.
  destruct (dedup_loop_shape (js_sort score_after (scored_rows qEmb rows)) ∅ [] topK)
    as (kept & Hsub & Heq).
  unfold scored_rows in Heq. rewrite Heq. cbn [app].
  intros (it & -> & Hit)%list_elem_of_fmap.
  apply (elem_of_sublist _ _ _ Hit) in Hsub. rewrite js_sort_perm in Hsub.
  apply list_elem_of_fmap in Hsub as (row & -> & Hrow). by exists row.
Qed.

(** X2: every result of [query] is
    made of a stored chunk whose [embedding_dim] is the [dim] of the embedded
    question, joined with the source row of its [source_id], and scored
    against the question's vector; if no stored chunk has that [dim] the
    answer is empty. *)
Theorem query_results_from_matching_chunks db question topK st rs st' :
  query env db question topK st = (Ok rs, st') ->
  exists q, embedQuery env question st = (Ok q, st') /\
    (forall r, r ∈ rs ->
       exists qEmb c s,
         qe_embedding q = Some qEmb /\ c ∈ chunks db /\ s ∈ sources db /\
         chk_dim c = qe_dim q /\ src_id s = chk_source_id c /\
         r = result_of (mkScored c s (cosineSimilarity qEmb (chk_embedding c)))) /\
    ((forall c, c ∈ chunks db -> chk_dim c <> qe_dim q) -> rs = []).
Proof.
  intros (q & Hq & Hrs)%query_inv. exists q. split; [done|].
  destruct Hrs as [-> | (d & qEmb & Hd & He & Hrows & ->)].
  - split; [|done]. by intros r ?%elem_of_nil.
  - split.
    + intros r ([c s] & Hrow & ->)%rank_from_rows.
      apply select_rows_spec in Hrow as (Hc & Hs & Hdim & Hid).
      exists qEmb, c, s. rewrite Hd. done.
    + intros Hnone. destruct (select_rows db d) as [|[c s] rows] eqn:E; [done|].
      assert ((c, s) ∈ select_rows db d) as Hin by (rewrite E; apply elem_of_cons; by left).
      apply select_rows_spec in Hin as (Hc & _ & Hdim & _).
      destruct (Hnone c Hc). by rewrite Hd.
Qed.

(** An item kept by the loop is the first of its source among the items,
    and its source was not seen before. *)
Lemma dedup_loop_first items : forall seen results topK r,
  r ∈ dedup_loop items seen results topK ->
  r ∈ results \/
  exists pre it post,
    items = pre ++ it :: post /\ r = result_of it /\
    (chk_source_id (sc_chunk it) ∉ seen) /\
    forall x, x ∈ pre -> chk_source_id (sc_chunk x) <> chk_source_id (sc_chunk it).
Proof.
  induction items as [|item items IH]; intros seen results topK r; cbn [dedup_loop];
    [by left|].
  destruct (bool_decide_reflect (chk_source_id (sc_chunk item) ∈ seen)) as [Hin | Hnot].
  - intros [Hr | (pre & it & post & -> & -> & Hseen & Hpre)]%IH; [by left | right].
    exists (item :: pre), it, post. split; [done|]. split; [done|]. split; [done|].
    intros x [-> | Hx]%elem_of_cons; [|by apply Hpre]. by intros E; rewrite E in Hin.
  - assert (r ∈ results ++ [result_of item] ->
            r ∈ results \/
            exists pre it post,
              item :: items = pre ++ it :: post /\ r = result_of it /\
              (chk_source_id (sc_chunk it) ∉ seen) /\
              forall x, x ∈ pre -> chk_source_id (sc_chunk x) <> chk_source_id (sc_chunk it))
      as Hhere.
    { intros [Hr | ->%list_elem_of_singleton]%elem_of_app; [by left | right].
      exists [], item, items. split; [done|]. split; [done|]. split; [done|].
      by intros x ?%elem_of_nil. }
    destruct (_ <=? _)%Z; [exact Hhere|].
    intros [Hr | (pre & it & post & -> & -> & Hseen & Hpre)]%IH; [by apply Hhere | right].
    apply not_elem_of_union in Hseen as [Hne Hseen].
    exists (item :: pre), it, post. split; [done|]. split; [done|]. split; [done|].
    intros x [-> | Hx]%elem_of_cons; [|by apply Hpre].
    intros E. apply Hne. apply elem_of_singleton. by rewrite E.
Qed.

(** X3: when the scores compare consistently
    ([b.score - a.score] is positive on at most one of [(a, b)] and [(b, a)],
    and "not positive" is transitive, as for scores that are not [NaN]), no
    result of [query] scores higher than an earlier one, and each result is a
    best chunk of its source: no selected chunk of the same source scores
    higher. *)
Theorem query_best_chunk_first db question topK st q st1 qEmb d rs st' :
  embedQuery env question st = (Ok q, st1) ->
  qe_embedding q = Some qEmb -> qe_dim q = Some d ->
  consistent_on score_after (scored_rows qEmb (select_rows db d)) ->
  query env db question topK st = (Ok rs, st') ->
  StronglySorted not_better rs /\
  (forall r c s, r ∈ rs -> (c, s) ∈ select_rows db d ->
     chk_source_id c = res_source_id r ->
     n_positive (n_sub (cosineSimilarity qEmb (chk_embedding c)) (res_score r)) = false).
Proof.
  intros Hq He Hd Hcons Hquery.
  assert (rs = [] \/ rs = rank qEmb (select_rows db d) topK) as Hrs.
  { apply query_inv in Hquery as (q' & Hq' & Hrs). rewrite Hq in Hq'.
    injection Hq' as <- <-. destruct Hrs as [-> | (d' & qEmb' & Hd' & He' & _ & ->)];
      [by left | right]. congruence. }
  destruct Hrs as [-> | ->].
  { split; [constructor|]. by intros r c s ?%elem_of_nil. }
  split; [by apply rank_sound|].
  intros r c s Hr Hrow Hid. unfold rank in Hr. fold (scored_rows qEmb (select_rows db d)) in Hr.
  set (scored := scored_rows qEmb (select_rows db d)) in *.
  pose proof (js_sort_sorted score_after scored Hcons) as Hsorted.
  apply dedup_loop_first in Hr as [Hr | (pre & it & post & Hsplit & -> & _ & Hpre)];
    [by apply elem_of_nil in Hr|].
  set (x := mkScored c s (cosineSimilarity qEmb (chk_embedding c))).
  assert (x ∈ js_sort score_after scored) as Hx.
  { rewrite js_sort_perm. apply list_elem_of_fmap. by exists (c, s). }
  assert (it ∈ scored) as Hit.
  { rewrite <- (js_sort_perm score_after scored), Hsplit.
    apply elem_of_app. right. apply elem_of_cons. by left. }
  change (score_after it x = false).
  rewrite Hsplit in Hx, Hsorted.
  apply elem_of_app in Hx as [Hx | [-> | Hx]%elem_of_cons].
  - by destruct (Hpre x Hx).
  - destruct Hcons as [Hanti _]. destruct (score_after it it) eqn:E; [|done].
    by rewrite (Hanti it it Hit Hit E) in E.
  - apply StronglySorted_app_1_r, StronglySorted_inv in Hsorted as [_ Hall].
    rewrite Forall_forall in Hall. by apply Hall.
Qed.

End RetrievalMore.

Lemma Z_scores_consistent (l : list (scored_row Z)) : consistent_on score_after l.
Proof.
  split.
  - intros a b _ _. unfold score_after. cbn. intros ?%Z.ltb_lt. apply Z.ltb_ge. lia.
  - intros a b c _ _ _. unfold score_after. cbn. intros ?%Z.ltb_ge ?%Z.ltb_ge.
    apply Z.ltb_ge. lia.
Qed.

Lemma query_distinct_sources_within_limit_witness :
  exists rs st',
    query env_echo two_source_db (js "what is this") 10 initial_embed_state = (Ok rs, st') /\
    map res_chunk_id rs = [js "c1"; js "c2"] /\
    NoDup (map res_source_id rs) /\ (Z.of_nat (length rs) <= 10)%Z.
Proof.
  destruct (query env_echo two_source_db (js "what is this") 10 initial_embed_state)
    as [[rs|e] st'] eqn:Hq; [|by vm_compute in Hq].
  destruct (query_distinct_sources_within_limit env_echo two_source_db _ 10 _ rs st' Hq)
    as [Hnd Hlen].
  exists rs, st'. split; [done|]. split; [|split; [exact Hnd | apply Hlen; lia]].
  revert Hq. vm_compute. by intros [= <- _].
Defined.

Lemma query_results_from_matching_chunks_witness :
  exists rs st' q,
    query env_echo two_source_db (js "what is this") 10 initial_embed_state = (Ok rs, st') /\
    embedQuery env_echo (js "what is this") initial_embed_state = (Ok q, st') /\
    forall r, r ∈ rs -> exists c, c ∈ chunks two_source_db /\ chk_dim c = qe_dim q /\
                                  res_chunk_id r = chk_id c.
Proof.
  destruct (query env_echo two_source_db (js "what is this") 10 initial_embed_state)
    as [[rs|e] st'] eqn:Hq; [|by vm_compute in Hq].
  destruct (query_results_from_matching_chunks env_echo two_source_db _ 10 _ rs st' Hq)
    as (q & Hemb & Hall & _).
  exists rs, st', q. split; [done|]. split; [done|].
  intros r Hr. destruct (Hall r Hr) as (qEmb & c & s & _ & Hc & _ & Hdim & _ & ->).
  by exists c.
Defined.

Lemma query_best_chunk_first_witness :
  exists rs st',
    query env_echo two_source_db (js "what is this") 10 initial_embed_state = (Ok rs, st') /\
    map res_score rs = [1%Z; (-1)%Z] /\
    StronglySorted not_better rs.
Proof.
  destruct (query env_echo two_source_db (js "what is this") 10 initial_embed_state)
    as [[rs|e] st'] eqn:Hq; [|by vm_compute in Hq].
  destruct (embedQuery env_echo (js "what is this") initial_embed_state) as [[q|e] st1] eqn:He;
    [|by vm_compute in He].
  destruct (query_best_chunk_first env_echo two_source_db (js "what is this") 10
              initial_embed_state q st1 [12%Z] 1 rs st' He) as [Hsorted _].
  - revert He. vm_compute. by intros [= <- _].
  - revert He. vm_compute. by intros [= <- _].
  - apply Z_scores_consistent.
  - exact Hq.
  - exists rs, st'. split; [done|]. split; [|exact Hsorted].
    revert Hq. vm_compute. by intros [= <- _].
Defined.
(** ** The embedding gateway: the cache as a bounded LRU *)

Section CacheMore.

Context {number : Type}.
Implicit Types (m old rec : js_map number) (c : LRUCache number) (k key : jsstring).

Lemma map_delete_length k m :
  NoDup m.*1 -> k ∈ m.*1 -> S (length (map_delete k m)) = length m.
Proof.
  induction m as [|[k' v] m IH]; cbn; [by intros _ ?%elem_of_nil|].
  intros [Hnot Hnd]%NoDup_cons Hin. eqb_cases k' k; cbn.
  - subst k'. fold (map_delete k m). by rewrite map_delete_absent.
  - apply elem_of_cons in Hin as [-> | Hin]; [done|].
    fold (map_delete k m). by rewrite IH.
Qed.

Lemma touch_length k v m :
  NoDup m.*1 -> k ∈ m.*1 -> length (map_set k v (map_delete k m)) = length m.
Proof.
  intros Hnd Hin. rewrite map_set_absent.
  - rewrite length_app. cbn. rewrite Nat.add_1_r. by apply map_delete_length.
  - rewrite map_delete_keys. by intros [_ ?].
Qed.

Lemma touch_NoDup k v m : NoDup m.*1 -> NoDup (map_set k v (map_delete k m)).*1.
Proof.
  intros Hnd. rewrite map_set_absent by (rewrite map_delete_keys; by intros [_ ?]).
  rewrite fmap_app. apply NoDup_app. split; [by apply map_delete_NoDup|].
  split; [|apply NoDup_singleton].
  intros x [_ Hne]%map_delete_keys ->%list_elem_of_singleton. done.
Qed.

Lemma lru_get_ok key c : cache_ok c -> cache_ok (snd (lru_get key c)).
Proof.
  intros [Hnd Hlen]. unfold lru_get. rewrite map_has_get.
  destruct (map_get key (lru_map c)) as [v|] eqn:Hv; cbn [negb snd]; [|done].
  split; cbn [lru_map lru_max]; [by apply touch_NoDup|].
  rewrite touch_length; [done | done |]. apply map_get_key. by rewrite Hv.
Qed.

Lemma lru_set_full key val c first v1 rest :
  NoDup (lru_map c).*1 -> lru_map c = (first, v1) :: rest ->
  lru_max c <= length (lru_map c) -> key ∉ (lru_map c).*1 ->
  lru_map (lru_set key val c) = rest ++ [(key, val)].
Proof.
  intros Hnd Hm Hfull Hnot. unfold lru_set. rewrite map_has_get.
  destruct (map_get key (lru_map c)) eqn:Hv.
  { destruct Hnot. apply map_get_key. by rewrite Hv. }
  apply Nat.leb_le in Hfull. rewrite Hfull, Hm. cbn [lru_map].
  rewrite Hm in Hnd, Hnot. cbn in Hnd, Hnot.
  apply NoDup_cons in Hnd as [Hfirst _]. apply not_elem_of_cons in Hnot as [_ Hnot].
  assert (map_delete first ((first, v1) :: rest) = rest) as ->.
  { unfold map_delete. cbn [List.filter fst]. rewrite jsstring_eqb_refl. cbn [negb].
    by apply map_delete_absent. }
  by apply map_set_absent.
Qed.

Lemma lru_set_ok key val c : 1 <= lru_max c -> cache_ok c -> cache_ok (lru_set key val c).
Proof.
  intros Hmax [Hnd Hlen].
  destruct (map_get key (lru_map c)) as [v|] eqn:Hv.
  - unfold lru_set. rewrite map_has_get, Hv. unfold cache_ok. split; cbn [lru_map lru_max].
    + by apply touch_NoDup.
    + rewrite touch_length; [done | done |]. apply map_get_key. by rewrite Hv.
  - assert (key ∉ (lru_map c).*1) as Hnot by (rewrite map_get_key, Hv; by intros [? ?]).
    destruct (Nat.le_gt_cases (lru_max c) (length (lru_map c))) as [Hfull | Hroom].
    + assert (exists first v1 rest, lru_map c = (first, v1) :: rest)
        as (first & v1 & rest & Hm).
      { destruct (lru_map c) as [|[first v1] rest]; [cbn in Hfull; lia | eauto]. }
      pose proof (lru_set_full key val c first v1 rest Hnd Hm Hfull Hnot) as Hset.
      unfold cache_ok. rewrite Hset. cbn [lru_set lru_max].
      rewrite Hm in Hnd, Hnot, Hlen. cbn in Hnd, Hnot, Hlen.
      apply NoDup_cons in Hnd as [_ Hnd]. apply not_elem_of_cons in Hnot as [_ Hnot].
      split.
      * rewrite fmap_app. apply NoDup_app. split; [done|].
        split; [|apply NoDup_singleton]. by intros x Hx ->%list_elem_of_singleton.
      * rewrite length_app. cbn [length]. lia.
    + unfold lru_set. rewrite map_has_get, Hv.
      apply Nat.leb_gt in Hroom as Hroom'. rewrite Hroom'. unfold cache_ok.
      cbn [lru_map lru_max]. rewrite (map_set_absent _ _ _ Hnot). split.
      * rewrite fmap_app. apply NoDup_app. split; [done|].
        split; [|apply NoDup_singleton]. by intros x Hx ->%list_elem_of_singleton.
      * rewrite length_app. cbn [length]. lia.
Qed.

(** X4: with room for at least one entry, [get] and
    [set] keep the cache without a repeated key and with at most [max]
    entries, and a [get] after [set(key, val)] returns [val]. *)
Theorem LRUCache_bounded c key val :
  1 <= lru_max c -> cache_ok c ->
  cache_ok (lru_set key val c) /\
  cache_ok (snd (lru_get key c)) /\
  fst (lru_get key (lru_set key val c)) = Some val.
Proof.
  intros Hmax Hok. split; [by apply lru_set_ok|]. split; [by apply lru_get_ok|].
  by rewrite lru_get_found, lru_set_found.
Qed.

(** X5: [set] of a new key on a full cache
    removes the first entry, the one used least recently, and only it; [get]
    of a present key returns its value and makes it the last entry, the one
    used most recently. *)
Theorem LRUCache_evicts_least_recent c key val :
  NoDup (lru_map c).*1 ->
  (forall first v1 rest,
     lru_map c = (first, v1) :: rest ->
     lru_max c <= length (lru_map c) -> key ∉ (lru_map c).*1 ->
     lru_map (lru_set key val c) = rest ++ [(key, val)]) /\
  (forall v, map_get key (lru_map c) = Some v ->
     lru_get key c =
       (Some v, mkLRU (lru_max c) (map_delete key (lru_map c) ++ [(key, v)])) /\
     length (map_delete key (lru_map c) ++ [(key, v)]) = length (lru_map c)).
Proof.
  intros Hnd. split.
  - intros first v1 rest Hm Hfull Hnot. by eapply lru_set_full.
  - intros v Hv. unfold lru_get. rewrite map_has_get, Hv. cbn [negb].
    assert (key ∉ (map_delete key (lru_map c)).*1) as Hnot
      by (rewrite map_delete_keys; by intros [_ ?]).
    rewrite (map_set_absent _ _ _ Hnot). split; [done|].
    rewrite <- (map_set_absent _ _ _ Hnot). apply touch_length; [done|].
    apply map_get_key. by rewrite Hv.
Qed.

End CacheMore.

Lemma LRUCache_bounded_witness :
  cache_ok (lru_set (js "k") (mkEntry (Some [3%Z]) 1 (js "openai") (js "m")) full_cache) /\
  length (lru_map (lru_set (js "k") (mkEntry (Some [3%Z]) 1 (js "openai") (js "m")) full_cache))
    = 2.
Proof.
  assert (cache_ok full_cache) as Hok.
  { split; [|cbn; lia]. cbn. repeat (apply NoDup_cons; split);
      [| |apply NoDup_nil_2]; rewrite ?elem_of_cons, ?elem_of_nil;
      intros H; repeat destruct H as [H|H]; try done; by apply jsstring_eqb_eq in H. }
  split; [|by vm_compute].
  apply (LRUCache_bounded full_cache (js "k")); [cbn; lia | exact Hok].
Defined.

Lemma LRUCache_evicts_least_recent_witness :
  map fst (lru_map (lru_set (js "k") (mkEntry (Some [3%Z]) 1 (js "openai") (js "m")) full_cache))
    = [js "new"; js "k"] /\
  map fst (lru_map (snd (lru_get (js "old") full_cache))) = [js "new"; js "old"].
Proof.
  assert (NoDup (lru_map full_cache).*1) as Hnd.
  { cbn. repeat (apply NoDup_cons; split);
      [| |apply NoDup_nil_2]; rewrite ?elem_of_cons, ?elem_of_nil;
      intros H; repeat destruct H as [H|H]; try done; by apply jsstring_eqb_eq in H. }
  split.
  - destruct (LRUCache_evicts_least_recent full_cache (js "k")
                (mkEntry (Some [3%Z]) 1 (js "openai") (js "m")) Hnd) as [Hset _].
    rewrite (Hset _ _ _ eq_refl); [done | cbn; lia |].
    cbn. rewrite !elem_of_cons, elem_of_nil.
    intros H; repeat destruct H as [H|H]; try done; by apply jsstring_eqb_eq in H.
  - destruct (LRUCache_evicts_least_recent full_cache (js "old")
                (mkEntry (Some [3%Z]) 1 (js "openai") (js "m")) Hnd) as [_ Hget].
    edestruct Hget as [-> _]; [by vm_compute|]. done.
Defined.
(** ** The embedding gateway: what a call does to the cache and the network *)

Section CallMore.

Context {number : Type}.
Variable env : embed_env number.
Implicit Types (st : embed_state number) (texts batch : list jsstring).

Lemma scan_cache_cache_ok texts : forall i acc st out st',
  scan_cache texts i acc st = (out, st') ->
  cache_ok (cache st) ->
  cache_ok (cache st') /\ lru_max (cache st') = lru_max (cache st).
Proof.
  induction texts as [|t texts IH]; intros i [[results unc] idx] st out st'.
  { by intros [= <- <-]. }
  cbn [scan_cache]. unfold bind at 1. rewrite cache_get_run. cbv beta iota.
  intros Hrun Hok.
  assert (cache_ok (snd (lru_get t (cache st)))) as Hok1 by (by apply lru_get_ok).
  destruct (map_get t (lru_map (cache st))); apply IH in Hrun as [Hok' Hmax];
    try done; cbn [cache] in Hmax; by rewrite lru_get_max in Hmax.
Qed.

Lemma store_batch_cache_ok (r : provider_result number) batch :
  forall j batchIdxs results st out st',
  store_batch r j batch batchIdxs results st = (out, st') ->
  1 <= lru_max (cache st) -> cache_ok (cache st) ->
  cache_ok (cache st') /\ lru_max (cache st') = lru_max (cache st).
Proof.
  induction batch as [|t batch IH]; intros j idxs results st out st'.
  { by intros [= <- <-]. }
  destruct idxs as [|idx idxs]; [by intros [= <- <-]|].
  cbn [store_batch]. unfold bind at 1. rewrite cache_set_run.
  intros Hrun Hmax Hok. apply IH in Hrun as [Hok' Hmax']; [done|done|].
  cbn [cache]. by apply lru_set_ok.
Qed.

Lemma embed_batches_cache_ok batches : forall results meta st out st',
  embed_batches env batches results meta st = (out, st') ->
  1 <= lru_max (cache st) -> cache_ok (cache st) ->
  cache_ok (cache st') /\ lru_max (cache st') = lru_max (cache st).
Proof.
  induction batches as [|[batch idxs] rest IH]; intros results meta st out st'.
  { by intros [= <- <-]. }
  cbn [embed_batches]. unfold bind at 1.
  destruct (embedBatch env batch st) as [[r|e] st1] eqn:Hb;
    destruct (embedBatch_requests env Hb) as (Hc1 & _).
  - unfold bind at 1.
    destruct (store_batch r 0 batch idxs results st1) as [[results1|e] st2] eqn:Hs.
    + intros Hrest Hmax Hok.
      apply store_batch_cache_ok in Hs as [Hok2 Hmax2]; [|by rewrite Hc1..].
      apply IH in Hrest as [Hok3 Hmax3]; [|by rewrite Hmax2, Hc1|done].
      split; [done|]. by rewrite Hmax3, Hmax2, Hc1.
    + intros [= <- <-] Hmax Hok.
      apply store_batch_cache_ok in Hs as [Hok2 Hmax2]; [|by rewrite Hc1..].
      split; [done|]. by rewrite Hmax2, Hc1.
  - intros [= <- <-] Hmax Hok. by rewrite Hc1.
Qed.

(** X6: whatever a call of [embedTexts]
    returns or throws, the cache it leaves has no repeated key and at most
    [max] entries, and the same [max]. *)
Theorem embedTexts_keeps_cache_bounded texts st x st' :
  embedTexts env texts st = (x, st') ->
  1 <= lru_max (cache st) -> cache_ok (cache st) ->
  cache_ok (cache st') /\ lru_max (cache st') = lru_max (cache st).
Proof.
  intros Hrun Hmax Hok. revert Hrun.
  destruct (embedTexts_unfold env texts st)
    as (results & st0 & Hscan & _ & _ & _ & _ & ->).
  apply scan_cache_cache_ok in Hscan as [Hok0 Hmax0]; [|done].
  destruct (length (uncached_of st texts) =? 0).
  - intros Hx. assert (st' = st0) as ->; [|done].
    destruct (results !! 0) as [[first|]|]; by injection Hx.
  - destruct (embed_batches env _ results None st0) as [out st1] eqn:Hb.
    apply embed_batches_cache_ok in Hb as [Hok1 Hmax1]; [|by rewrite Hmax0|done].
    intros Hx. assert (st' = st1) as ->.
    { destruct out as [[results' meta]|e]; by injection Hx. }
    split; [done|]. by rewrite Hmax1.
Qed.

End CallMore.

Lemma embedTexts_keeps_cache_bounded_witness :
  exists x st',
    embedTexts env_primary_then_secondary [js "a"; js "b"] initial_embed_state = (x, st') /\
    cache_ok (cache st') /\ lru_max (cache st') = 1000.
Proof.
  destruct (embedTexts env_primary_then_secondary [js "a"; js "b"] initial_embed_state)
    as [x st'] eqn:Hrun.
  exists x, st'. split; [done|].
  apply (embedTexts_keeps_cache_bounded _ _ _ _ _ Hrun).
  - cbn. lia.
  - split; [apply NoDup_nil_2 | cbn; lia].
Defined.
(** ** The embedding gateway: the requests of a batch *)

Section RequestsMore.

Context {number : Type}.
Variable env : embed_env number.
Implicit Types (st : embed_state number) (texts batch : list jsstring).

Lemma retry_loop_attempts req n : forall st (x : result (option (reply number))) st',
  retry_loop (fetch_json env req) (S n) st = (x, st') ->
  exists k, 1 <= k <= S n /\
    cache st' = cache st /\
    requests st' = requests st ++ replicate k req /\
    (forall j, S j < k ->
       exists m, network env (length (requests st) + j) req = ReplyFailure m) /\
    match x with
    | Ok (Some body) =>
        network env (length (requests st) + (k - 1)) req = body /\
        (forall m, body <> ReplyFailure m)
    | Ok None => False
    | Throw e =>
        k = S n /\ err_name e = PlainError /\
        network env (length (requests st) + n) req = ReplyFailure (err_message e)
    end.
Proof.
  induction n as [|n IH]; intros st x st'.
  - cbn [retry_loop]. unfold try_catch, bind, fetch_json, ret, throw. cbn [Nat.eqb].
    destruct (network env (length (requests st)) req) as [m|v|d] eqn:Hn;
      cbv beta iota; intros [= <- <-]; exists 1; cbn [cache requests replicate Nat.sub];
      rewrite ?Nat.add_0_r; (split; [lia|]); repeat split; try done; intros j Hj; lia.
  - change (retry_loop (fetch_json env req) (S (S n)) st)
      with (try_catch (do a <- fetch_json env req; ret (Some a))
              (fun err => if S n =? 0 then throw err
                          else retry_loop (fetch_json env req) (S n)) st).
    unfold try_catch at 1, bind at 1.
    destruct (fetch_json env req st) as [[body|e] st1] eqn:Hf.
    + unfold ret. intros [= <- <-]. unfold fetch_json in Hf.
      destruct (network env (length (requests st)) req) as [m|v|d] eqn:Hn;
        cbv beta iota in Hf; try discriminate; injection Hf as <- <-; exists 1; cbn [cache requests replicate Nat.sub];
        rewrite ?Nat.add_0_r; (split; [lia|]); repeat split; try done; intros j Hj; lia.
    + cbn [Nat.eqb]. unfold fetch_json in Hf.
      destruct (network env (length (requests st)) req) as [m|v|d] eqn:Hn;
        cbv beta iota in Hf; try discriminate. injection Hf as <- <-.
      intros (k & Hk & Hc & Hr & Hfail & Hx)%IH. cbn [cache requests] in *.
      rewrite length_app in Hfail, Hx. cbn [length] in Hfail, Hx.
      exists (S k). split; [lia|]. split; [done|]. split.
      { rewrite Hr, <- app_assoc. done. }
      split.
      { intros [|j] Hj; [rewrite Nat.add_0_r; eauto|].
        destruct (Hfail j) as [m' Hm']; [lia|]. exists m'.
        by replace (length (requests st) + S j) with (length (requests st) + 1 + j) by lia. }
      destruct x as [[body|]|e]; [|done|].
      * replace (length (requests st) + (S k - 1))
          with (length (requests st) + 1 + (k - 1)) by lia. exact Hx.
      * destruct Hx as (-> & Hname & Hnet). split; [done|]. split; [done|].
        by replace (length (requests st) + S n) with (length (requests st) + 1 + n) by lia.
Qed.

(** X7: [retry] on a request sends it between one
    and three times, never changes the cache and never returns [undefined];
    every attempt before the last one failed; it returns the body of the
    first attempt that succeeds, and throws, with the error of the third
    attempt, only after three failures. *)
Theorem retry_fetch_attempts req st x st' :
  retry (fetch_json env req) st = (x, st') ->
  exists k, 1 <= k <= 3 /\
    cache st' = cache st /\
    requests st' = requests st ++ replicate k req /\
    (forall j, S j < k ->
       exists m, network env (length (requests st) + j) req = ReplyFailure m) /\
    match x with
    | Ok (Some body) =>
        network env (length (requests st) + (k - 1)) req = body /\
        (forall m, body <> ReplyFailure m)
    | Ok None => False
    | Throw e =>
        k = 3 /\ err_name e = PlainError /\
        network env (length (requests st) + 2) req = ReplyFailure (err_message e)
    end.
Proof. apply retry_loop_attempts. Qed.

Lemma embedGemini_sends batch st (x : result (provider_result number)) st' :
  embedGemini env batch st = (x, st') ->
  exists k, k <= 3 /\ cache st' = cache st /\
    requests st' = requests st ++ replicate k (mkRequest Gemini (map truncate_input batch)) /\
    (gemini_key_set env = false -> k = 0 /\
       x = Throw (mkError PlainError (js "GEMINI_API_KEY not set"))).
Proof.
  unfold embedGemini. destruct (gemini_key_set env).
  - cbn [negb]. unfold bind.
    destruct (retry _ st) as [[res|e] st1] eqn:Hr;
      apply retry_fetch_attempts in Hr as (k & Hk & Hc & Hreq & _).
    + intros Hx. assert (st' = st1) as ->.
      { destruct res as [[| [|] |]|]; by injection Hx. }
      exists k. split; [lia|]. done.
    + intros [= <- <-]. exists k. split; [lia|]. done.
  - intros [= <- <-]. exists 0. rewrite app_nil_r. split; [lia|]. done.
Qed.

Lemma embedOpenAI_sends_bounded batch st (x : result (provider_result number)) st' :
  embedOpenAI env batch st = (x, st') ->
  exists k, k <= 3 /\ cache st' = cache st /\
    requests st' = requests st ++ replicate k (mkRequest OpenAI (map truncate_input batch)) /\
    (openai_key_set env = false -> k = 0 /\
       x = Throw (mkError PlainError (js "OPENAI_API_KEY not set"))).
Proof.
  unfold embedOpenAI. destruct (openai_key_set env).
  - cbn [negb]. unfold bind.
    destruct (retry _ st) as [[res|e] st1] eqn:Hr;
      apply retry_fetch_attempts in Hr as (k & Hk & Hc & Hreq & _).
    + intros Hx. assert (st' = st1) as ->.
      { destruct res as [[| |data]|]; try by injection Hx.
        destruct (js_sort _ data); by injection Hx. }
      exists k. split; [lia|]. done.
    + intros [= <- <-]. exists k. split; [lia|]. done.
  - intros [= <- <-]. exists 0. rewrite app_nil_r. split; [lia|]. done.
Qed.

(** The requests of one batch. *)
Lemma embedBatch_sends batch st (x : result (provider_result number)) st' :
  embedBatch env batch st = (x, st') ->
  exists k1 k2, k1 <= 3 /\ k2 <= 3 /\ cache st' = cache st /\
    requests st' =
      requests st ++ replicate k1 (mkRequest Gemini (map truncate_input batch))
                  ++ replicate k2 (mkRequest OpenAI (map truncate_input batch)) /\
    (gemini_key_set env = false -> k1 = 0) /\
    (openai_key_set env = false -> k2 = 0) /\
    (gemini_key_set env = false -> openai_key_set env = false ->
     x = Throw (both_failed (mkError PlainError (js "GEMINI_API_KEY not set"))
                            (mkError PlainError (js "OPENAI_API_KEY not set")))).
Proof.
  unfold embedBatch, try_catch.
  destruct (embedGemini env batch st) as [[r|g] st1] eqn:Hg;
    destruct (embedGemini_sends _ _ _ _ Hg) as (k1 & Hk1 & Hc1 & Hr1 & Hkey1).
  - intros [= <- <-]. exists k1, 0. cbn [replicate]. rewrite app_nil_r.
    repeat split; try done; try lia.
    + intros Hno. by apply Hkey1.
    + intros Hno. by destruct (Hkey1 Hno).
  - destruct (embedOpenAI env batch st1) as [[r|o] st2] eqn:Ho;
      destruct (embedOpenAI_sends_bounded _ _ _ _ Ho) as (k2 & Hk2 & Hc2 & Hr2 & Hkey2);
      intros [= <- <-]; exists k1, k2;
      (split; [done|]); (split; [done|]); (split; [congruence|]);
      (split; [by rewrite Hr2, Hr1, <- app_assoc|]);
      (split; [intros Hno; by apply Hkey1|]); (split; [intros Hno; by apply Hkey2|]);
      intros Hno1 Hno2; destruct (Hkey1 Hno1) as [_ [= ->]];
      destruct (Hkey2 Hno2) as [_ [= ?]]; by subst.
Qed.

Lemma slices_fuel_length {A} (size : nat) (b : list A) :
  forall fuel l, b ∈ slices_fuel fuel size l -> length b <= size.
Proof.
  induction fuel as [|fuel IH]; intros l Hb; simpl in Hb; [by apply elem_of_nil in Hb|].
  destruct l as [|a l]; [by apply elem_of_nil in Hb|].
  apply elem_of_cons in Hb as [-> | Hb]; [|by eapply IH].
  rewrite length_take. lia.
Qed.

Lemma truncate_input_length (t : jsstring) : (Z.of_nat (length (truncate_input t)) <= MAX_INPUT)%Z.
Proof.
  unfold truncate_input, slice, MAX_INPUT. cbn [Z.ltb Z.compare]. rewrite length_take. lia.
Qed.

Lemma embed_batches_sends batches : forall results meta st x st',
  embed_batches env batches results meta st = (x, st') ->
  exists reqs, requests st' = requests st ++ reqs /\
    length reqs <= 6 * length batches /\
    Forall (fun req => exists b, b ∈ batches.*1 /\ req_texts req = map truncate_input b) reqs /\
    (gemini_key_set env = false -> Forall (fun req => req_provider req = OpenAI) reqs) /\
    (gemini_key_set env = false -> openai_key_set env = false -> reqs = []).
Proof.
  induction batches as [|[batch idxs] rest IH]; intros results meta st x st'.
  { intros [= <- <-]. exists []. rewrite app_nil_r. repeat split; try done; cbn; lia. }
  cbn [embed_batches]. unfold bind at 1.
  destruct (embedBatch env batch st) as [[r|e] st1] eqn:Hb;
    destruct (embedBatch_sends _ _ _ _ Hb) as (k1 & k2 & Hk1 & Hk2 & _ & Hr1 & Hg & Ho & Hboth).
  - unfold bind at 1.
    destruct (store_batch_ok r batch 0 idxs results st1) as (results' & st2 & Hs & Hr2).
    rewrite Hs. intros Hrest. apply IH in Hrest as (reqs2 & Hr3 & Hlen & Hall & Hg2 & Hnone).
    eexists. split; [by rewrite Hr3, Hr2, Hr1, <- !app_assoc|].
    split; [|split; [|split]].
    + rewrite !length_app, !length_replicate. cbn [length]. lia.
    + rewrite !Forall_app. repeat split.
      * apply Forall_forall. intros req ->%elem_of_replicate_inv. exists batch.
        split; [cbn; apply elem_of_cons; by left | done].
      * apply Forall_forall. intros req ->%elem_of_replicate_inv. exists batch.
        split; [cbn; apply elem_of_cons; by left | done].
      * eapply Forall_impl; [exact Hall|]. intros req (b & Hin & Hreq). exists b.
        split; [cbn; apply elem_of_cons; by right | done].
    + intros Hno. rewrite (Hg Hno). cbn [replicate app]. apply Forall_app. split; [|auto].
      apply Forall_forall. by intros req ->%elem_of_replicate_inv.
    + intros Hno1 Hno2. by specialize (Hboth Hno1 Hno2).
  - intros [= <- <-]. eexists. split; [exact Hr1|]. split; [|split; [|split]].
    + rewrite !length_app, !length_replicate. cbn [length]. lia.
    + rewrite !Forall_app. split; apply Forall_forall;
        intros req ->%elem_of_replicate_inv; exists batch;
        (split; [cbn; apply elem_of_cons; by left | done]).
    + intros Hno. rewrite (Hg Hno). cbn [replicate app].
      apply Forall_forall. by intros req ->%elem_of_replicate_inv.
    + intros Hno1 Hno2. by rewrite (Hg Hno1), (Ho Hno2).
Qed.

Lemma slices_length {A} (l : list A) :
  length (slices BATCH_SIZE l) = (length l + 9) / 10.
Proof.
  remember (length l) as n eqn:Hn. revert l Hn.
  induction n as [n IH] using lt_wf_ind. intros l Hn.
  destruct l as [|a l]; [by subst|].
  rewrite slices_cons by (unfold BATCH_SIZE; lia). cbn [length].
  destruct (Nat.le_gt_cases n 10) as [Hle | Hgt].
  - rewrite drop_ge by (unfold BATCH_SIZE; lia). cbn [slices slices_fuel length].
    apply (Nat.div_unique (n + 9) 10 1 (n - 1)); cbn [length] in Hn; lia.
  - rewrite (IH (n - 10)); [| lia | rewrite length_drop; unfold BATCH_SIZE; lia].
    replace (n + 9) with ((n - 10 + 9) + 1 * 10) by lia.
    rewrite Nat.div_add by lia. lia.
Qed.

(** X8: a call sends at most six requests for
    each batch of ten texts that miss the cache (three to each provider), no
    request carries more than ten texts, and no text is sent with more than
    [MAX_INPUT] code units. *)
Theorem embedTexts_request_bounds texts st x st' :
  embedTexts env texts st = (x, st') ->
  exists reqs, requests st' = requests st ++ reqs /\
    length reqs <= 6 * ((length (uncached_of st texts) + 9) / 10) /\
    Forall (fun req =>
              length (req_texts req) <= BATCH_SIZE /\
              Forall (fun s => (Z.of_nat (length s) <= MAX_INPUT)%Z) (req_texts req)) reqs.
Proof.
  destruct (embedTexts_unfold env texts st)
    as (results & st0 & _ & Hreq0 & _ & _ & _ & ->).
  destruct (length (uncached_of st texts) =? 0).
  - intros Hx. assert (st' = st0) as ->.
    { destruct (results !! 0) as [[first|]|]; by injection Hx. }
    exists []. rewrite app_nil_r. split; [done|]. split; [cbn; lia | constructor].
  - destruct (embed_batches env _ results None st0) as [out st1] eqn:Hb.
    apply embed_batches_sends in Hb as (reqs & Hr & Hlen & Hall & _).
    intros Hx. assert (st' = st1) as ->.
    { destruct out as [[results' meta]|e]; by injection Hx. }
    exists reqs. split; [congruence|]. split.
    + etrans; [exact Hlen|]. apply Nat.mul_le_mono_l.
      rewrite length_zip_with, !slices_length. lia.
    + eapply Forall_impl; [exact Hall|]. intros req (b & Hin & ->). split.
      * rewrite length_map.
        apply list_elem_of_fmap in Hin as ([b' i'] & -> & Hin). apply elem_of_zip_l in Hin.
        by apply slices_fuel_length in Hin.
      * apply Forall_forall. intros s (t & -> & _)%list_elem_of_fmap.
        apply truncate_input_length.
Qed.

(** X9: without a key for the primary provider
    no request goes to it: every request of the call goes to the secondary
    provider; without both keys a call with a text that misses the cache
    sends nothing and throws the combined error naming both missing keys. *)
Theorem embedTexts_missing_keys texts st x st' :
  embedTexts env texts st = (x, st') ->
  gemini_key_set env = false ->
  (exists reqs, requests st' = requests st ++ reqs /\
     Forall (fun req => req_provider req = OpenAI) reqs) /\
  (openai_key_set env = false -> uncached_of st texts <> [] ->
   requests st' = requests st /\
   x = Throw (both_failed (mkError PlainError (js "GEMINI_API_KEY not set"))
                          (mkError PlainError (js "OPENAI_API_KEY not set")))).
Proof.
  intros Hrun Hno. revert Hrun.
  destruct (embedTexts_unfold env texts st)
    as (results & st0 & _ & Hreq0 & _ & _ & _ & ->).
  destruct (uncached_of st texts) as [|u unc] eqn:Eu.
  - cbn [length Nat.eqb]. intros Hx. assert (st' = st0) as ->.
    { destruct (results !! 0) as [[first|]|]; by injection Hx. }
    split; [|done]. exists []. by rewrite app_nil_r.
  - cbn [length Nat.eqb]. rewrite slices_cons by (unfold BATCH_SIZE; lia).
    destruct (missing_positions st 0 texts) as [|i idxs] eqn:Ei.
    { pose proof (missing_positions_spec st texts 0) as [Hl _].
      rewrite Ei, Eu in Hl. discriminate. }
    rewrite slices_cons by (unfold BATCH_SIZE; lia).
    remember (u :: unc) as uncached eqn:Hu. remember (i :: idxs) as positions.
    cbn [zip zip_with]. intros Hx. split.
    + destruct (embed_batches env _ results None st0) as [out st1] eqn:Hb.
      apply embed_batches_sends in Hb as (reqs & Hr & _ & _ & Hopen & _).
      assert (st' = st1) as ->.
      { destruct out as [[results' meta]|e]; by injection Hx. }
      exists reqs. split; [congruence | by apply Hopen].
    + intros Hno2 _. revert Hx. cbn [embed_batches]. unfold bind at 1.
      destruct (embedBatch env (take BATCH_SIZE uncached) st0) as [[r|e] st1] eqn:Hb;
        destruct (embedBatch_sends _ _ _ _ Hb) as (k1 & k2 & _ & _ & _ & Hr1 & Hg & Ho & Hboth).
      * by specialize (Hboth Hno Hno2).
      * unfold finish_call. intros [= <- <-].
        rewrite Hr1, (Hg Hno), (Ho Hno2). cbn [replicate]. rewrite !app_nil_r.
        split; [done|]. by specialize (Hboth Hno Hno2) as [= ->].
Qed.

End RequestsMore.
(** ** The embedding gateway: a call of a single batch *)

Section SingleBatch.

Context {number : Type}.
Variable env : embed_env number.
Implicit Types (st : embed_state number) (texts batch : list jsstring).

Lemma scan_all_missing texts : forall i results unc idx st,
  Forall (fun t => map_get t (lru_map (cache st)) = None) texts ->
  scan_cache texts i (results, unc, idx) st =
    (Ok (results, unc ++ texts, idx ++ seq i (length texts)), st).
Proof.
  induction texts as [|t texts IH]; intros i results unc idx st Hall.
  { cbn. by rewrite !app_nil_r. }
  apply Forall_cons in Hall as [Ht Hall].
  cbn [scan_cache]. unfold bind at 1. rewrite cache_get_run, Ht, (lru_get_miss _ _ Ht).
  cbv beta iota. assert (mkEmbedState (cache st) (requests st) = st) as -> by (by destruct st).
  rewrite IH by done. cbn [length seq]. by rewrite <- !app_assoc.
Qed.

Lemma slices_single {A} (size : nat) (l : list A) :
  0 < length l <= size -> slices size l = [l].
Proof.
  intros Hl. destruct l as [|a l]; [cbn in Hl; lia|].
  rewrite slices_cons by lia. rewrite take_ge, drop_ge by lia. done.
Qed.

Lemma store_batch_fresh (r : provider_result number) texts st :
  exists st',
    store_batch r 0 texts (seq 0 (length texts)) (replicate (length texts) None) st =
      (Ok (map (fun j => Some (mkEntry (pr_embeddings r !! j) (pr_dim r)
                                 (pr_provider r) (pr_model r)))
               (seq 0 (length texts))), st') /\
    requests st' = requests st.
Proof.
  destruct (store_batch_ok r texts 0 (seq 0 (length texts))
              (replicate (length texts) None) st) as (results' & st' & Hs & Hreq).
  exists st'. split; [|done]. rewrite Hs. do 2 f_equal.
  apply store_batch_lookup in Hs as (Hlen & _ & Hin).
  - apply list_eq. intros k. rewrite list_lookup_fmap.
    destruct (decide (k < length texts)) as [Hk | Hk].
    + rewrite lookup_seq_lt by done. cbn [fmap option_fmap option_map Nat.add].
      destruct (lookup_lt_is_Some_2 texts k Hk) as [t Ht].
      apply (Hin k t k). apply lookup_zip_Some. split; [done|].
      by rewrite lookup_seq_lt.
    + rewrite lookup_seq_ge by lia. apply lookup_ge_None.
      rewrite Hlen, length_replicate. lia.
  - rewrite snd_zip by (rewrite length_seq; lia). apply NoDup_seq.
  - rewrite snd_zip by (rewrite length_seq; lia).
    intros idx [_ Hidx]%elem_of_seq. rewrite length_replicate. lia.
Qed.

(** A call on at most ten texts that all miss the cache is one batch. *)
Lemma embedTexts_single_batch texts st :
  Forall (fun t => map_get t (lru_map (cache st)) = None) texts ->
  0 < length texts <= BATCH_SIZE ->
  match embedBatch env texts st with
  | (Ok r, st1) =>
      exists st2,
        embedTexts env texts st =
          (Ok (mkEmbedResult (map (fun j => pr_embeddings r !! j) (seq 0 (length texts)))
                 (Some (pr_dim r)) (Some (pr_provider r)) (Some (pr_model r))), st2) /\
        requests st2 = requests st1
  | (Throw e, st1) => embedTexts env texts st = (Throw e, st1)
  end.
Proof.
  intros Hall Hlen.
  assert (embedTexts env texts st =
          match embedBatch env texts st with
          | (Ok r, st1) =>
              match store_batch r 0 texts (seq 0 (length texts))
                      (replicate (length texts) None) st1 with
              | (Ok results', st2) =>
                  (Ok (mkEmbedResult (embeddings_of results') (Some (pr_dim r))
                         (Some (pr_provider r)) (Some (pr_model r))), st2)
              | (Throw e, st2) => (Throw e, st2)
              end
          | (Throw e, st1) => (Throw e, st1)
          end) as ->.
  { unfold embedTexts, bind at 1.
    rewrite (scan_all_missing texts 0 _ [] [] st Hall). cbn [app]. cbv beta iota.
    destruct (length texts =? 0) eqn:E; [apply Nat.eqb_eq in E; lia|].
    rewrite !slices_single by (rewrite ?length_seq; lia).
    cbn [zip zip_with embed_batches]. unfold bind.
    destruct (embedBatch env texts st) as [[r|e] st1]; [|done].
    by destruct (store_batch r 0 texts _ _ st1) as [[results'|e] st2]. }
  destruct (embedBatch env texts st) as [[r|e] st1]; [|done].
  destruct (store_batch_fresh r texts st1) as (st2 & -> & Hreq).
  exists st2. split; [|done]. do 2 f_equal. unfold embeddings_of. by rewrite map_map.
Qed.

Lemma embedGemini_first_success batch st first others :
  gemini_key_set env = true ->
  network env (length (requests st)) (mkRequest Gemini (map truncate_input batch)) =
    ReplyGemini (first :: others) ->
  embedGemini env batch st =
    (Ok (mkProviderResult (first :: others) (length first)
           (js "google") (js "text-embedding-004")),
     mkEmbedState (cache st)
       (requests st ++ [mkRequest Gemini (map truncate_input batch)])).
Proof.
  intros Hkey Hnet. unfold embedGemini. rewrite Hkey. cbn [negb].
  unfold bind, retry. cbn [retry_loop]. unfold try_catch at 1, bind at 1, fetch_json at 1.
  by rewrite Hnet.
Qed.

(** X10: when the primary provider answers the one
    batch of a call (at most ten texts, all missing the cache) with some
    vectors, the call returns after that one request; slot [j] of the result
    is the [j]-th vector of the reply, [undefined] where the reply has
    fewer vectors than texts; and [dim] is the length of the first vector. *)
Theorem embedTexts_reply_slots texts st first others :
  Forall (fun t => map_get t (lru_map (cache st)) = None) texts ->
  0 < length texts <= BATCH_SIZE ->
  gemini_key_set env = true ->
  network env (length (requests st)) (mkRequest Gemini (map truncate_input texts)) =
    ReplyGemini (first :: others) ->
  exists st',
    embedTexts env texts st =
      (Ok (mkEmbedResult (map (fun j => (first :: others) !! j) (seq 0 (length texts)))
             (Some (length first)) (Some (js "google")) (Some (js "text-embedding-004"))),
       st') /\
    requests st' = requests st ++ [mkRequest Gemini (map truncate_input texts)].
Proof.
  intros Hall Hlen Hkey Hnet.
  pose proof (embedTexts_single_batch texts st Hall Hlen) as Hcall.
  rewrite (embedBatch_primary_ok env _ _ _ _
             (embedGemini_first_success texts st first others Hkey Hnet)) in Hcall.
  destruct Hcall as (st2 & -> & Hreq). by exists st2.
Qed.

Lemma embedBatch_result_shape batch st r st' :
  embedBatch env batch st = (Ok r, st') ->
  exists first, pr_embeddings r !! 0 = Some first /\ pr_dim r = length first /\
    provider_pair (Some (pr_provider r)) (Some (pr_model r)).
Proof.
  unfold embedBatch, try_catch.
  assert (forall s r1 s1, embedGemini env batch s = (Ok r1, s1) ->
            exists first, pr_embeddings r1 !! 0 = Some first /\ pr_dim r1 = length first /\
              provider_pair (Some (pr_provider r1)) (Some (pr_model r1))) as HG.
  { intros s r1 s1. unfold embedGemini. destruct (negb _); [discriminate|]. unfold bind.
    destruct (retry _ s) as [[[[|[|first others]|]|]|e] s2]; try discriminate.
    intros [= <- <-]. exists first. split; [done|]. split; [done|]. by left. }
  assert (forall s r1 s1, embedOpenAI env batch s = (Ok r1, s1) ->
            exists first, pr_embeddings r1 !! 0 = Some first /\ pr_dim r1 = length first /\
              provider_pair (Some (pr_provider r1)) (Some (pr_model r1))) as HO.
  { intros s r1 s1. unfold embedOpenAI. destruct (negb _); [discriminate|]. unfold bind.
    destruct (retry _ s) as [[[[| |data]|]|e] s2]; try discriminate.
    destruct (js_sort index_after data) as [|first others]; [discriminate|].
    intros [= <- <-]. exists (snd first). split; [done|]. split; [done|]. by right. }
  destruct (embedGemini env batch st) as [[r1|g] st1] eqn:Hg.
  - intros [= <- <-]. by eapply HG.
  - destruct (embedOpenAI env batch st1) as [[r2|o] st2] eqn:Ho; [|discriminate].
    intros [= <- <-]. by eapply HO.
Qed.

(** X11: for a question that misses the cache, a
    successful [embedQuery] returns a vector together with its own length as
    [dim], and the [provider] and [model] of one of the two providers. *)
Theorem embedQuery_fresh_dim text st q st' :
  map_get text (lru_map (cache st)) = None ->
  embedQuery env text st = (Ok q, st') ->
  exists v, qe_embedding q = Some v /\ qe_dim q = Some (length v) /\
    provider_pair (qe_provider q) (qe_model q).
Proof.
  intros Hmiss. unfold embedQuery, bind.
  pose proof (embedTexts_single_batch [text] st) as Hcall.
  destruct (embedBatch env [text] st) as [[r|e] st1] eqn:Hb.
  - destruct Hcall as (st2 & -> & _); [by constructor | cbn; unfold BATCH_SIZE; lia|].
    intros [= <- <-].
    cbn [qe_embedding qe_dim qe_provider qe_model er_embeddings er_dim er_provider
         er_model length seq map].
    destruct (embedBatch_result_shape _ _ _ _ Hb) as (first & H0 & Hdim & Hpair).
    exists first. exact (conj H0 (conj (f_equal Some Hdim) Hpair)).
  - rewrite Hcall; [discriminate | by constructor | cbn; unfold BATCH_SIZE; lia].
Qed.

End SingleBatch.

Lemma retry_fetch_attempts_witness :
  let req := mkRequest Gemini [js "a"] in
  let st := mkEmbedState (mkLRU 1000 []) [req] in
  exists e st',
    retry (fetch_json env_primary_then_secondary req) st = (Throw e, st') /\
    requests st' = [req; req; req; req] /\
    err_message e = js "Gemini API 429: ".
Proof.
  intros req st.
  destruct (retry (fetch_json env_primary_then_secondary req) st) as [[res|e] st'] eqn:Hr;
    [by vm_compute in Hr|].
  destruct (retry_fetch_attempts env_primary_then_secondary req st _ _ Hr)
    as (k & _ & _ & Hreq & _ & -> & _ & Hnet).
  exists e, st'. split; [done|]. split; [exact Hreq|].
  by injection Hnet as <-.
Defined.

Lemma embedTexts_request_bounds_witness :
  exists x st' reqs,
    embedTexts env_all_fail eleven_texts initial_embed_state = (x, st') /\
    requests st' = reqs /\ length reqs <= 12.
Proof.
  destruct (embedTexts env_all_fail eleven_texts initial_embed_state) as [x st'] eqn:Hrun.
  destruct (embedTexts_request_bounds env_all_fail _ _ _ _ Hrun) as (reqs & Hreq & Hlen & _).
  exists x, st', reqs. split; [done|]. split; [exact Hreq|].
  etrans; [exact Hlen|]. apply Nat.leb_le. by vm_compute.
Defined.

Lemma embedTexts_missing_keys_witness :
  exists e st',
    embedTexts env_no_keys [js "a"] initial_embed_state = (Throw e, st') /\
    requests st' = [] /\
    includes (err_message e) (js "GEMINI_API_KEY not set") = true /\
    includes (err_message e) (js "OPENAI_API_KEY not set") = true.
Proof.
  destruct (embedTexts env_no_keys [js "a"] initial_embed_state) as [x st'] eqn:Hrun.
  destruct (embedTexts_missing_keys env_no_keys _ _ _ _ Hrun eq_refl) as [_ Hboth].
  destruct Hboth as [Hreq ->]; [done | by apply is_empty_false_ne|].
  eexists _, st'. split; [done|]. split; [exact Hreq|]. split; by vm_compute.
Defined.

Lemma embedTexts_reply_slots_witness :
  exists st',
    embedTexts env_short_reply [js "a"; js "b"] initial_embed_state =
      (Ok (mkEmbedResult [Some [7; 8; 9]%Z; None] (Some 3)
             (Some (js "google")) (Some (js "text-embedding-004"))), st') /\
    length (requests st') = 1.
Proof.
  destruct (embedTexts_reply_slots env_short_reply [js "a"; js "b"] initial_embed_state
              [7; 8; 9]%Z []) as (st' & Hrun & Hreq).
  - by repeat constructor.
  - cbn. unfold BATCH_SIZE. lia.
  - done.
  - done.
  - exists st'. split; [exact Hrun | by rewrite Hreq].
Defined.

Lemma embedQuery_fresh_dim_witness :
  exists q st' v,
    embedQuery env_echo (js "what is this") initial_embed_state = (Ok q, st') /\
    qe_embedding q = Some v /\ qe_dim q = Some (length v).
Proof.
  destruct (embedQuery env_echo (js "what is this") initial_embed_state)
    as [[q|e] st'] eqn:Hq; [|by vm_compute in Hq].
  destruct (embedQuery_fresh_dim env_echo (js "what is this") initial_embed_state q st'
              eq_refl Hq) as (v & Hv & Hd & _).
  by exists q, st', v.
Defined.
(** ** The chunker: what every chunk satisfies *)

Lemma remove_ws_trimStart (s : jsstring) : remove_ws (trimStart s) = remove_ws s.
Proof.
  induction s as [|c s IH]; [done|]. cbn [trimStart]. unfold remove_ws in *.
  destruct (is_ws c) eqn:E; cbn [List.filter]; rewrite E; cbn [negb]; done.
Qed.

Lemma filter_rev {A} (f : A -> bool) (l : list A) :
  List.filter f (rev l) = rev (List.filter f l).
Proof.
  induction l as [|c l IH]; [done|].
  cbn [rev]. rewrite List.filter_app, IH. cbn [List.filter].
  by destruct (f c); cbn [rev]; rewrite ?app_nil_r.
Qed.

Lemma remove_ws_rev (s : jsstring) : remove_ws (rev s) = rev (remove_ws s).
Proof. apply filter_rev. Qed.

Lemma remove_ws_trim (s : jsstring) : remove_ws (trim s) = remove_ws s.
Proof.
  unfold trim, trimEnd.
  by rewrite remove_ws_rev, remove_ws_trimStart, remove_ws_rev, rev_involutive,
    remove_ws_trimStart.
Qed.

Lemma non_blank_ink (s : jsstring) : non_blank s = true <-> remove_ws s <> [].
Proof.
  split.
  - intros Hs Hnil. destruct (non_blank s) eqn:E; [|done].
    unfold non_blank in E. destruct (trim s) as [|c r] eqn:Et; [done|].
    rewrite <- remove_ws_trim, Et in Hnil. unfold trim, trimEnd in Et.
    apply (f_equal (@rev _)) in Et. rewrite rev_involutive in Et.
    destruct (rev (c :: r)) as [|d r'] eqn:Er.
    { apply (f_equal (@rev _)) in Er. rewrite rev_involutive in Er. done. }
    apply trimStart_head in Et.
    assert (d ∈ c :: r) as Hd.
    { apply list_elem_of_In, in_rev. rewrite Er. by left. }
    assert (d ∈ remove_ws (c :: r)) as Hd'.
    { apply list_elem_of_In, filter_In. split; [by apply list_elem_of_In | by rewrite Et]. }
    rewrite Hnil in Hd'. by apply elem_of_nil in Hd'.
  - intros Hne. destruct (non_blank s) eqn:E; [done|]. by apply blank_remove_ws in E.
Qed.

Lemma non_blank_app_r (a s : jsstring) : non_blank s = true -> non_blank (a ++ s) = true.
Proof.
  rewrite !non_blank_ink, remove_ws_app. intros Hs Happ.
  by apply app_eq_nil in Happ as [_ ?].
Qed.

Lemma non_blank_app_l (s a : jsstring) : non_blank s = true -> non_blank (s ++ a) = true.
Proof.
  rewrite !non_blank_ink, remove_ws_app. intros Hs Happ.
  by apply app_eq_nil in Happ as [? _].
Qed.

Lemma non_blank_trim (s : jsstring) : non_blank (trim s) = non_blank s.
Proof.
  destruct (non_blank s) eqn:E.
  - apply non_blank_ink. rewrite remove_ws_trim. by apply non_blank_ink.
  - destruct (non_blank (trim s)) eqn:E'; [|done].
    apply non_blank_ink in E'. rewrite remove_ws_trim in E'.
    by apply blank_remove_ws in E.
Qed.

Lemma sentences_non_blank (text : jsstring) :
  Forall (fun s => non_blank s = true) (sentences_of text).
Proof.
  apply Forall_forall. intros s Hs. unfold sentences_of in Hs.
  by apply list_elem_of_In, filter_In in Hs as [_ Hs].
Qed.

Lemma append_to_last_spec (chunks : list jsstring) (c extra : jsstring) :
  append_to_last (chunks ++ [c]) extra = chunks ++ [c ++ extra].
Proof.
  induction chunks as [|a chunks IH]; [done|].
  cbn [app]. destruct (chunks ++ [c]) as [|b l] eqn:E; [by destruct chunks|].
  cbn [append_to_last]. by rewrite <- IH.
Qed.

Lemma snoc_cases {A} (l : list A) : l = [] \/ exists l' a, l = l' ++ [a].
Proof.
  induction l as [|x l [-> | (l' & a & ->)]] using rev_ind; eauto.
Qed.

(** The loop closes chunks that are trimmed non-blank buffers and, after
    the first sentence, keeps the buffer non-blank. *)
Lemma chunk_loop_closed (P : jsstring -> Prop) (sentences : list jsstring) :
  (forall s, non_blank s = true -> P (trim s)) ->
  forall chunks current,
  Forall (fun s => non_blank s = true) sentences ->
  Forall P chunks ->
  (non_blank current = true \/ current = []) ->
  forall chunks' current',
  fold_left chunk_step sentences (chunks, current) = (chunks', current') ->
  Forall P chunks' /\
  (sentences <> [] \/ non_blank current = true -> non_blank current' = true).
Proof.
  intros HP. induction sentences as [|s ss IH];
    intros chunks current Hss Hchunks Hcur chunks' current'.
  { cbn. intros [= <- <-]. split; [done|]. by intros [? | ?]. }
  apply Forall_cons in Hss as [Hs Hss]. cbn [fold_left].
  destruct (chunk_step (chunks, current) s) as [chunks1 current1] eqn:Hstep.
  assert (Forall P chunks1 /\ non_blank current1 = true) as [Hchunks1 Hcur1].
  { revert Hstep. unfold chunk_step.
    destruct (_ && _) eqn:Hcond; intros [= <- <-].
    - split; [|by apply non_blank_app_r].
      apply Forall_app. split; [done|]. apply Forall_singleton, HP.
      destruct Hcur as [Hcur | ->]; [done|].
      apply andb_true_iff in Hcond as [_ Hlen]. apply Nat.leb_le in Hlen.
      unfold MIN_CHUNK in Hlen. cbn [length] in Hlen. lia.
    - split; [done|]. rewrite app_assoc. by apply non_blank_app_r. }
  intros Hfold.
  destruct (IH chunks1 current1 Hss Hchunks1 (or_introl Hcur1) _ _ Hfold) as [H1 H2].
  split; [done|]. intros _. apply H2. by right.
Qed.

Lemma non_blank_trim_nonempty (s : jsstring) : non_blank s = true -> trim s <> [].
Proof. unfold non_blank. by destruct (trim s). Qed.

(** What [chunk_finish] returns for a non-blank buffer. *)
Lemma chunk_finish_cases (chunks : list jsstring) (current : jsstring) :
  non_blank current = true ->
  chunk_finish (chunks, current) = chunks ++ [trim current] \/
  exists l c, chunks = l ++ [c] /\ length (trim current) < MIN_CHUNK /\
    chunk_finish (chunks, current) = l ++ [c ++ js " " ++ trim current].
Proof.
  intros Hcur. unfold chunk_finish.
  pose proof (non_blank_trim_nonempty _ Hcur) as Hne.
  destruct (trim current) as [|x t] eqn:Et; [done|]. rewrite <- Et in *.
  assert ((0 <? length (trim current)) = true) as ->.
  { rewrite Et. done. }
  destruct (Nat.ltb_spec (length (trim current)) MIN_CHUNK) as [Hshort | Hlong];
    [|by left].
  destruct (snoc_cases chunks) as [-> | (l & c & ->)]; [by left | right].
  exists l, c. split; [done|]. split; [done|].
  assert ((0 <? length (l ++ [c])) = true) as ->.
  { rewrite length_app. cbn [length]. apply Nat.ltb_lt. lia. }
  cbn [andb]. apply append_to_last_spec.
Qed.

Lemma chunkText_cases (text : jsstring) :
  chunkText text = [] /\ text = [] \/
  chunkText text = [text] /\ text <> [] /\
    (length text < MIN_CHUNK \/ sentences_of text = []) \/
  MIN_CHUNK <= length text /\ sentences_of text <> [] /\
  exists chunks current,
    fold_left chunk_step (sentences_of text) ([], []) = (chunks, current) /\
    chunkText text = chunk_finish (chunks, current).
Proof.
  destruct text as [|c text]; [by left | right].
  destruct (Nat.lt_ge_cases (length (c :: text)) MIN_CHUNK) as [Hshort | Hlong].
  - left. split; [by apply chunkText_short|]. split; [done | by left].
  - rewrite (chunkText_long _ Hlong). fold (sentences_of (c :: text)).
    destruct (sentences_of (c :: text)) as [|s ss] eqn:Es;
      [left; split; [done|]; split; [done | by right]|].
    right. split; [done|]. split; [done|].
    destruct (fold_left chunk_step (s :: ss) ([], [])) as [chunks current] eqn:E.
    by exists chunks, current.
Qed.

Lemma chunkText_nonempty (text : jsstring) : text <> [] -> chunkText text <> [].
Proof.
  intros Hne.
  destruct (chunkText_cases text)
    as [[_ ->] | [(-> & _) | (_ & Hs & chunks & current & Hfold & ->)]]; [done | done |].
  destruct (chunk_loop_closed (fun _ => True) (sentences_of text))
    with (chunks := @nil jsstring) (current := @nil N) (chunks' := chunks)
         (current' := current) as [_ Hcur]; try done.
  { apply sentences_non_blank. }
  { by right. }
  specialize (Hcur (or_introl Hs)).
  destruct (chunk_finish_cases chunks current Hcur) as [-> | (l & c & -> & _ & ->)];
    by intros [_ ?]%app_eq_nil.
Qed.

(** X12: [chunkText] returns no chunk only for the
    empty text; no chunk is ever the empty string; and when the text has a
    character that is not white space, so has every chunk. *)
Theorem chunkText_never_empty (text : jsstring) :
  (chunkText text = [] <-> text = []) /\
  (forall c, c ∈ chunkText text -> c <> []) /\
  (non_blank text = true -> forall c, c ∈ chunkText text -> non_blank c = true).
Proof.
  destruct (chunkText_cases text)
    as [[-> ->] | [(-> & Hne & _) | (Hlen & Hs & chunks & current & Hfold & ->)]].
  - split; [done|]. split; [by intros c ?%elem_of_nil | by intros _ c ?%elem_of_nil].
  - split; [done|]. split.
    + by intros c ->%list_elem_of_singleton.
    + by intros Hink c ->%list_elem_of_singleton.
  - destruct (chunk_loop_closed (fun c => non_blank c = true) (sentences_of text))
      with (chunks := @nil jsstring) (current := @nil N) (chunks' := chunks)
           (current' := current) as [Hchunks Hcur]; try done.
    { intros s Hs'. by rewrite non_blank_trim. }
    { apply sentences_non_blank. }
    { by right. }
    specialize (Hcur (or_introl Hs)).
    assert (Forall (fun c => non_blank c = true) (chunk_finish (chunks, current)) /\
            chunk_finish (chunks, current) <> []) as [Hall Hnonempty].
    { destruct (chunk_finish_cases chunks current Hcur) as [-> | (l & c & -> & _ & ->)].
      - split; [|by intros [_ ?]%app_eq_nil]. apply Forall_app. split; [done|].
        apply Forall_singleton. by rewrite non_blank_trim.
      - apply Forall_app in Hchunks as [Hl Hc]. apply Forall_inv in Hc.
        split; [|by intros [_ ?]%app_eq_nil]. apply Forall_app. split; [done|].
        apply Forall_singleton. by apply non_blank_app_l. }
    rewrite Forall_forall in Hall.
    split; [split; [done | intros ->; cbn in Hlen; unfold MIN_CHUNK in Hlen; lia]|].
    split; [|by intros _ c Hc; apply Hall].
    intros c Hc%Hall ->. done.
Qed.

(** *** Chunks are trimmed *)

Lemma trimStart_suffix (s : jsstring) : exists pre, s = pre ++ trimStart s.
Proof.
  induction s as [|c s [pre IH]]; [by exists []|]. cbn [trimStart].
  destruct (is_ws c); [|by exists []]. exists (c :: pre). cbn. by f_equal.
Qed.

Lemma trimStart_fixed (c : jschar) (s : jsstring) :
  is_ws c = false -> trimStart (c :: s) = c :: s.
Proof. intros Hc. cbn. by rewrite Hc. Qed.

Lemma trimEnd_fixed (s : jsstring) (d : jschar) :
  is_ws d = false -> trimEnd (s ++ [d]) = s ++ [d].
Proof.
  intros Hd. unfold trimEnd. rewrite rev_unit, (trimStart_fixed _ _ Hd).
  cbn [rev]. by rewrite rev_involutive.
Qed.

(** A non-blank string trims to a string that starts and ends with
    characters that are not white space. *)
Lemma trim_ends (s : jsstring) :
  non_blank s = true ->
  exists c r d r', trim s = c :: r /\ is_ws c = false /\
                   trim s = r' ++ [d] /\ is_ws d = false.
Proof.
  intros Hs. pose proof (non_blank_trim_nonempty _ Hs) as Hne. unfold trim in *.
  destruct (trimStart s) as [|c r] eqn:Et; [done|].
  pose proof (trimStart_head _ _ _ Et) as Hc.
  unfold trimEnd in *.
  destruct (trimStart (rev (c :: r))) as [|d u] eqn:Eu; [done|].
  pose proof (trimStart_head _ _ _ Eu) as Hd.
  destruct (trimStart_suffix (rev (c :: r))) as [pre Hpre]. rewrite Eu in Hpre.
  apply (f_equal (@rev _)) in Hpre. rewrite rev_involutive, rev_app_distr in Hpre.
  cbn [rev] in Hpre |- *.
  destruct (rev u ++ [d]) as [|x t] eqn:Ex; [by destruct (rev u)|].
  cbn [app] in Hpre. injection Hpre as <- _.
  exists c, t, d, (rev u). by rewrite Ex.
Qed.

Lemma ends_trimmed (s r r' : jsstring) (c d : jschar) :
  s = c :: r -> is_ws c = false -> s = r' ++ [d] -> is_ws d = false -> trimmed s.
Proof.
  intros Hc Hcw Hd Hdw. split; [by rewrite Hc|]. unfold trim.
  rewrite Hc, (trimStart_fixed _ _ Hcw), <- Hc, Hd. by apply trimEnd_fixed.
Qed.

Lemma trimmed_trim (s : jsstring) : non_blank s = true -> trimmed (trim s).
Proof.
  intros (c & r & d & r' & Hc & Hcw & Hd & Hdw)%trim_ends. by eapply ends_trimmed.
Qed.

Lemma trimmed_ends (s : jsstring) :
  trimmed s ->
  exists c r d r', s = c :: r /\ is_ws c = false /\ s = r' ++ [d] /\ is_ws d = false.
Proof.
  intros [Hne Ht]. rewrite <- Ht. apply trim_ends. unfold non_blank. rewrite Ht.
  by destruct s.
Qed.

Lemma trimmed_app (a x b : jsstring) : trimmed a -> trimmed b -> trimmed (a ++ x ++ b).
Proof.
  intros (c & r & _ & _ & -> & Hc & _ & _)%trimmed_ends
         (_ & _ & d & r' & _ & _ & -> & Hd)%trimmed_ends.
  eapply (ends_trimmed _ (r ++ x ++ r' ++ [d]) ((c :: r) ++ x ++ r') c d); try done.
  by rewrite <- !app_assoc.
Qed.

(** X13: for a text of at least [MIN_CHUNK]
    characters with a non-blank sentence, no chunk is empty and no chunk
    starts or ends with white space: each chunk is its own [trim]. *)
Theorem chunkText_chunks_trimmed (text : jsstring) :
  MIN_CHUNK <= length text -> sentences_of text <> [] ->
  Forall trimmed (chunkText text).
Proof.
  intros Hlen Hs.
  destruct (chunkText_cases text)
    as [[_ ->] | [(_ & _ & [Hshort | Hnil]) | (_ & _ & chunks & current & Hfold & ->)]];
    [cbn in Hlen; unfold MIN_CHUNK in Hlen; lia | lia | done |].
  destruct (chunk_loop_closed trimmed (sentences_of text))
    with (chunks := @nil jsstring) (current := @nil N) (chunks' := chunks)
         (current' := current) as [Hchunks Hcur]; try done.
  { apply trimmed_trim. }
  { apply sentences_non_blank. }
  { by right. }
  specialize (Hcur (or_introl Hs)).
  destruct (chunk_finish_cases chunks current Hcur) as [-> | (l & c & -> & _ & ->)].
  - apply Forall_app. split; [done|]. apply Forall_singleton. by apply trimmed_trim.
  - apply Forall_app in Hchunks as [Hl Hc]. apply Forall_inv in Hc.
    apply Forall_app. split; [done|]. apply Forall_singleton.
    apply trimmed_app; [done | by apply trimmed_trim].
Qed.

Lemma chunkText_chunks_trimmed_witness :
  Forall trimmed (chunkText (repeat_str 300 "abc. ")).
Proof.
  apply chunkText_chunks_trimmed.
  - apply Nat.leb_le. by vm_compute.
  - apply is_empty_false_ne. by vm_compute.
Defined.

(** *** The size of the chunks *)

Lemma length_trimStart (s : jsstring) : length (trimStart s) <= length s.
Proof.
  induction s as [|c s IH]; [done|]. cbn [trimStart].
  destruct (is_ws c); cbn [length]; lia.
Qed.

Lemma length_trim (s : jsstring) : length (trim s) <= length s.
Proof.
  unfold trim, trimEnd. rewrite length_rev.
  etrans; [apply length_trimStart|]. rewrite length_rev. apply length_trimStart.
Qed.

Lemma length_overlap (s : jsstring) : length (slice_from (- Z.of_nat OVERLAP) s) <= OVERLAP.
Proof.
  unfold slice_from, OVERLAP. rewrite length_drop.
  destruct (Z.ltb_spec (- Z.of_nat 200) 0); lia.
Qed.

(** The buffer stays below the bound, and so does every closed chunk. *)
Lemma chunk_loop_length (L : nat) (sentences : list jsstring) :
  let B := Nat.max (CHUNK_SIZE + 1) (OVERLAP + L) in
  forall chunks current,
  Forall (fun s => length s <= L) sentences ->
  Forall (fun c => length c <= B) chunks ->
  length current <= B ->
  forall chunks' current',
  fold_left chunk_step sentences (chunks, current) = (chunks', current') ->
  Forall (fun c => length c <= B) chunks' /\ length current' <= B.
Proof.
  intros B. induction sentences as [|s ss IH];
    intros chunks current Hss Hchunks Hcur chunks' current'.
  { cbn. by intros [= <- <-]. }
  apply Forall_cons in Hss as [Hs Hss]. cbn [fold_left].
  destruct (chunk_step (chunks, current) s) as [chunks1 current1] eqn:Hstep.
  apply IH; [done | |]; revert Hstep; unfold chunk_step;
    destruct (Nat.ltb_spec CHUNK_SIZE (length current + length s)) as [Hbig | Hsmall];
    destruct (Nat.leb_spec MIN_CHUNK (length current)) as [Hmin | Htiny];
    cbn [andb]; intros [= <- <-]; try done.
  - apply Forall_app. split; [done|]. apply Forall_singleton.
    etrans; [apply length_trim | done].
  - rewrite length_app. pose proof (length_overlap current). subst B. lia.
  - rewrite !length_app. subst B. unfold OVERLAP, CHUNK_SIZE, MIN_CHUNK in *.
    destruct current; cbn [is_empty length] in *; change (length (js " ")) with 1; lia.
  - rewrite !length_app. subst B. unfold OVERLAP, CHUNK_SIZE, MIN_CHUNK in *.
    destruct current; cbn [is_empty length] in *; change (length (js " ")) with 1; lia.
  - rewrite !length_app. subst B. unfold OVERLAP, CHUNK_SIZE, MIN_CHUNK in *.
    destruct current; cbn [is_empty length] in *; change (length (js " ")) with 1; lia.
Qed.

(** X14: when the text has a non-blank sentence and
    no non-blank sentence has more than [L] characters, every chunk has at
    most [max (CHUNK_SIZE + 1) (OVERLAP + L) + MIN_CHUNK] characters. *)
Theorem chunkText_chunk_length (text : jsstring) (L : nat) :
  sentences_of text <> [] ->
  Forall (fun s => length s <= L) (sentences_of text) ->
  Forall (fun c => length c <= Nat.max (CHUNK_SIZE + 1) (OVERLAP + L) + MIN_CHUNK)
         (chunkText text).
Proof.
  intros Hs HL.
  destruct (chunkText_cases text)
    as [[-> _] | [(-> & _ & [Hshort | Hnil]) | (_ & _ & chunks & current & Hfold & ->)]];
    [constructor | apply Forall_singleton; lia | done |].
  destruct (chunk_loop_length L (sentences_of text) [] [] HL (Forall_nil_2 _)
              (Nat.le_0_l _) _ _ Hfold) as [Hchunks Hcur].
  assert (non_blank current = true) as Hink.
  { destruct (chunk_loop_closed (fun _ => True) (sentences_of text))
      with (chunks := @nil jsstring) (current := @nil N) (chunks' := chunks)
           (current' := current) as [_ Hc]; try done.
    { apply sentences_non_blank. }
    { by right. }
    apply Hc. by left. }
  pose proof (length_trim current) as Ht.
  destruct (chunk_finish_cases chunks current Hink) as [-> | (l & c & -> & Hshort & ->)].
  - apply Forall_app. split.
    + eapply Forall_impl; [exact Hchunks|]. intros c Hc. cbv beta in Hc. lia.
    + apply Forall_singleton. lia.
  - apply Forall_app in Hchunks as [Hl Hc]. apply Forall_inv in Hc.
    apply Forall_app. split.
    + eapply Forall_impl; [exact Hl|]. intros c' Hc'. cbv beta in Hc'. lia.
    + apply Forall_singleton. rewrite !length_app. cbn [length js map].
      change (length (js " ")) with 1. lia.
Qed.

Lemma chunkText_chunk_length_witness :
  Forall (fun c => length c <= 901) (chunkText (repeat_str 300 "abc. ")).
Proof.
  assert (Nat.max (CHUNK_SIZE + 1) (OVERLAP + 4) + MIN_CHUNK = 901) as <-
    by (unfold CHUNK_SIZE, OVERLAP, MIN_CHUNK; lia).
  apply chunkText_chunk_length.
  - apply is_empty_false_ne. by vm_compute.
  - apply Forall_forall. intros s Hs. apply Nat.leb_le. apply list_elem_of_In in Hs.
    revert s Hs. apply forallb_forall. by vm_compute.
Defined.
(** ** The lock: two processes *)

(** X15: after a process has acquired the lock,
    a second acquisition that sees this process alive, less than [STALE_MS]
    after the marker was written, fails with the busy error and leaves the
    marker; once [release] has run the marker is gone, a second [release]
    changes nothing, and the next acquisition succeeds. *)
Theorem acquireLock_excludes_second env1 env2 fs fs1 :
  acquireLock env1 fs = (Ok tt, fs1) ->
  (signalable env2 (own_pid env1) = true ->
   (now_check env2 - now_write env1 < STALE_MS)%Z ->
   acquireLock env2 fs1 = (Throw busy_error, fs1)) /\
  marker_file (release fs1) = None /\
  marker_file (release (release fs1)) = None /\
  fst (acquireLock env2 (release fs1)) = Ok tt.
Proof.
  intros Hacq.
  assert (marker_file fs1 = Some (Parsed (Some (now_write env1)) (Some (own_pid env1))))
    as Hm.
  { revert Hacq. unfold acquireLock.
    destruct (marker_file fs) as [m|]; [|by intros [= <-]].
    destruct (check_marker env1 m) as [[]|err]; [by intros [= <-]|].
    destruct (includes _ _); [discriminate | by intros [= <-]]. }
  split; [|done].
  intros Halive Hfresh. unfold acquireLock. rewrite Hm.
  assert (check_marker env2 (Parsed (Some (now_write env1)) (Some (own_pid env1)))
          = Throw busy_error) as ->.
  { apply check_marker_busy. by eexists _, _. }
  by rewrite includes_busy_message.
Qed.

Lemma acquireLock_excludes_second_witness :
  exists fs1,
    acquireLock env_lock_first (mkLockFs None []) = (Ok tt, fs1) /\
    acquireLock env_lock_second fs1 = (Throw busy_error, fs1) /\
    fst (acquireLock env_lock_second (release fs1)) = Ok tt.
Proof.
  eexists. split; [reflexivity|].
  destruct (acquireLock_excludes_second env_lock_first env_lock_second (mkLockFs None []) _
              eq_refl) as (Hbusy & _ & _ & Hnext).
  split; [|exact Hnext]. apply Hbusy; [done | by vm_compute].
Defined.

(** ** The orchestrator: what a run stores *)

Section IngestMore.

Context {number : Type} `{JsNumber number}.
Variable env : ingest_env number.
Implicit Types (w : world number) (p : prepared) (r : embed_result number).

(** What [prepare] passes on. *)
Lemma prepare_inr rawUrl (db : database number) p :
  prepare env rawUrl db = Ok (inr p) ->
  let url := normalizeUrl (ie_url env) rawUrl in
  p_url p = url /\ p_sourceType p = detectSourceType url /\
  List.find (fun s => jsstring_eqb (src_url s) url) (sources db) = None /\
  exists ex,
    ie_extractContent env url (detectSourceType url) = Ok ex /\
    p_title p = ex_title ex /\ p_metadata p = ex_metadata ex /\
    p_content p = truncateContent (ex_content ex) /\
    ((p_content p = [] /\ p_contentHash p = None /\ p_chunks p = []) \/
     (p_content p <> [] /\
      ie_validateContent env (p_content p) (detectSourceType url) (ex_metadata ex) = None /\
      p_contentHash p = Some (ie_sha256 env (p_content p)) /\
      p_chunks p = chunkText (p_content p) /\
      List.find (fun s => match src_content_hash s with
                          | Some h => jsstring_eqb h (ie_sha256 env (p_content p))
                          | None => false
                          end) (sources db) = None)).
Proof.
  intros Hp url. unfold prepare in Hp. fold url in Hp.
  destruct (List.find _ (sources db)) as [existing|] eqn:Hfind; [discriminate|].
  destruct (ie_extractContent env url (detectSourceType url)) as [ex|e] eqn:Hex;
    [|discriminate].
  destruct (truncateContent (ex_content ex)) as [|c content] eqn:Hc.
  - cbn [length Nat.ltb Nat.leb] in Hp.
    destruct (ie_validateContent env [] _ _); injection Hp as <-;
      (repeat split; try done); exists ex; repeat split; try done; by left.
  - change (0 <? length (c :: content)) with true in Hp. cbv iota in Hp.
    destruct (ie_validateContent env (c :: content) _ _) eqn:Hv; [discriminate|].
    destruct (List.find _ (sources db)) as [dup|] eqn:Hdup in Hp; [discriminate|].
    injection Hp as <-. repeat split; try done. exists ex.
    repeat split; try done. right. by repeat split.
Qed.

Lemma chunk_rows_content sourceId r chunks : forall uuids i,
  map chk_content (chunk_rows env uuids sourceId i chunks r) = chunks /\
  map chk_index (chunk_rows env uuids sourceId i chunks r) = seq i (length chunks) /\
  map chk_id (chunk_rows env uuids sourceId i chunks r) =
    map (ie_randomUUID env) (seq uuids (length chunks)) /\
  Forall (fun c => chk_source_id c = sourceId /\ chk_dim c = er_dim r /\
                   chk_provider c = er_provider r /\ chk_model c = er_model r)
         (chunk_rows env uuids sourceId i chunks r).
Proof.
  induction chunks as [|c chunks IH]; intros uuids i; cbn [chunk_rows].
  - repeat split; done.
  - destruct (IH (S uuids) (S i)) as (Hc & Hi & Hid & Hall).
    cbn [map length seq]. rewrite Hc, Hi, Hid. repeat split; try done.
    by constructor.
Qed.

Lemma length_chunk_rows sourceId r chunks uuids i :
  length (chunk_rows env uuids sourceId i chunks r) = length chunks.
Proof. by destruct (chunk_rows_spec env sourceId r chunks uuids i). Qed.

(** The rows written by [commit]. *)
Lemma commit_rows p r w o w' :
  commit env p r w = (Ok o, w') ->
  let sourceId := ie_randomUUID env (w_uuids w) in
  w_db w' =
    mkDb (sources (w_db w) ++
            [mkSource sourceId (p_url p) (p_title p) (p_sourceType p) (p_content p)
               (p_contentHash p) (p_metadata p)])
         (chunks (w_db w) ++ chunk_rows env (S (w_uuids w)) sourceId 0 (p_chunks p) r) /\
  w_embed w' = w_embed w /\ w_lock w' = w_lock w /\
  io_sourceId o = Some sourceId /\ io_chunks o = length (p_chunks p) /\
  io_status o = (if 0 <? length (p_content p) then ok else pending_transcript).
Proof.
  unfold commit. destruct (run_transaction _ _ _) as [db'|] eqn:Htx; [|discriminate].
  intros [= <- <-]. apply run_transaction_some in Htx as ->. done.
Qed.

(** A run that returns went through [acquireLock], [prepare] and, unless it
    ended early, the Embed step and [commit]. *)
Lemma ingest_inv rawUrl w o w' :
  ingest env rawUrl w = (Ok o, w') ->
  exists fs, acquireLock (ie_lock env) (w_lock w) = (Ok tt, fs) /\
    w_lock w' = release fs /\
    ((prepare env rawUrl (w_db w) = Ok (inl o) /\
      w_db w' = w_db w /\ w_embed w' = w_embed w /\ w_uuids w' = w_uuids w) \/
     exists p r es w1,
       prepare env rawUrl (w_db w) = Ok (inr p) /\
       embed_step env (p_chunks p) (w_embed w) = (Ok r, es) /\
       commit env p r (mkWorld (w_db w) es fs (w_uuids w)) = (Ok o, w1) /\
       w_db w' = w_db w1 /\ w_embed w' = es).
Proof.
  unfold ingest. destruct (acquireLock _ _) as [[[]|e] fs] eqn:Hacq; [|discriminate].
  destruct (_ingest env rawUrl _) as [x1 w1] eqn:Hi. intros [= -> <-].
  exists fs. split; [done|]. cbn [w_lock w_db w_embed w_uuids].
  pose proof (_ingest_store env rawUrl _ _ _ Hi) as [Hl _]. cbn [w_lock] in Hl.
  split; [by rewrite Hl|]. revert Hi. unfold _ingest. cbn [w_db w_embed w_lock w_uuids].
  destruct (prepare env rawUrl (w_db w)) as [[o' | p] | e]; [| |discriminate].
  - intros [= <- <-]. by left.
  - destruct (embed_step env (p_chunks p) (w_embed w)) as [[r|e] es] eqn:He;
      [|discriminate].
    intros Hc. right. exists p, r, es, w1. repeat split; try done.
    by apply commit_rows in Hc as (_ & -> & _).
Qed.

(** X16: when the lock is held by a live process
    and is not stale, [ingest] throws the busy error and changes nothing,
    the marker included; and whenever the lock is acquired, the marker is
    gone when [ingest] ends, whatever it returns or throws. *)
Theorem ingest_lock_discipline rawUrl w x w' :
  ingest env rawUrl w = (x, w') ->
  (forall m, marker_file (w_lock w) = Some m -> held_fresh (ie_lock env) m ->
     x = Throw busy_error /\ w' = w) /\
  ((exists fs, acquireLock (ie_lock env) (w_lock w) = (Ok tt, fs)) ->
   marker_file (w_lock w') = None).
Proof.
  unfold ingest. intros Hrun. split.
  - intros m Hm Hheld. revert Hrun. unfold acquireLock. rewrite Hm.
    apply check_marker_busy in Hheld as ->. rewrite includes_busy_message.
    intros [= <- <-]. by destruct w.
  - intros (fs & Hacq). rewrite Hacq in Hrun.
    destruct (_ingest env rawUrl _) as [x1 w1]. by injection Hrun as <- <-.
Qed.

Lemma starts_with_app (a b : jsstring) : starts_with a (a ++ b) = true.
Proof. induction a as [|x a IH]; [done|]. cbn. by rewrite N.eqb_refl, IH. Qed.

Lemma includes_starts (s sub : jsstring) : starts_with sub s = true -> includes s sub = true.
Proof. intros Hs. destruct s; cbn [includes]; by rewrite Hs. Qed.

Lemma includes_mid (a b c : jsstring) : includes (a ++ b ++ c) b = true.
Proof.
  induction a as [|x a IH]; [cbn [app]; apply includes_starts; apply starts_with_app|].
  cbn [app includes]. rewrite IH. apply orb_true_r.
Qed.

Lemma find_app_new {A} (f : A -> bool) (l : list A) (a : A) :
  List.find f l = None -> f a = true -> List.find f (l ++ [a]) = Some a.
Proof.
  induction l as [|b l IH]; cbn; [by intros _ ->|].
  destruct (f b); [discriminate | done].
Qed.

(** X17: after a run that stored a source, a
    second run on the same input returns [duplicate_url], naming the stored
    source, and changes neither the store nor the cache, and sends nothing
    to a provider. *)
Theorem ingest_twice_is_duplicate rawUrl w o w1 :
  ingest env rawUrl w = (Ok o, w1) ->
  io_status o = ok \/ io_status o = pending_transcript ->
  exists o2 w2 id,
    ingest env rawUrl w1 = (Ok o2, w2) /\
    io_status o2 = duplicate_url /\
    io_sourceId o = Some id /\ includes (io_message o2) id = true /\
    w_db w2 = w_db w1 /\ w_embed w2 = w_embed w1 /\ w_uuids w2 = w_uuids w1 /\
    marker_file (w_lock w2) = None.
Proof.
  intros Hrun Hstatus.
  apply ingest_inv in Hrun as (fs & Hacq & Hlock & Hcase).
  destruct Hcase as [(Hp & _) | (p & r & es & w' & Hp & He & Hc & Hdb & Hemb)].
  { revert Hp. unfold prepare.
    repeat (case_match; try discriminate); intros [= <-]; by destruct Hstatus. }
  apply prepare_inr in Hp as (Hurl & _ & Hfind & _).
  apply commit_rows in Hc as (Hdb' & _ & _ & Hid & _).
  cbn [w_db w_uuids] in Hdb'. rewrite Hdb' in Hdb.
  set (id := ie_randomUUID env (w_uuids w)) in *.
  set (s := mkSource id (p_url p) (p_title p) (p_sourceType p) (p_content p)
              (p_contentHash p) (p_metadata p)) in *.
  assert (prepare env rawUrl (w_db w1) =
          Ok (inl (mkOutcome duplicate_url
                     (js "Already ingested: " ++ quoted (src_title s)
                      ++ js " (" ++ src_id s ++ js ")") None 0 None))) as Hp2.
  { unfold prepare. rewrite Hdb. cbn [sources].
    rewrite (find_app_new _ _ s Hfind); [done|]. cbn [src_url s]. rewrite Hurl.
    apply jsstring_eqb_refl. }
  eexists _, _, id. unfold ingest, acquireLock. rewrite Hlock.
  cbn [release unlinkSync marker_file]. unfold _ingest. cbn [w_db]. rewrite Hp2.
  split; [done|]. split; [done|]. split; [done|]. split; [|done].
  cbn [io_message src_id s]. rewrite !app_assoc, <- app_assoc. apply includes_mid.
Qed.

Lemma find_none_url (l : list source_row) url :
  List.find (fun s => jsstring_eqb (src_url s) url) l = None -> url ∉ map src_url l.
Proof.
  intros Hfind (s & -> & Hs)%list_elem_of_fmap. apply list_elem_of_In in Hs.
  apply (find_none _ _ Hfind) in Hs. by rewrite jsstring_eqb_refl in Hs.
Qed.

Lemma find_none_hash (l : list source_row) h :
  List.find (fun s => match src_content_hash s with
                      | Some h' => jsstring_eqb h' h
                      | None => false
                      end) l = None ->
  h ∉ stored_hashes l.
Proof.
  intros Hfind (s & Hs & Hh)%list_elem_of_omap. apply list_elem_of_In in Hs.
  apply (find_none _ _ Hfind) in Hs. rewrite Hh in Hs. by rewrite jsstring_eqb_refl in Hs.
Qed.

(** X18: if no two stored sources have the
    same URL or the same content hash, this is still so after [ingest],
    whatever it returns or throws. *)
Theorem ingest_keeps_sources_distinct rawUrl w x w' :
  ingest env rawUrl w = (x, w') ->
  sources_distinct (sources (w_db w)) ->
  sources_distinct (sources (w_db w')).
Proof.
  intros Hrun [Hurls Hhashes]. destruct x as [o|e].
  2: { apply ingest_store in Hrun. by rewrite Hrun. }
  apply ingest_inv in Hrun as (fs & _ & _ & Hcase).
  destruct Hcase as [(_ & -> & _) | (p & r & es & w1 & Hp & _ & Hc & -> & _)]; [done|].
  apply commit_rows in Hc as (-> & _). cbn [w_db sources].
  apply prepare_inr in Hp as (Hurl & _ & Hfind & ex & _ & _ & _ & _ & Hcontent).
  unfold sources_distinct, stored_hashes. rewrite map_app, omap_app. cbn [map omap src_url].
  split.
  - apply NoDup_app. split; [done|]. split; [|apply NoDup_singleton].
    intros u Hu ->%list_elem_of_singleton. revert Hu. rewrite Hurl.
    by apply find_none_url.
  - destruct Hcontent as [(_ & -> & _) | (_ & _ & -> & _ & Hdup)]; cbn.
    + by rewrite app_nil_r.
    + apply NoDup_app. split; [done|]. split; [|apply NoDup_singleton].
      intros h Hh ->%list_elem_of_singleton. revert Hh. by apply find_none_hash.
Qed.

(** X19: a run that returns [ok] has added one source
    row, with the normalised URL, the detected type, the title and the
    truncated content of the extraction and the hash of that content, and
    one chunk row for each chunk of [chunkText] of that content, in order,
    numbered from 0, each with the id of the new source and with the [dim],
    [provider] and [model] that [embedTexts] returned for the call. *)
Theorem ingest_stores_chunks rawUrl w o w' :
  ingest env rawUrl w = (Ok o, w') ->
  io_status o = ok ->
  let url := normalizeUrl (ie_url env) rawUrl in
  exists ex s cs r es,
    ie_extractContent env url (detectSourceType url) = Ok ex /\
    embedTexts (ie_embed env) (chunkText (truncateContent (ex_content ex))) (w_embed w)
      = (Ok r, es) /\
    w_db w' = mkDb (sources (w_db w) ++ [s]) (chunks (w_db w) ++ cs) /\
    w_embed w' = es /\
    s = mkSource (ie_randomUUID env (w_uuids w)) url (ex_title ex) (detectSourceType url)
          (truncateContent (ex_content ex))
          (Some (ie_sha256 env (truncateContent (ex_content ex)))) (ex_metadata ex) /\
    io_sourceId o = Some (src_id s) /\ io_chunks o = length cs /\
    map chk_content cs = chunkText (truncateContent (ex_content ex)) /\
    map chk_index cs = seq 0 (length cs) /\
    Forall (fun c => chk_source_id c = src_id s /\ chk_dim c = er_dim r /\
                     chk_provider c = er_provider r /\ chk_model c = er_model r) cs.
Proof.
  intros Hrun Hstatus url.
  apply ingest_inv in Hrun as (fs & _ & _ & Hcase).
  destruct Hcase as [(Hp & _) | (p & r & es & w1 & Hp & He & Hc & -> & ->)].
  { revert Hp. unfold prepare.
    repeat (case_match; try discriminate); intros [= <-]; discriminate. }
  apply commit_rows in Hc as (-> & _ & _ & Hid & Hn & Hst). cbn [w_db w_uuids].
  rewrite Hstatus in Hst.
  apply prepare_inr in Hp as (Hurl & Htype & _ & ex & Hex & Htitle & Hmeta & Hcontent & Hcase).
  fold url in Hurl, Htype, Hex.
  destruct Hcase as [(Hnil & _) | (Hne & _ & Hhash & Hchunks & _)].
  { rewrite Hnil in Hst. discriminate. }
  destruct (chunk_rows_content (ie_randomUUID env (w_uuids w)) r (p_chunks p)
              (S (w_uuids w)) 0) as (Hcc & Hci & _ & Hall).
  assert (p_chunks p <> []) as Hnonempty by (rewrite Hchunks; by apply chunkText_nonempty).
  assert (embedTexts (ie_embed env) (p_chunks p) (w_embed w) = (Ok r, es)) as Hemb.
  { revert He. unfold embed_step. destruct (p_chunks p); [done|]. done. }
  rewrite Hchunks, Hcontent in Hemb.
  eexists ex, _, _, r, es. split; [exact Hex|]. split; [exact Hemb|].
  split; [reflexivity|]. split; [done|].
  split; [by rewrite Hurl, Htitle, Htype, Hcontent, Hhash, Hmeta, Hcontent|].
  split; [exact Hid|]. split; [by rewrite Hn, length_chunk_rows|].
  split; [by rewrite Hcc, Hchunks, Hcontent|].
  split; [by rewrite Hci, length_chunk_rows|]. exact Hall.
Qed.

Lemma truncateContent_nil : truncateContent [] = [].
Proof.
  unfold truncateContent, slice. destruct (_ <? _); [|done].
  by rewrite drop_nil, take_nil.
Qed.

Lemma existsb_not_elem (id : jsstring) (l : list jsstring) :
  id ∉ l -> existsb (jsstring_eqb id) l = false.
Proof.
  intros Hnot. destruct (existsb _ l) eqn:E; [|done].
  apply existsb_exists in E as (x & Hx & ->%jsstring_eqb_eq).
  by apply list_elem_of_In in Hx.
Qed.

(** X20: when the extraction finds no
    content for a new URL, [ingest] calls no provider and stores the source
    alone, without content hash and without chunks, and returns
    [pending_transcript] with the id of the new source. *)
Theorem ingest_empty_content_is_pending rawUrl w fs ex :
  let url := normalizeUrl (ie_url env) rawUrl in
  let id := ie_randomUUID env (w_uuids w) in
  acquireLock (ie_lock env) (w_lock w) = (Ok tt, fs) ->
  List.find (fun s => jsstring_eqb (src_url s) url) (sources (w_db w)) = None ->
  ie_extractContent env url (detectSourceType url) = Ok ex ->
  ex_content ex = [] ->
  id ∉ map src_id (sources (w_db w)) ->
  ingest env rawUrl w =
    (Ok (mkOutcome pending_transcript [] (Some id) 0 None),
     mkWorld
       (mkDb (sources (w_db w) ++
                [mkSource id url (ex_title ex) (detectSourceType url) [] None
                   (ex_metadata ex)])
             (chunks (w_db w)))
       (w_embed w) (release fs) (S (w_uuids w))).
Proof.
  intros url id Hacq Hfind Hex Hempty Hfresh.
  unfold ingest. rewrite Hacq. unfold _ingest. cbn [w_db w_embed w_lock w_uuids].
  assert (prepare env rawUrl (w_db w) =
          Ok (inr (mkPrepared url (detectSourceType url) (ex_title ex) [] None
                     (ex_metadata ex) []))) as ->.
  { unfold prepare. fold url. rewrite Hfind, Hex, Hempty, truncateContent_nil.
    cbn [length Nat.ltb Nat.leb]. by destruct (ie_validateContent env [] _ _). }
  cbn [p_chunks embed_step length Nat.ltb Nat.leb]. unfold ret, commit.
  cbn [w_db w_embed w_lock w_uuids p_chunks p_url p_title p_sourceType p_content
       p_contentHash p_metadata chunk_rows length]. fold id.
  unfold run_transaction. cbn [src_id src_content_hash map existsb].
  rewrite (existsb_not_elem _ _ Hfresh). cbn [orb].
  rewrite bool_decide_eq_true_2 by constructor. cbn [negb].
  rewrite app_nil_r, Nat.add_0_r. cbn [er_model Nat.ltb Nat.leb length]. done.
Qed.

End IngestMore.

Lemma ingest_lock_discipline_witness :
  exists x w',
    ingest env_ingest_ok (js "https://example.com/a") empty_world = (x, w') /\
    marker_file (w_lock w') = None.
Proof.
  destruct (ingest env_ingest_ok (js "https://example.com/a") empty_world) as [x w'] eqn:Hrun.
  exists x, w'. split; [done|].
  apply (ingest_lock_discipline env_ingest_ok _ _ _ _ Hrun). by eexists.
Defined.

Lemma ingest_twice_is_duplicate_witness :
  exists o w1 o2 w2,
    ingest env_ingest_ok (js "https://example.com/a") empty_world = (Ok o, w1) /\
    ingest env_ingest_ok (js "https://example.com/a") w1 = (Ok o2, w2) /\
    io_status o2 = duplicate_url /\ w_db w2 = w_db w1.
Proof.
  destruct (ingest env_ingest_ok (js "https://example.com/a") empty_world)
    as [[o|e] w1] eqn:Hrun; [|by vm_compute in Hrun].
  destruct (ingest_twice_is_duplicate env_ingest_ok _ _ o w1 Hrun)
    as (o2 & w2 & id & H2 & Hst & _ & _ & Hdb & _).
  { left. revert Hrun. vm_compute. by intros [= <- _]. }
  exists o, w1, o2, w2. exact (conj eq_refl (conj H2 (conj Hst Hdb))).
Defined.

Lemma ingest_keeps_sources_distinct_witness :
  exists x w',
    ingest env_ingest_ok (js "https://example.com/a") empty_world = (x, w') /\
    sources_distinct (sources (w_db w')).
Proof.
  destruct (ingest env_ingest_ok (js "https://example.com/a") empty_world) as [x w'] eqn:Hrun.
  exists x, w'. split; [done|].
  apply (ingest_keeps_sources_distinct env_ingest_ok _ _ _ _ Hrun).
  split; constructor.
Defined.

Lemma ingest_stores_chunks_witness :
  exists o w' cs,
    ingest env_ingest_ok (js "https://example.com/a") empty_world = (Ok o, w') /\
    chunks (w_db w') = cs /\
    map chk_content cs = chunkText (repeat_str 30 "word ") /\
    map chk_index cs = seq 0 (length cs).
Proof.
  destruct (ingest env_ingest_ok (js "https://example.com/a") empty_world)
    as [[o|e] w'] eqn:Hrun; [|by vm_compute in Hrun].
  destruct (ingest_stores_chunks env_ingest_ok _ _ o w' Hrun)
    as (ex & s & cs & r & es & Hex & _ & Hdb & _ & _ & _ & _ & Hcc & Hci & _).
  { revert Hrun. vm_compute. by intros [= <- _]. }
  exists o, w', cs. split; [done|]. rewrite Hdb. split; [done|].
  injection Hex as <-. split; [|exact Hci].
  rewrite Hcc. by vm_compute.
Defined.

Lemma ingest_empty_content_is_pending_witness :
  exists w',
    ingest env_ingest_empty (js "https://example.com/a") empty_world =
      (Ok (mkOutcome pending_transcript [] (Some (js "uuid" ++ [0%N])) 0 None), w') /\
    length (sources (w_db w')) = 1 /\ chunks (w_db w') = [] /\
    requests (w_embed w') = [].
Proof.
  eexists. split.
  - apply (ingest_empty_content_is_pending env_ingest_empty (js "https://example.com/a")
             empty_world
             (snd (acquireLock (ie_lock env_ingest_empty) (w_lock empty_world)))
             (mkExtraction (js "Title") [] (js "{}"))); try reflexivity.
    by intros ?%elem_of_nil.
  - done.
Defined.

(** ** The classifier: what is recognised *)

Lemma ascii_lower_idem (c : jschar) : ascii_lower (ascii_lower c) = ascii_lower c.
Proof.
  unfold ascii_lower.
  destruct ((65 <=? c) && (c <=? 90))%N eqn:E; [|by rewrite E].
  apply andb_true_iff in E as [E1 E2]. apply N.leb_le in E1, E2.
  destruct ((65 <=? c + 32) && (c + 32 <=? 90))%N eqn:E'; [|done].
  apply andb_true_iff in E' as [_ E']. apply N.leb_le in E'. lia.
Qed.

Lemma ascii_lower_cases (c : jschar) :
  ascii_lower c = c \/ (65 <= c <= 90 /\ ascii_lower c = c + 32)%N.
Proof.
  unfold ascii_lower. destruct ((65 <=? c) && (c <=? 90))%N eqn:E; [right | by left].
  apply andb_true_iff in E as [E1 E2]. apply N.leb_le in E1, E2. done.
Qed.

Lemma case_blind_lit (x : jsstring) : case_blind (lit_chars x).
Proof.
  induction x as [|a x IH]; [done|]. cbn. split; [|done].
  intros c. by rewrite ascii_lower_idem.
Qed.

Lemma case_blind_dot : case_blind Dot.
Proof.
  intros c. destruct (ascii_lower_cases c) as [-> | [Hc ->]]; [done|].
  unfold is_line_terminator.
  by rewrite !(proj2 (N.eqb_neq _ _)) by lia.
Qed.

Lemma case_blind_digit : case_blind Digit.
Proof.
  intros c. destruct (ascii_lower_cases c) as [-> | [Hc ->]]; [done|].
  unfold is_digit.
  rewrite (proj2 (N.leb_gt (c + 32) 57)) by lia.
  rewrite (proj2 (N.leb_gt c 57)) by lia. by rewrite !andb_false_r.
Qed.

Lemma case_blind_deriv (r : regex) (c : jschar) :
  case_blind r -> deriv (ascii_lower c) r = deriv c r /\ case_blind (deriv c r).
Proof.
  induction r as [| |p|a IHa b IHb|a IHa b IHb|a IHa]; cbn [deriv case_blind].
  - done.
  - done.
  - intros Hp. rewrite Hp. by destruct (p c).
  - intros [Ha Hb]. destruct (IHa Ha) as [-> Ha'], (IHb Hb) as [-> Hb'].
    split; [done|]. by destruct (nullable a).
  - intros [Ha Hb]. by destruct (IHa Ha) as [-> Ha'], (IHb Hb) as [-> Hb'].
  - intros Ha. by destruct (IHa Ha) as [-> Ha'].
Qed.

Lemma case_blind_matches (s : jsstring) : forall r,
  case_blind r -> matches r (map ascii_lower s) = matches r s.
Proof.
  induction s as [|c s IH]; intros r Hr; [done|]. cbn [map matches].
  destruct (case_blind_deriv r c Hr) as [-> Hr']. by apply IH.
Qed.

Lemma case_blind_patterns :
  case_blind TWITTER_RE /\ case_blind YOUTUBE_RE /\ case_blind PDF_RE /\ case_blind HTTP_RE.
Proof.
  unfold TWITTER_RE, YOUTUBE_RE, PDF_RE, HTTP_RE, Opt, Plus, lit_i.
  repeat first [ apply case_blind_lit | apply case_blind_dot | apply case_blind_digit
               | exact I | apply conj ].
Qed.

(** X21: the classification does not depend
    on the case of the ASCII letters of the string. *)
Theorem detectSourceType_ignores_case (url : jsstring) :
  detectSourceType (map ascii_lower url) = detectSourceType url.
Proof.
  destruct case_blind_patterns as (Ht & Hy & Hp & Hh).
  unfold detectSourceType, test_from_start, test_to_end.
  rewrite !case_blind_matches; [by destruct url | | | |]; cbn [case_blind]; done.
Qed.

Lemma lang_plus_chr p s :
  lang (Plus (Chr p)) s <-> s <> [] /\ forallb p s = true.
Proof.
  unfold Plus. rewrite lang_seq_inv. split.
  - intros (s1 & s2 & -> & (c & -> & Hc)%lang_chr_inv & Hs%lang_star_chr).
    split; [done|]. cbn. by rewrite Hc, Hs.
  - intros [Hne Hall]. destruct s as [|c s]; [done|]. cbn in Hall.
    apply andb_true_iff in Hall as [Hc Hs].
    exists [c], s. split; [done|]. split; [by constructor | by apply lang_star_chr].
Qed.

Lemma TWITTER_HEAD_spec pre :
  lang TWITTER_HEAD pre <-> map ascii_lower pre ∈ TWEET_PREFIXES.
Proof.
  split.
  - unfold TWITTER_HEAD.
    intros (h & t1 & -> & Hh%lang_lit_chars & (s & t2 & -> & Hs%lang_opt_inv &
      (sep & t3 & -> & Hsep%lang_lit_chars & (www & t4 & -> & Hw%lang_opt_inv &
      (host & sl & -> & Hhost%lang_alt_inv & Hsl%lang_lit_chars)
      %lang_seq_inv)%lang_seq_inv)%lang_seq_inv)%lang_seq_inv)%lang_seq_inv.
    destruct Hs as [Hs%lang_lit_chars | ->], Hw as [Hw%lang_lit_chars | ->],
      Hhost as [Hhost%lang_lit_chars | Hhost%lang_lit_chars];
      unfold jsstring, jschar in *;
      rewrite !map_app, ?Hh, ?Hs, ?Hsep, ?Hw, ?Hhost, ?Hsl; apply list_elem_of_In;
      vm_compute; tauto.
  - intros Hin. apply matches_lang. rewrite <- case_blind_matches.
    + apply list_elem_of_In in Hin. unfold TWEET_PREFIXES in Hin. cbn [map In] in Hin.
      repeat (destruct Hin as [<- | Hin]; [by vm_compute|]). done.
    + unfold TWITTER_HEAD, Opt, lit_i.
      repeat first [ apply case_blind_lit | exact I | apply conj ].
Qed.

Lemma YOUTUBE_RE_spec pre :
  lang YOUTUBE_RE pre <-> map ascii_lower pre ∈ VIDEO_PREFIXES.
Proof.
  split.
  - unfold YOUTUBE_RE.
    intros (h & t1 & -> & Hh%lang_lit_chars & (s & t2 & -> & Hs%lang_opt_inv &
      (sep & t3 & -> & Hsep%lang_lit_chars & (www & host & -> & Hw%lang_opt_inv &
      Hhost%lang_alt_inv)%lang_seq_inv)%lang_seq_inv)%lang_seq_inv)%lang_seq_inv.
    destruct Hs as [Hs%lang_lit_chars | ->], Hw as [Hw%lang_lit_chars | ->],
      Hhost as [Hhost%lang_lit_chars | [Hhost%lang_lit_chars | Hhost%lang_lit_chars]%lang_alt_inv];
      unfold jsstring, jschar in *;
      rewrite !map_app, ?Hh, ?Hs, ?Hsep, ?Hw, ?Hhost; apply list_elem_of_In;
      vm_compute; tauto.
  - intros Hin. apply matches_lang. rewrite <- case_blind_matches.
    + apply list_elem_of_In in Hin. unfold VIDEO_PREFIXES in Hin. cbn [map In] in Hin.
      repeat (destruct Hin as [<- | Hin]; [by vm_compute|]). done.
    + apply case_blind_patterns.
Qed.

Lemma TWITTER_RE_split w :
  lang TWITTER_RE w <->
  exists pre t, w = pre ++ t /\ lang TWITTER_HEAD pre /\
    lang (Seq (Plus Dot) (Seq (lit_i "/status/") (Plus Digit))) t.
Proof.
  unfold TWITTER_RE, TWITTER_HEAD. split.
  - intros (h & t1 & -> & Hh & (s & t2 & -> & Hs &
      (sep & t3 & -> & Hsep & (www & t4 & -> & Hw &
      (host & t5 & -> & Hhost & (sl & t & -> & Hsl & Ht)
      %lang_seq_inv)%lang_seq_inv)%lang_seq_inv)%lang_seq_inv)%lang_seq_inv)%lang_seq_inv.
    exists (h ++ s ++ sep ++ www ++ host ++ sl), t.
    split; [by rewrite <- !app_assoc|]. split; [|done].
    by repeat apply lang_seq.
  - intros (pre & t & -> & (h & t1 & -> & Hh & (s & t2 & -> & Hs &
      (sep & t3 & -> & Hsep & (www & t4 & -> & Hw &
      (host & sl & -> & Hhost & Hsl)
      %lang_seq_inv)%lang_seq_inv)%lang_seq_inv)%lang_seq_inv)%lang_seq_inv & Ht).
    rewrite <- !app_assoc. by repeat apply lang_seq.
Qed.

(** The strings that [TWITTER_RE] accepts at their start. *)
Lemma TWITTER_RE_test url :
  test_from_start TWITTER_RE url = true <->
  exists pre user status d rest,
    url = pre ++ user ++ status ++ d :: rest /\
    map ascii_lower pre ∈ TWEET_PREFIXES /\
    user <> [] /\ forallb (fun c => negb (is_line_terminator c)) user = true /\
    map ascii_lower status = js "/status/" /\ is_digit d = true.
Proof.
  rewrite test_from_start_spec. split.
  - intros (w & rest & -> & (pre & t & -> & Hpre%TWITTER_HEAD_spec &
      (user & t2 & -> & [Hne Hall]%lang_plus_chr &
       (status & ds & -> & Hst%lang_lit_chars & [Hds Hdig]%lang_plus_chr)
       %lang_seq_inv)%lang_seq_inv)%TWITTER_RE_split).
    destruct ds as [|d ds]; [done|]. cbn in Hdig. apply andb_true_iff in Hdig as [Hd _].
    exists pre, user, status, d, (ds ++ rest). split; [|done].
    by rewrite <- !app_assoc.
  - intros (pre & user & status & d & rest & -> & Hpre & Hne & Hall & Hst & Hd).
    exists (pre ++ user ++ status ++ [d]), rest. split.
    { by rewrite <- !app_assoc. }
    apply TWITTER_RE_split. exists pre, (user ++ status ++ [d]).
    split; [done|]. split; [by apply TWITTER_HEAD_spec|].
    apply lang_seq; [by apply lang_plus_chr|].
    apply lang_seq; [by apply lang_lit_chars|].
    apply lang_plus_chr. split; [done|]. cbn. by rewrite Hd.
Qed.

Lemma is_void_not_nullable r : is_void r = true -> nullable r = false.
Proof.
  induction r as [| |p|a IHa b IHb|a IHa b IHb|a IHa]; cbn; try done.
  - intros [Ha | Hb]%orb_true_iff.
    + by rewrite IHa.
    + rewrite IHb by done. apply andb_false_r.
  - intros [Ha Hb]%andb_true_iff. by rewrite IHa, IHb.
Qed.

Lemma is_void_deriv c r : is_void r = true -> is_void (deriv c r) = true.
Proof.
  induction r as [| |p|a IHa b IHb|a IHa b IHb|a IHa]; cbn [deriv is_void]; try done.
  - intros [Ha | Hb]%orb_true_iff.
    + rewrite (is_void_not_nullable a Ha). cbn. by rewrite IHa.
    + destruct (nullable a); cbn; rewrite Hb, ?IHb, ?orb_true_r; done.
  - intros [Ha Hb]%andb_true_iff. by rewrite IHa, IHb.
Qed.

Lemma is_void_matches s : forall r, is_void r = true -> matches r s = false.
Proof.
  induction s as [|c s IH]; intros r Hr; cbn [matches].
  - by apply is_void_not_nullable.
  - apply IH. by apply is_void_deriv.
Qed.

Lemma matches_app a : forall r b, matches r (a ++ b) = matches (deriv_word a r) b.
Proof.
  unfold deriv_word. induction a as [|c a IH]; intros r b; [done|]. cbn. apply IH.
Qed.

(** No string that begins like the URL of a video is accepted by
    [TWITTER_RE]. *)
Lemma video_not_tweet pre rest :
  map ascii_lower pre ∈ VIDEO_PREFIXES ->
  test_from_start TWITTER_RE (pre ++ rest) = false.
Proof.
  intros Hin. unfold test_from_start.
  rewrite <- case_blind_matches.
  2:{ split; [apply case_blind_patterns | done]. }
  rewrite map_app, matches_app. apply is_void_matches.
  apply list_elem_of_In in Hin. unfold VIDEO_PREFIXES in Hin. cbn [map In] in Hin.
  repeat (destruct Hin as [<- | Hin]; [by vm_compute|]). done.
Qed.

(** X22: a string is classified as a tweet
    exactly when it begins, in any letter case, with [http://] or [https://],
    an optional [www.], [twitter.com/] or [x.com/], goes on with one or more
    characters that are not line terminators, then [/status/] in any letter
    case, then a digit; what follows the digit does not matter. *)
Theorem detectSourceType_tweet_iff (url : jsstring) :
  detectSourceType url = st_tweet <->
  exists pre user status d rest,
    url = pre ++ user ++ status ++ d :: rest /\
    map ascii_lower pre ∈ TWEET_PREFIXES /\
    user <> [] /\ forallb (fun c => negb (is_line_terminator c)) user = true /\
    map ascii_lower status = js "/status/" /\ is_digit d = true.
Proof.
  rewrite <- TWITTER_RE_test. unfold detectSourceType.
  destruct url as [|c url]; [done|]. cbn [is_empty].
  destruct (test_from_start TWITTER_RE (c :: url)); [done|].
  split; [|done].
  by destruct (test_from_start YOUTUBE_RE (c :: url)), (test_to_end PDF_RE (c :: url)),
    (test_from_start HTTP_RE (c :: url)).
Qed.

(** X23: a string is classified as a video
    exactly when it begins, in any letter case, with [http://] or [https://],
    an optional [www.], and one of [youtube.com/watch?], [youtu.be/] and
    [youtube.com/shorts/]; in particular such a string is never a tweet, a
    PDF or an article, whatever follows. *)
Theorem detectSourceType_video_iff (url : jsstring) :
  detectSourceType url = st_video <->
  exists pre rest, url = pre ++ rest /\ map ascii_lower pre ∈ VIDEO_PREFIXES.
Proof.
  split.
  - unfold detectSourceType. destruct (is_empty url); [done|].
    destruct (test_from_start TWITTER_RE url); [done|].
    destruct (test_from_start YOUTUBE_RE url) eqn:Hy.
    + intros _. apply test_from_start_spec in Hy as (pre & rest & -> & Hpre%YOUTUBE_RE_spec).
      by exists pre, rest.
    + by destruct (test_to_end PDF_RE url), (test_from_start HTTP_RE url).
  - intros (pre & rest & -> & Hpre). unfold detectSourceType.
    assert (is_empty (pre ++ rest) = false) as ->.
    { destruct pre; [|done]. apply list_elem_of_In in Hpre. vm_compute in Hpre.
      repeat (destruct Hpre as [Hpre | Hpre]; [discriminate|]). done. }
    rewrite video_not_tweet by done.
    assert (test_from_start YOUTUBE_RE (pre ++ rest) = true) as ->; [|done].
    apply test_from_start_spec. exists pre, rest. split; [done|]. by apply YOUTUBE_RE_spec.
Qed.

Lemma HTTP_RE_spec pre : lang HTTP_RE pre <-> map ascii_lower pre ∈ HTTP_PREFIXES.
Proof.
  split.
  - unfold HTTP_RE.
    intros (h & t1 & -> & Hh%lang_lit_chars & (s & sep & -> & Hs%lang_opt_inv &
      Hsep%lang_lit_chars)%lang_seq_inv)%lang_seq_inv.
    destruct Hs as [Hs%lang_lit_chars | ->]; unfold jsstring, jschar in *;
      rewrite !map_app, ?Hh, ?Hs, ?Hsep; apply list_elem_of_In; vm_compute; tauto.
  - intros Hin. apply matches_lang. rewrite <- case_blind_matches.
    + apply list_elem_of_In in Hin. unfold HTTP_PREFIXES in Hin. cbn [map In] in Hin.
      repeat (destruct Hin as [<- | Hin]; [by vm_compute|]). done.
    + apply case_blind_patterns.
Qed.

Lemma HTTP_RE_test url :
  test_from_start HTTP_RE url = true <->
  exists pre rest, url = pre ++ rest /\ map ascii_lower pre ∈ HTTP_PREFIXES.
Proof.
  rewrite test_from_start_spec.
  split; intros (pre & rest & -> & Hpre%HTTP_RE_spec); by exists pre, rest.
Qed.

Lemma TWITTER_RE_http url :
  test_from_start TWITTER_RE url = true -> test_from_start HTTP_RE url = true.
Proof.
  rewrite !test_from_start_spec. unfold TWITTER_RE, HTTP_RE.
  intros (w & rest & -> & (h & t1 & -> & Hh & (s & t2 & -> & Hs &
    (sep & t3 & -> & Hsep & _)%lang_seq_inv)%lang_seq_inv)%lang_seq_inv).
  exists (h ++ s ++ sep), (t3 ++ rest). split; [by rewrite <- !app_assoc|].
  by repeat apply lang_seq.
Qed.

Lemma YOUTUBE_RE_http url :
  test_from_start YOUTUBE_RE url = true -> test_from_start HTTP_RE url = true.
Proof.
  rewrite !test_from_start_spec. unfold YOUTUBE_RE, HTTP_RE.
  intros (w & rest & -> & (h & t1 & -> & Hh & (s & t2 & -> & Hs &
    (sep & t3 & -> & Hsep & _)%lang_seq_inv)%lang_seq_inv)%lang_seq_inv).
  exists (h ++ s ++ sep), (t3 ++ rest). split; [by rewrite <- !app_assoc|].
  by repeat apply lang_seq.
Qed.

(** X24: only the empty string is classified
    as text, and a string is classified as other exactly when it is not
    empty, does not begin with [http://] or [https://] in any letter case,
    and does not end like a PDF. *)
Theorem detectSourceType_text_other (url : jsstring) :
  (detectSourceType url = st_text <-> url = []) /\
  (detectSourceType url = st_other <->
     url <> [] /\ ~ pdf_suffix url /\
     ~ exists pre rest, url = pre ++ rest /\ map ascii_lower pre ∈ HTTP_PREFIXES).
Proof.
  rewrite <- HTTP_RE_test, <- PDF_RE_spec.
  pose proof (TWITTER_RE_http url) as Ht. pose proof (YOUTUBE_RE_http url) as Hy.
  unfold detectSourceType. destruct url as [|c url]; [by split; [|split; [|intros [? _]]]|].
  cbn [is_empty].
  destruct (test_from_start TWITTER_RE (c :: url)), (test_from_start YOUTUBE_RE (c :: url)),
    (test_to_end PDF_RE (c :: url)), (test_from_start HTTP_RE (c :: url));
    try (specialize (Ht eq_refl); discriminate); try (specialize (Hy eq_refl); discriminate).
  all: split; [done|].
  all: split; [try discriminate | intros (_ & H1 & H2)].
  all: try (exfalso; apply H1; reflexivity); try (exfalso; apply H2; reflexivity).
  - intros _. split; [done|]. split; discriminate.
  - done.
Qed.

(** ** The URL normaliser: what does not matter *)

Lemma jsstring_ltb_irrefl (a : jsstring) : jsstring_ltb a a = false.
Proof.
  induction a as [|x a IH]; [done|]. cbn. by rewrite N.ltb_irrefl, N.eqb_refl, IH.
Qed.

Lemma jsstring_ltb_asym (a : jsstring) : forall b,
  jsstring_ltb a b = true -> jsstring_ltb b a = false.
Proof.
  induction a as [|x a IH]; intros [|y b]; cbn; try done.
  intros [Hlt | [Heq Hab]%andb_true_iff]%orb_true_iff.
  - apply N.ltb_lt in Hlt.
    rewrite (proj2 (N.ltb_ge y x)) by lia. rewrite (proj2 (N.eqb_neq y x)) by lia. done.
  - apply N.eqb_eq in Heq as ->. by rewrite N.ltb_irrefl, N.eqb_refl, (IH b Hab).
Qed.

Lemma jsstring_ltb_total (a : jsstring) : forall b,
  jsstring_ltb a b = false -> jsstring_ltb b a = false -> a = b.
Proof.
  induction a as [|x a IH]; intros [|y b]; cbn; try done.
  intros [H1 H2]%orb_false_iff [H3 H4]%orb_false_iff.
  apply N.ltb_ge in H1, H3. assert (x = y) as -> by lia.
  rewrite N.eqb_refl in H2, H4. cbn in H2, H4. f_equal. by apply IH.
Qed.

(** "Not after" is transitive. *)
Lemma jsstring_ltb_trans (a : jsstring) : forall b c,
  jsstring_ltb b a = false -> jsstring_ltb c b = false -> jsstring_ltb c a = false.
Proof.
  induction a as [|x a IH]; intros [|y b] [|z c]; cbn; try done.
  intros [H1 H2]%orb_false_iff [H3 H4]%orb_false_iff.
  apply N.ltb_ge in H1, H3. apply orb_false_iff.
  split; [apply N.ltb_ge; lia|].
  destruct (N.eqb_spec z x) as [->|]; [|done]. cbn.
  assert (y = x) as -> by lia. rewrite N.eqb_refl in H2, H4. cbn in H2, H4.
  by apply (IH b c).
Qed.

Lemma param_after_consistent (l : list (jsstring * jsstring)) :
  consistent_on param_after l.
Proof.
  unfold param_after. split.
  - intros a b _ _. apply jsstring_ltb_asym.
  - intros a b c _ _ _ Hab Hbc. by apply (jsstring_ltb_trans (fst a) (fst b) (fst c)).
Qed.

(** Two lists sorted by name that hold the same pairs, no name twice, are
    equal. *)
Lemma sorted_by_name_unique (l1 : list (jsstring * jsstring)) : forall l2,
  StronglySorted (fun a b => param_after a b = false) l1 ->
  StronglySorted (fun a b => param_after a b = false) l2 ->
  l1 ≡ₚ l2 -> NoDup (map fst l1) -> l1 = l2.
Proof.
  induction l1 as [|a l1 IH]; intros l2 Hs1 Hs2 Hp Hnd.
  { by apply Permutation_nil_l in Hp. }
  destruct l2 as [|b l2]; [by apply Permutation_nil_r in Hp|].
  apply StronglySorted_inv in Hs1 as [Hs1 Ha], Hs2 as [Hs2 Hb].
  apply NoDup_cons in Hnd as [Hna Hnd].
  assert (a = b) as <-.
  { assert (a ∈ b :: l2) as Ha2 by (rewrite <- Hp; left).
    assert (b ∈ a :: l1) as Hb1 by (rewrite Hp; left).
    apply elem_of_cons in Ha2 as [-> | Ha2]; [done|].
    apply elem_of_cons in Hb1 as [-> | Hb1]; [done|].
    exfalso. apply Hna.
    rewrite Forall_forall in Ha, Hb. specialize (Ha b Hb1). specialize (Hb a Ha2).
    unfold param_after in Ha, Hb.
    rewrite (jsstring_ltb_total (fst a) (fst b) Hb Ha).
    apply list_elem_of_fmap. by exists b. }
  f_equal. apply IH; [done | done | by apply Permutation_cons_inv in Hp | done].
Qed.

Lemma js_sort_params_perm (l1 l2 : list (jsstring * jsstring)) :
  l1 ≡ₚ l2 -> NoDup (map fst l1) -> js_sort param_after l1 = js_sort param_after l2.
Proof.
  intros Hp Hnd. apply sorted_by_name_unique.
  - apply js_sort_sorted, param_after_consistent.
  - apply js_sort_sorted, param_after_consistent.
  - by rewrite !js_sort_perm.
  - by rewrite js_sort_perm.
Qed.

Lemma set_hostname_fields api u v :
  let u' := set_hostname api u v in
  u_scheme u' = u_scheme u /\ u_username u' = u_username u /\
  u_password u' = u_password u /\ u_port u' = u_port u /\
  u_pathname u' = u_pathname u /\ u_query u' = u_query u /\
  u_fragment u' = u_fragment u /\
  u_host u' = default (u_host u) (host_parse api v).
Proof. unfold set_hostname. by destruct (host_parse api v). Qed.

(** The record after the two assignments to [u.hostname]. *)
Lemma normalize_record_eq api u :
  exists h,
    h = (let h1 := default (u_host u) (host_parse api (strip_www (u_host u))) in
         if jsstring_eqb h1 (js "twitter.com")
         then default h1 (host_parse api (js "x.com")) else h1) /\
    normalize_record api u =
      mkUrl (u_scheme u) (u_username u) (u_password u) h (u_port u) (u_pathname u)
        (query_of (query_serialize api (js_sort param_after (kept_params api u)))) None.
Proof.
  eexists. split; [reflexivity|]. unfold normalize_record, kept_params.
  destruct (set_hostname_fields api u (strip_www (u_host u)))
    as (E1 & E2 & E3 & E4 & E5 & E6 & E7 & E8).
  set (u1 := set_hostname api u (strip_www (u_host u))) in *. cbv zeta.
  rewrite <- E8.
  destruct (jsstring_eqb (u_host u1) (js "twitter.com")).
  - destruct (set_hostname_fields api u1 (js "x.com"))
      as (F1 & F2 & F3 & F4 & F5 & F6 & F7 & F8).
    rewrite F1, F2, F3, F4, F5, F6, F8, E1, E2, E3, E4, E5, E6. done.
  - by rewrite E1, E2, E3, E4, E5, E6.
Qed.

(** X25: two HTTP(S) URLs
    that the platform parses to records with the same scheme, credentials,
    host, port and path, and whose parameters other than the tracking ones
    are the same up to their order, no name twice, have the same normalised
    form, whatever their fragments and tracking parameters. *)
Theorem normalizeUrl_ignores_tracking_order_fragment api raw1 raw2 u1 u2 :
  test_from_start HTTP_RE raw1 = true -> test_from_start HTTP_RE raw2 = true ->
  url_parse api raw1 = Some u1 -> url_parse api raw2 = Some u2 ->
  same_base u1 u2 ->
  kept_params api u1 ≡ₚ kept_params api u2 ->
  NoDup (map fst (kept_params api u1)) ->
  normalizeUrl api raw1 = normalizeUrl api raw2.
Proof.
  intros Hh1 Hh2 Hp1 Hp2 (Es & Eu & Ep & Eh & Eo & Epath) Hperm Hnd.
  unfold normalizeUrl. rewrite Hh1, Hh2, Hp1, Hp2.
  assert (is_empty raw1 = false) as -> by (by destruct raw1).
  assert (is_empty raw2 = false) as -> by (by destruct raw2).
  cbn [negb orb]. f_equal.
  destruct (normalize_record_eq api u1) as (h1 & Hh & ->).
  destruct (normalize_record_eq api u2) as (h2 & Hh' & ->).
  rewrite (js_sort_params_perm _ _ Hperm Hnd), Es, Eu, Ep, Eo, Epath.
  f_equal. rewrite Hh, Hh', Eh. done.
Qed.

Lemma normalizeUrl_ignores_tracking_order_fragment_witness :
  normalizeUrl query_url_api (js "https://example.com/a?utm_source=x&b=1&a=2#top") =
    normalizeUrl query_url_api (js "https://example.com/a?a=2&b=1") /\
  normalizeUrl query_url_api (js "https://example.com/a?a=2&b=1") =
    js "https://example.com/a?a=2&b=1".
Proof.
  split; [|by vm_compute].
  eapply (normalizeUrl_ignores_tracking_order_fragment query_url_api _ _
            (mkUrl (js "https") [] [] (js "example.com") None (js "/a")
                   (Some (js "utm_source=x&b=1&a=2")) (Some (js "top")))
            (mkUrl (js "https") [] [] (js "example.com") None (js "/a")
                   (Some (js "a=2&b=1")) None)).
  - by vm_compute.
  - by vm_compute.
  - by vm_compute.
  - by vm_compute.
  - by vm_compute.
  - vm_compute. apply Permutation_swap.
  - vm_compute. apply NoDup_cons. split; [|apply NoDup_singleton].
    intros Hin%list_elem_of_singleton. discriminate.
Defined.

(** X26: two HTTP(S) URLs that differ only
    in their hosts, both among [www.twitter.com], [twitter.com], [www.x.com]
    and [x.com], have the same normalised form, with the host [x.com]; this
    supposes that the platform accepts [twitter.com] and [x.com] as host
    names and keeps them as they are. *)
Theorem normalizeUrl_twitter_hosts api raw1 raw2 u1 u2 :
  host_parse api (js "twitter.com") = Some (js "twitter.com") ->
  host_parse api (js "x.com") = Some (js "x.com") ->
  test_from_start HTTP_RE raw1 = true -> test_from_start HTTP_RE raw2 = true ->
  url_parse api raw1 = Some u1 -> url_parse api raw2 = Some u2 ->
  same_but_host u1 u2 ->
  u_host u1 ∈ TWITTER_HOSTS -> u_host u2 ∈ TWITTER_HOSTS ->
  normalizeUrl api raw1 = normalizeUrl api raw2 /\
  u_host (normalize_record api u1) = js "x.com".
Proof.
  intros Htw Hx Hh1 Hh2 Hp1 Hp2 (Es & Eu & Ep & Eo & Epath & Eq & Ef) Hin1 Hin2.
  assert (forall u, u_host u ∈ TWITTER_HOSTS ->
    (let h1 := default (u_host u) (host_parse api (strip_www (u_host u))) in
     if jsstring_eqb h1 (js "twitter.com")
     then default h1 (host_parse api (js "x.com")) else h1) = js "x.com") as Hhost.
  { intros u Hin. apply list_elem_of_In in Hin. unfold TWITTER_HOSTS in Hin.
    cbn [map In] in Hin.
    destruct Hin as [<- | [<- | [<- | [<- | []]]]].
    - change (strip_www (js "www.twitter.com")) with (js "twitter.com").
      rewrite Htw. cbn [default]. rewrite jsstring_eqb_refl, Hx. done.
    - change (strip_www (js "twitter.com")) with (js "twitter.com").
      rewrite Htw. cbn [default]. rewrite jsstring_eqb_refl, Hx. done.
    - change (strip_www (js "www.x.com")) with (js "x.com").
      rewrite Hx. done.
    - change (strip_www (js "x.com")) with (js "x.com").
      rewrite Hx. done. }
  unfold normalizeUrl. rewrite Hh1, Hh2, Hp1, Hp2.
  assert (is_empty raw1 = false) as -> by (by destruct raw1).
  assert (is_empty raw2 = false) as -> by (by destruct raw2).
  cbn [negb orb].
  destruct (normalize_record_eq api u1) as (h1 & Hh & ->).
  destruct (normalize_record_eq api u2) as (h2 & Hh' & ->).
  rewrite (Hhost u1 Hin1) in Hh. rewrite (Hhost u2 Hin2) in Hh'. subst h1 h2.
  split; [|done]. unfold kept_params. by rewrite Es, Eu, Ep, Eo, Epath, Eq.
Qed.

Lemma normalizeUrl_twitter_hosts_witness :
  normalizeUrl plain_url_api (js "https://www.twitter.com/user/status/1") =
    normalizeUrl plain_url_api (js "https://x.com/user/status/1") /\
  normalizeUrl plain_url_api (js "https://x.com/user/status/1") =
    js "https://x.com/user/status/1".
Proof.
  split; [|by vm_compute].
  eapply (normalizeUrl_twitter_hosts plain_url_api _ _
            (mkUrl (js "https") [] [] (js "www.twitter.com") None (js "/user/status/1")
                   None None)
            (mkUrl (js "https") [] [] (js "x.com") None (js "/user/status/1") None None)).
  - by vm_compute.
  - by vm_compute.
  - by vm_compute.
  - by vm_compute.
  - by vm_compute.
  - by vm_compute.
  - by vm_compute.
  - apply list_elem_of_In. vm_compute. tauto.
  - apply list_elem_of_In. vm_compute. tauto.
Defined.

(** ** The cut of long content *)

Lemma slice_0_take (n : nat) (s : jsstring) :
  slice 0 (Z.of_nat n) s = take n s.
Proof.
  unfold slice. cbn [Z.ltb Z.compare]. 
  assert ((Z.of_nat n <? 0)%Z = false) as -> by (apply Z.ltb_ge; lia).
  rewrite (Z.min_l 0) by lia. cbn [Z.to_nat drop]. rewrite Z.sub_0_r.
  destruct (Z.min_spec (Z.of_nat n) (Z.of_nat (length s))) as [[Hlt ->] | [Hge ->]].
  - by rewrite Nat2Z.id.
  - rewrite Nat2Z.id. rewrite (take_ge s n) by lia. by rewrite take_ge.
Qed.

(** X27: [truncateContent] returns the first
    [MAX_CONTENT] code units of the content: at most [MAX_CONTENT] of them,
    the content itself when it is not longer, and a second cut changes
    nothing. *)
Theorem truncateContent_cap (content : jsstring) :
  truncateContent content = take MAX_CONTENT content /\
  length (truncateContent content) = Nat.min (length content) MAX_CONTENT /\
  (length content <= MAX_CONTENT -> truncateContent content = content) /\
  truncateContent (truncateContent content) = truncateContent content.
Proof.
  assert (forall s, truncateContent s = take MAX_CONTENT s) as Ht.
  { intros s. unfold truncateContent. rewrite slice_0_take.
    destruct (Nat.ltb_spec MAX_CONTENT (length s)); [done|]. by rewrite take_ge. }
  split; [apply Ht|]. split; [|split].
  - rewrite Ht, length_take. lia.
  - intros Hle. rewrite Ht. by apply take_ge.
  - rewrite !Ht, take_take. by rewrite Nat.min_id.
Qed.

(** ** The content validator *)

Lemma trim_blank (s : jsstring) : forallb is_ws s = true -> trim s = [].
Proof.
  intros Hs. assert (trimStart s = []) as Hts.
  { induction s as [|c s IH]; [done|]. cbn in Hs |- *.
    apply andb_true_iff in Hs as [-> Hs]. by apply IH. }
  unfold trim. by rewrite Hts.
Qed.

Lemma newlines_to_spaces_blank (s : jsstring) :
  forallb is_ws s = true -> forallb is_ws (newlines_to_spaces s) = true.
Proof.
  unfold newlines_to_spaces.
  induction s as [|c s IH]; [done|]. cbn. intros [Hc Hs]%andb_true_iff.
  rewrite (IH Hs), andb_true_r. by destruct (c =? 10)%N.
Qed.

Lemma newlines_to_spaces_id (s : jsstring) :
  forallb (fun c => negb (c =? 10)%N) s = true -> newlines_to_spaces s = s.
Proof.
  unfold newlines_to_spaces.
  induction s as [|c s IH]; [done|]. cbn. intros [Hc Hs]%andb_true_iff.
  rewrite (IH Hs). by destruct (c =? 10)%N.
Qed.

Lemma forallb_app_intro {A} (p : A -> bool) (l1 l2 : list A) :
  forallb p l1 = true -> forallb p l2 = true -> forallb p (l1 ++ l2) = true.
Proof. intros H1 H2. by rewrite forallb_app, H1, H2. Qed.

Lemma forallb_snoc {A} (p : A -> bool) (l : list A) (x : A) :
  forallb p l = true -> p x = true -> forallb p (l ++ [x]) = true.
Proof. intros Hl Hx. rewrite forallb_app, Hl. cbn [forallb]. by rewrite Hx. Qed.

(** The pieces of a text of white space are of white space. *)
Lemma split_blank_blank (s : jsstring) : forall st cur,
  forallb is_ws s = true -> forallb is_ws cur = true ->
  match st with AfterNewline pending => forallb is_ws pending = true | _ => True end ->
  Forall (fun p => forallb is_ws p = true) (split_blank st cur s).
Proof.
  induction s as [|c s IH]; intros st cur Hs Hcur Hst.
  - destruct st as [|pending|]; cbn [split_blank]; apply Forall_singleton; try done.
    apply forallb_app_intro; [done|]. exact Hst.
  - cbn in Hs. apply andb_true_iff in Hs as [Hc Hs]. cbn [split_blank].
    destruct st as [|pending|].
    + destruct (c =? 10)%N; apply IH; try done. by apply forallb_snoc.
    + destruct (c =? 10)%N; [constructor; [done | by apply IH]|].
      rewrite Hc. apply IH; try done. by apply forallb_snoc.
    + destruct (c =? 10)%N; [by apply IH|].
      rewrite Hc. apply IH; try done. by apply forallb_snoc.
Qed.

Lemma blank_pieces_no_paragraph (pieces : list jsstring) :
  Forall (fun p => forallb is_ws p = true) pieces ->
  List.filter (fun p => 0 <? length p)
    (map (fun p => trim (newlines_to_spaces p)) pieces) = [].
Proof.
  induction 1 as [|p ps Hp _ IH]; [done|]. cbn [map List.filter].
  by rewrite (trim_blank _ (newlines_to_spaces_blank p Hp)).
Qed.

Lemma paragraphs_blank (content : jsstring) :
  forallb is_ws content = true -> paragraphs content = [].
Proof.
  intros Hc. apply blank_pieces_no_paragraph. by apply split_blank_blank.
Qed.

(** A text with no line feed is one piece. *)
Lemma split_blank_one (s : jsstring) : forall cur,
  forallb (fun c => negb (c =? 10)%N) s = true -> split_blank Normal cur s = [cur ++ s].
Proof.
  induction s as [|c s IH]; intros cur Hs; cbn [split_blank].
  - by rewrite app_nil_r.
  - cbn in Hs. apply andb_true_iff in Hs as [Hc Hs].
    destruct (c =? 10)%N; [done|]. rewrite (IH _ Hs). by rewrite <- app_assoc.
Qed.

Lemma prose_check_one (content : jsstring) :
  forallb (fun c => negb (c =? 10)%N) content = true ->
  80 < length (trim content) -> prose_check content = None.
Proof.
  intros Hnl Hlen. unfold prose_check, paragraphs.
  rewrite (split_blank_one content [] Hnl). cbn [app map List.filter].
  rewrite (newlines_to_spaces_id content Hnl).
  assert ((0 <? length (trim content)) = true) as -> by (apply Nat.ltb_lt; lia).
  cbn [List.filter length].
  assert ((80 <? length (trim content)) = true) as -> by (by apply Nat.ltb_lt).
  done.
Qed.

Lemma validateContent_passes toLowerCase content sourceType has_transcript :
  500 <= length content -> prose_check content = None ->
  length (error_hits (toLowerCase content)) < 2 ->
  validateContent toLowerCase content sourceType has_transcript = Valid.
Proof.
  intros H500 Hprose Hhits. unfold validateContent. rewrite Hprose.
  destruct content as [|c content]; [cbn in H500; lia|]. cbn [is_empty orb].
  destruct (Nat.ltb_spec (length (c :: content)) 20); [lia|].
  destruct (Nat.ltb_spec (length (c :: content))
              (if is_video sourceType && has_transcript then 200 else 500)) as [Hlt|_].
  { destruct (_ && _); lia. }
  rewrite andb_false_r.
  destruct (Nat.leb_spec 2 (length (error_hits (toLowerCase (c :: content))))); [lia|].
  by destruct (negb _).
Qed.

(** X28: content that [validateContent]
    accepts has at least 20 code units and fewer than two error signals in
    its lower-case form, and, for a source type other than tweet, at least
    200 code units, at least 500 unless it is a video with a transcript, and
    passes the prose test; for a tweet the first two conditions are also
    sufficient. *)
Theorem validateContent_accepts_only toLowerCase content sourceType has_transcript :
  (validateContent toLowerCase content sourceType has_transcript = Valid ->
     20 <= length content /\
     length (error_hits (toLowerCase content)) < 2 /\
     (sourceType <> st_tweet ->
        200 <= length content /\
        (500 <= length content \/ (sourceType = st_video /\ has_transcript = true)) /\
        prose_check content = None)) /\
  (validateContent toLowerCase content st_tweet has_transcript = Valid <->
     20 <= length content /\ length (error_hits (toLowerCase content)) < 2).
Proof.
  unfold validateContent. split.
  - destruct (is_empty content); [done|]. cbn [orb].
    destruct (Nat.ltb_spec (length content) 20) as [|H20]; [done|].
    intros Hv. split; [done|].
    assert (is_tweet sourceType = false -> sourceType <> st_tweet -> True) as _ by done.
    destruct (is_tweet sourceType) eqn:Etw; cbn [negb andb] in Hv.
    + destruct (Nat.leb_spec 2 (length (error_hits (toLowerCase content)))); [done|].
      split; [done|]. intros Hne. by destruct sourceType.
    + destruct (is_video sourceType && has_transcript) eqn:Evid.
      * destruct (Nat.ltb_spec (length content) 200) as [|H200]; [done|].
        destruct (prose_check content); [done|].
        destruct (Nat.leb_spec 2 (length (error_hits (toLowerCase content)))); [done|].
        split; [done|]. intros _. split; [done|]. split; [|done]. right.
        apply andb_true_iff in Evid as [Hvid ->]. by destruct sourceType.
      * destruct (Nat.ltb_spec (length content) 500) as [|H500]; [done|].
        destruct (prose_check content); [done|].
        destruct (Nat.leb_spec 2 (length (error_hits (toLowerCase content)))); [done|].
        split; [done|]. intros _. split; [lia|]. split; [by left | done].
  - cbn [is_tweet is_video negb andb].
    destruct content as [|c content]; [cbn; split; [done | lia]|]. cbn [is_empty orb].
    destruct (Nat.ltb_spec (length (c :: content)) 20) as [|H20]; [split; [done | lia]|].
    destruct (Nat.leb_spec 2 (length (error_hits (toLowerCase (c :: content)))));
      [split; [done | lia] | done].
Qed.

(** X29: content without a line feed,
    of at least 500 code units, of more than 80 once trimmed, and with fewer
    than two error signals is accepted, whatever the source type. *)
Theorem validateContent_single_paragraph toLowerCase content sourceType has_transcript :
  forallb (fun c => negb (c =? 10)%N) content = true ->
  500 <= length content -> 80 < length (trim content) ->
  length (error_hits (toLowerCase content)) < 2 ->
  validateContent toLowerCase content sourceType has_transcript = Valid.
Proof.
  intros Hnl H500 H80 Hhits.
  apply validateContent_passes; [done | by apply prose_check_one | done].
Qed.

Lemma validateContent_single_paragraph_witness :
  validateContent (map ascii_lower) (repeat_str 100 "Words ") st_article false = Valid.
Proof.
  apply validateContent_single_paragraph.
  - by vm_compute.
  - apply Nat.leb_le. by vm_compute.
  - apply Nat.ltb_lt. by vm_compute.
  - apply Nat.ltb_lt. by vm_compute.
Defined.

(** X30: content of at least 500 code
    units that are all white space has no paragraph, so that the prose test
    is skipped: it is accepted for every source type, when fewer than two
    error signals are found in its lower-case form. *)
Theorem validateContent_blank_content toLowerCase content sourceType has_transcript :
  forallb is_ws content = true -> 500 <= length content ->
  length (error_hits (toLowerCase content)) < 2 ->
  validateContent toLowerCase content sourceType has_transcript = Valid.
Proof.
  intros Hws H500 Hhits. apply validateContent_passes; [done | | done].
  unfold prose_check. by rewrite (paragraphs_blank content Hws).
Qed.

Lemma validateContent_blank_content_witness :
  validateContent (map ascii_lower) (repeat_str 500 " ") st_article false = Valid.
Proof.
  apply validateContent_blank_content.
  - by vm_compute.
  - apply Nat.leb_le. by vm_compute.
  - apply Nat.ltb_lt. by vm_compute.
Defined.
